(** * Email-Job-tracker: classification and synchronisation pipeline

    A shallow embedding of the TypeScript sources
      - [src/app/api/gmail/route.ts]      (full-sync route, module [Route])
      - [src/app/api/gmail/new/route.ts]  (incremental route, module [NewRoute])
      - [src/unnamed/part_001]            (route with the regex heuristics,
                                           module [Heuristic])
      - [src/unnamed/part_000]            (dashboard component, module [Dashboard])
    together with the properties of the specification that are settled on
    them. *)

From Stdlib Require Import List NArith ZArith Bool Lia String Ascii Arith.
From Stdlib Require Import Permutation.
Import ListNotations.

Set Implicit Arguments.

Open Scope string_scope.
Open Scope list_scope.

(* ================================================================== *)
(** ** JavaScript strings *)

(** A JavaScript string is a sequence of UTF-16 code units. *)
Module JS.

Definition char := N.
Definition jsstring := list char.

Definition jsstring_dec : forall a b : jsstring, {a = b} + {a <> b} :=
  list_eq_dec N.eq_dec.

Definition eqb (a b : jsstring) : bool :=
  if jsstring_dec a b then true else false.

(** String literals of the sources that are pure ASCII. *)
Definition lit (s : string) : jsstring :=
  map N_of_ascii (list_ascii_of_string s).

(** Truthiness of a string value: every string but the empty one. *)
Definition truthy (s : jsstring) : bool :=
  match s with [] => false | _ :: _ => true end.

(** [a || b] on strings, with [None] for [undefined]/[null]. *)
Definition or_default (a : option jsstring) (b : jsstring) : jsstring :=
  match a with
  | Some s => if truthy s then s else b
  | None => b
  end.

Definition in_range (lo hi c : N) : bool := ((lo <=? c) && (c <=? hi))%N.

Definition is_upper_ascii (c : char) : bool := in_range 65 90 c.
Definition is_lower_ascii (c : char) : bool := in_range 97 122 c.
Definition is_digit (c : char) : bool := in_range 48 57 c.
Definition is_ascii (c : char) : bool := (c <? 128)%N.

Definition lower_ascii (c : char) : char :=
  if is_upper_ascii c then (c + 32)%N else c.
Definition upper_ascii (c : char) : char :=
  if is_lower_ascii c then (c - 32)%N else c.

(** ECMAScript WhiteSpace and LineTerminator code units: the class [\s]
    of regular expressions and the units removed by [trim]. *)
Definition is_space (c : char) : bool :=
  (in_range 9 13 c || (c =? 32) || (c =? 160) || (c =? 5760)
   || in_range 8192 8202 c || (c =? 8232) || (c =? 8233) || (c =? 8239)
   || (c =? 8287) || (c =? 12288) || (c =? 65279))%N.

Fixpoint trimStart (s : jsstring) : jsstring :=
  match s with
  | c :: s' => if is_space c then trimStart s' else s
  | [] => []
  end.

Definition trimEnd (s : jsstring) : jsstring := rev (trimStart (rev s)).

(** [String.prototype.trim] *)
Definition trim (s : jsstring) : jsstring := trimEnd (trimStart s).

(** [Array.prototype.join] on an array of strings. *)
Fixpoint join (sep : jsstring) (l : list jsstring) : jsstring :=
  match l with
  | [] => []
  | [x] => x
  | x :: l' => x ++ sep ++ join sep l'
  end.

(** [String.prototype.split] with a separator that matches exactly one
    code unit of the class [p] (the string ['.'] or the regex [[.-]]). *)
Fixpoint split_on (p : char -> bool) (cur : jsstring) (s : jsstring)
  : list jsstring :=
  match s with
  | [] => [rev cur]
  | c :: s' => if p c then rev cur :: split_on p [] s'
               else split_on p (c :: cur) s'
  end.

Definition split (p : char -> bool) (s : jsstring) : list jsstring :=
  split_on p [] s.

(** [s.slice(1)] and [s.charAt(0)]. *)
Definition slice1 (s : jsstring) : jsstring := tl s.
Definition charAt0 (s : jsstring) : jsstring := firstn 1 s.

(** [body.substring(0, n)] *)
Definition substring0 (n : nat) (s : jsstring) : jsstring := firstn n s.

Section CaseConversion.
(** [toLowerCase] and [toUpperCase] are built-ins driven by the Unicode
    tables.  On ASCII units they are the ASCII case maps, whatever the
    context; what they produce for a unit outside ASCII (which may depend
    on the units around it, and may be several units or none) is left to
    the two functions below. *)
Variable lower_other : jsstring -> char -> jsstring -> jsstring.
Variable upper_other : jsstring -> char -> jsstring -> jsstring.

Fixpoint toLowerCase_from (before : jsstring) (s : jsstring) : jsstring :=
  match s with
  | [] => []
  | c :: s' =>
      (if is_ascii c then [lower_ascii c] else lower_other (rev before) c s')
        ++ toLowerCase_from (c :: before) s'
  end.

Definition toLowerCase (s : jsstring) : jsstring := toLowerCase_from [] s.

Fixpoint toUpperCase_from (before : jsstring) (s : jsstring) : jsstring :=
  match s with
  | [] => []
  | c :: s' =>
      (if is_ascii c then [upper_ascii c] else upper_other (rev before) c s')
        ++ toUpperCase_from (c :: before) s'
  end.

Definition toUpperCase (s : jsstring) : jsstring := toUpperCase_from [] s.
End CaseConversion.

End JS.

(* ================================================================== *)
(** ** Regular expressions *)

(** The fragment of ECMAScript regular expressions that the sources use:
    character classes, concatenation, ordered alternation, greedy and lazy
    repetition of a character class, capture groups, and the anchors [^]
    and [$] (no [m] flag anywhere, so they are the ends of the input).
    Matching is the backtracking search of the language: alternatives in
    order, a greedy repetition longest first, a lazy one shortest first,
    and the leftmost start position that succeeds. *)
Module Regex.
Import JS.

Inductive regex : Type :=
| Empty : regex
| Set_ : (char -> bool) -> regex
| Cat : regex -> regex -> regex
| Or : regex -> regex -> regex
| Star : bool -> (char -> bool) -> regex   (* [true]: greedy, [false]: lazy *)
| Group : nat -> regex -> regex
| Bol : regex
| Eol : regex.

Definition captures := list (nat * jsstring).

Fixpoint capture (n : nat) (c : captures) : option jsstring :=
  match c with
  | [] => None
  | (m, s) :: c' => if Nat.eqb m n then Some s else capture n c'
  end.

Section Matcher.
Variable A : Type.

(** A continuation takes the index reached, the input that remains and
    the captures made so far. *)
Definition cont := nat -> jsstring -> captures -> option A.

Fixpoint star_greedy (p : char -> bool) (k : cont)
         (i : nat) (s : jsstring) (c : captures) : option A :=
  match s with
  | x :: s' =>
      if p x then
        match star_greedy p k (S i) s' c with
        | Some a => Some a
        | None => k i s c
        end
      else k i s c
  | [] => k i s c
  end.

Fixpoint star_lazy (p : char -> bool) (k : cont)
         (i : nat) (s : jsstring) (c : captures) : option A :=
  match k i s c with
  | Some a => Some a
  | None =>
      match s with
      | x :: s' => if p x then star_lazy p k (S i) s' c else None
      | [] => None
      end
  end.

Fixpoint run (r : regex) (k : cont)
         (i : nat) (s : jsstring) (c : captures) : option A :=
  match r with
  | Empty => k i s c
  | Set_ p =>
      match s with
      | x :: s' => if p x then k (S i) s' c else None
      | [] => None
      end
  | Cat r1 r2 => run r1 (run r2 k) i s c
  | Or r1 r2 =>
      match run r1 k i s c with
      | Some a => Some a
      | None => run r2 k i s c
      end
  | Star g p => if g then star_greedy p k i s c else star_lazy p k i s c
  | Group n r1 =>
      run r1 (fun i' s' c' => k i' s' ((n, firstn (i' - i) s) :: c')) i s c
  | Bol => if Nat.eqb i 0 then k i s c else None
  | Eol => match s with [] => k i s c | _ :: _ => None end
  end.
End Matcher.

(** The result of [RegExp.prototype.exec] / [String.prototype.match]
    without the [g] flag. *)
Record match_result : Type := MatchResult {
  index : nat;
  matched : jsstring;          (* [m[0]] *)
  groups : captures
}.

Definition accept : cont (nat * captures) := fun i _ c => Some (i, c).

Fixpoint search (r : regex) (i : nat) (s : jsstring) : option match_result :=
  match run r accept i s [] with
  | Some (e, c) => Some (MatchResult i (firstn (e - i) s) c)
  | None =>
      match s with
      | _ :: s' => search r (S i) s'
      | [] => None
      end
  end.

(** [s.match(r)] *)
Definition exec (r : regex) (s : jsstring) : option match_result :=
  search r 0 s.

(** [r.test(s)] *)
Definition test (r : regex) (s : jsstring) : bool :=
  match exec r s with Some _ => true | None => false end.

(** [m?.[n]]: the text of group [n], [None] for [undefined]. *)
Definition group (n : nat) (m : option match_result) : option jsstring :=
  match m with
  | Some r => capture n (groups r)
  | None => None
  end.

(** [s.replace(r, '')] without the [g] flag: the first match is removed. *)
Definition remove_first (r : regex) (s : jsstring) : jsstring :=
  match exec r s with
  | Some m => firstn (index m) s ++ skipn (index m + List.length (matched m)) s
  | None => s
  end.

(** *** Pattern combinators *)

Definition chr (a : ascii) : char -> bool := fun c => N.eqb c (N_of_ascii a).
(** A literal letter under the [i] flag. *)
Definition chr_i (a : ascii) : char -> bool :=
  fun c => N.eqb (lower_ascii c) (lower_ascii (N_of_ascii a)).

Fixpoint cats (l : list regex) : regex :=
  match l with
  | [] => Empty
  | [r] => r
  | r :: l' => Cat r (cats l')
  end.

Fixpoint alts (l : list regex) : regex :=
  match l with
  | [] => Set_ (fun _ => false)
  | [r] => r
  | r :: l' => Or r (alts l')
  end.

(** A literal word, case-sensitive or under the [i] flag. *)
Definition word (s : string) : regex :=
  cats (map (fun a => Set_ (chr a)) (list_ascii_of_string s)).
Definition word_i (s : string) : regex :=
  cats (map (fun a => Set_ (chr_i a)) (list_ascii_of_string s)).

Definition plus (p : char -> bool) : regex := Cat (Set_ p) (Star true p).
Definition plus_lazy (p : char -> bool) : regex := Cat (Set_ p) (Star false p).
Definition opt (r : regex) : regex := Or r Empty.

(** [\s+] and [\s*] *)
Definition ws1 : regex := plus is_space.
Definition ws0 : regex := Star true is_space.

(** Words separated by [\s+], under the [i] flag:
    [phrase ["not"; "moving"]] is [/not\s+moving/i]. *)
Fixpoint phrase (l : list string) : regex :=
  match l with
  | [] => Empty
  | [w] => word_i w
  | w :: l' => Cat (word_i w) (Cat ws1 (phrase l'))
  end.

End Regex.

(* ================================================================== *)
(** ** [Date] *)

Module DateTime.
Import JS.

(** [new Date(n)] for a number [n]: the time value is clipped to
    +-8.64e15 ms, beyond which the date is invalid. *)
Definition TimeClip (t : Z) : option Z :=
  if (Z.abs t <=? 8640000000000000)%Z then Some t else None.

(** Decimal digits of a natural number, padded with zeros to [width]. *)
Fixpoint digits (width : nat) (n : Z) : jsstring :=
  match width with
  | O => []
  | S w => digits w (n / 10)%Z ++ [Z.to_N (48 + n mod 10)%Z]
  end.

(** Year, month and day of a day number counted from 1970-01-01, in the
    proleptic Gregorian calendar. *)
Definition civil (day : Z) : Z * Z * Z :=
  (let z := day + 719468 in
   let era := z / 146097 in
   let doe := z - era * 146097 in
   let yoe := (doe - doe / 1460 + doe / 36524 - doe / 146096) / 365 in
   let doy := doe - (365 * yoe + yoe / 4 - yoe / 100) in
   let mp := (5 * doy + 2) / 153 in
   let d := doy - (153 * mp + 2) / 5 + 1 in
   let m := if mp <? 10 then mp + 3 else mp - 9 in
   let y := yoe + era * 400 + (if m <=? 2 then 1 else 0) in
   (y, m, d))%Z.

(** [Date.prototype.toISOString] of a valid time value:
    [YYYY-MM-DDTHH:mm:ss.sssZ], the year with a sign and six digits when
    it is outside 0..9999. *)
Definition toISOString (t : Z) : jsstring :=
  (let day := t / 86400000 in
   let ms := t mod 86400000 in
   let '(y, m, d) := civil day in
   let year :=
     if (0 <=? y) && (y <=? 9999) then digits 4 y
     else (if y <? 0 then lit "-" else lit "+") ++ digits 6 (Z.abs y) in
   year ++ lit "-" ++ digits 2 m ++ lit "-" ++ digits 2 d ++ lit "T"
     ++ digits 2 (ms / 3600000) ++ lit ":"
     ++ digits 2 (ms / 60000 mod 60) ++ lit ":"
     ++ digits 2 (ms / 1000 mod 60) ++ lit "."
     ++ digits 3 (ms mod 1000) ++ lit "Z")%Z.

End DateTime.

(* ================================================================== *)
(** ** Values shared by the routes *)

Module Common.
Import JS Regex DateTime.

(** Exceptions that the modelled code can raise or receive. *)
Inductive error : Type :=
| RangeError (message : jsstring)        (* [Date.prototype.toISOString] *)
| ReferenceError (message : jsstring)    (* an identifier with no binding *)
| SyntaxError (message : jsstring)       (* [JSON.parse] *)
| Error_ (message : jsstring)            (* [new Error(...)] *)
| Rejection (reason : jsstring).         (* a rejected provider or network call *)

Inductive result (A : Type) : Type :=
| Ok : A -> result A
| Throw : error -> result A.
Arguments Ok {A} _.
Arguments Throw {A} _.

Definition bind {A B} (m : result A) (f : A -> result B) : result B :=
  match m with
  | Ok a => f a
  | Throw e => Throw e
  end.

(** [String(error)] *)
Definition error_toString (e : error) : jsstring :=
  match e with
  | RangeError m => lit "RangeError: " ++ m
  | ReferenceError m => lit "ReferenceError: " ++ m
  | SyntaxError m => lit "SyntaxError: " ++ m
  | Error_ m => lit "Error: " ++ m
  | Rejection r => r
  end.

(** [gmail_v1.Schema$MessagePartHeader] *)
Record Header : Type := mkHeader {
  name : option jsstring;
  value : option jsstring
}.

(** [gmail_v1.Schema$MessagePart]; [body_data] is [part.body?.data]. *)
#[warnings="-register-all"]
Inductive MessagePart : Type :=
| Part (mimeType : option jsstring)
       (headers : option (list Header))
       (body_data : option jsstring)
       (parts : option (list MessagePart)).

Definition mimeType (p : MessagePart) : option jsstring :=
  match p with Part m _ _ _ => m end.
Definition headers (p : MessagePart) : option (list Header) :=
  match p with Part _ h _ _ => h end.
Definition body_data (p : MessagePart) : option jsstring :=
  match p with Part _ _ d _ => d end.
Definition parts (p : MessagePart) : option (list MessagePart) :=
  match p with Part _ _ _ ps => ps end.

(** [gmail_v1.Schema$Message], the [data] of a [messages.get] response. *)
Record Message : Type := mkMessage {
  msg_id : option jsstring;
  payload : option MessagePart
}.

(** [interface AIAnalysisResult] *)
Record AIAnalysisResult : Type := mkAI {
  ai_companyName : jsstring;
  ai_jobProfile : jsstring;
  ai_applicationStatus : jsstring
}.

(** [mimeType === 'text/plain'] *)
Definition is_text_plain (p : MessagePart) : bool :=
  match mimeType p with
  | Some m => eqb m (lit "text/plain")
  | None => false
  end.

(** A value of [part.body?.data] that is truthy. *)
Definition data_of (p : MessagePart) : option jsstring :=
  match body_data p with
  | Some d => if truthy d then Some d else None
  | None => None
  end.

(** [headers.find(h => h.name === n)?.value] *)
Definition header_value (hs : list Header) (n : string) : option jsstring :=
  match find (fun h => match name h with
                       | Some x => eqb x (lit n)
                       | None => false
                       end) hs with
  | Some h => value h
  | None => None
  end.

(** [payload?.headers || []] *)
Definition headers_of (m : Message) : list Header :=
  match payload m with
  | Some p => match headers p with Some hs => hs | None => [] end
  | None => []
  end.

(** The separator ['\n'] *)
Definition newline : jsstring := [10%N].

(** [/<[^>]+>/] *)
Definition angle_address : regex :=
  cats [Set_ (chr "<"); plus (fun c => negb (chr ">" c)); Set_ (chr ">")].

(** [from.replace(/<[^>]+>/, '').trim()] *)
Definition display_from (from : jsstring) : jsstring :=
  trim (remove_first angle_address from).

(** [/\{[\s\S]*\}/] *)
Definition json_object : regex :=
  cats [Set_ (chr "{"); Star true (fun _ => true); Set_ (chr "}")].

Section Builtins.
(** [Buffer.from(data, 'base64').toString('utf8')] *)
Variable decode : jsstring -> jsstring.
(** [Date.parse]: the time value read from a string by the engine's
    parser; [None] is [NaN]. *)
Variable Date_parse : jsstring -> option Z.
(** The text generated by the model for the prompt built from the
    subject, the sender and the first 1000 units of the body; an
    exception of the service is a [Throw]. *)
Variable generateContent : jsstring -> jsstring -> jsstring -> result jsstring.
(** [JSON.parse] of the object found in the text, read as
    [AIAnalysisResult]. *)
Variable JSON_parse : jsstring -> result AIAnalysisResult.

(** [getEmailBody], the same function in [route.ts] and in [part_001]. *)
Definition getEmailBody (payload : option MessagePart) : jsstring :=
  match payload with
  | None => []
  | Some p =>
      match (if is_text_plain p then data_of p else None) with
      | Some d => decode d
      | None =>
          match parts p with
          | Some ps =>
              join newline
                   (map (fun part => match data_of part with
                                     | Some d => decode d
                                     | None => []
                                     end)
                        (filter is_text_plain ps))
          | None => []
          end
      end
  end.

(** The time value of [new Date(date)] for a string. *)
Definition Date_of_string (date : jsstring) : option Z :=
  match Date_parse date with
  | Some t => TimeClip t
  | None => None
  end.

(** [new Date(date).toISOString()]: a RangeError on an invalid date. *)
Definition Date_toISOString (date : jsstring) : result jsstring :=
  match Date_of_string date with
  | Some t => Ok (toISOString t)
  | None => Throw (RangeError (lit "Invalid time value"))
  end.

(** [date ? new Date(date).toISOString() : null] *)
Definition date_field (date : option jsstring) : result (option jsstring) :=
  match date with
  | Some d =>
      if truthy d then bind (Date_toISOString d) (fun s => Ok (Some s))
      else Ok None
  | None => Ok None
  end.

(** [analyzeEmailWithAI]: every exception inside is caught and turned
    into [null]. *)
Definition analyzeEmailWithAI (subject body from : jsstring)
  : option AIAnalysisResult :=
  match generateContent subject from (substring0 1000 body) with
  | Throw _ => None
  | Ok text =>
      match exec json_object text with
      | None => None
      | Some m =>
          match JSON_parse (matched m) with
          | Ok parsed => Some parsed
          | Throw _ => None
          end
      end
  end.
End Builtins.

End Common.

(* ================================================================== *)
(** ** [part_001]: the route with the regex heuristics *)

Module Heuristic.
Import JS Regex Common.

(** The record returned by [extractEmailInfo]; [id] is [details.data.id],
    which may be undefined. *)
Record EmailInfo : Type := mkEmailInfo {
  id : option jsstring;
  companyName : jsstring;
  jobProfile : jsstring;
  applicationStatus : jsstring;
  date : option jsstring;
  originalSubject : jsstring;
  from : jsstring
}.

(** [[A-Za-z0-9\s&\.]] *)
Definition name_class (c : char) : bool :=
  is_upper_ascii c || is_lower_ascii c || is_digit c || is_space c
  || chr "&" c || chr "." c.

(** [[-–—|]]: hyphen, en dash (U+2013), em dash (U+2014), bar. *)
Definition dash_class (c : char) : bool :=
  chr "-" c || N.eqb c 8211 || N.eqb c 8212 || chr "|" c.

(** [[^-|@\n.]] *)
Definition role_class (c : char) : bool :=
  negb (chr "-" c || chr "|" c || chr "@" c || N.eqb c 10 || chr "." c).

(** [[^,\n]] and [[^,\n.]] *)
Definition line_class (c : char) : bool := negb (chr "," c || N.eqb c 10).
Definition clause_class (c : char) : bool :=
  negb (chr "," c || N.eqb c 10 || chr "." c).

(** [/@([^>]+)>/] *)
Definition domain_pattern : regex :=
  cats [Set_ (chr "@"); Group 1 (plus (fun c => negb (chr ">" c)));
        Set_ (chr ">")].

Definition companyPatterns : list regex :=
  [ (* /(?:at|@|from)\s+([A-Za-z0-9\s&\.]+?)(?:\s+(?:for|position|role|about|regarding)|\s*$)/i *)
    cats [alts [word_i "at"; word_i "@"; word_i "from"]; ws1;
          Group 1 (plus_lazy name_class);
          Or (Cat ws1 (alts [word_i "for"; word_i "position"; word_i "role";
                             word_i "about"; word_i "regarding"]))
             (Cat ws0 Eol)];
    (* /^([A-Za-z0-9\s&\.]+?)(?:\s*[-–—|]|$)/ *)
    cats [Bol; Group 1 (plus_lazy name_class);
          Or (Cat ws0 (Set_ dash_class)) Eol];
    (* /([A-Za-z0-9\s&\.]+?)\s+(?:Careers|Jobs|Hiring|Recruitment)/i *)
    cats [Group 1 (plus_lazy name_class); ws1;
          alts [word_i "Careers"; word_i "Jobs"; word_i "Hiring";
                word_i "Recruitment"]];
    (* /(?:workday|greenhouse|lever|indeed|linkedin)\s+on\s+behalf\s+of\s+([A-Za-z0-9\s&\.]+)/i *)
    cats [alts [word_i "workday"; word_i "greenhouse"; word_i "lever";
                word_i "indeed"; word_i "linkedin"]; ws1;
          phrase ["on"; "behalf"; "of"]; ws1; Group 1 (plus name_class)];
    (* /(?:welcome\s+to|joining|application\s+(?:at|with|for))\s+([A-Za-z0-9\s&\.]+?)(?:\s+team|\s*[.!])/i *)
    cats [alts [phrase ["welcome"; "to"]; word_i "joining";
                cats [word_i "application"; ws1;
                      alts [word_i "at"; word_i "with"; word_i "for"]]];
          ws1; Group 1 (plus_lazy name_class);
          Or (Cat ws1 (word_i "team"))
             (Cat ws0 (Set_ (fun c => chr "." c || chr "!" c)))]
  ].

(** [/(?:careers|jobs|hr|recruiting|talent)/i] *)
Definition domain_noise : regex :=
  alts [word_i "careers"; word_i "jobs"; word_i "hr"; word_i "recruiting";
        word_i "talent"].

Definition rolePatterns : list regex :=
  [ (* /(?:for|position:|role:)\s+([^-|@\n.]+?)(?:\s+at|$)/i *)
    cats [alts [word_i "for"; word_i "position:"; word_i "role:"]; ws1;
          Group 1 (plus_lazy role_class);
          Or (Cat ws1 (word_i "at")) Eol];
    (* /[-–—|]\s*([^-|@\n.]+?)(?:\s+at|$)/i *)
    cats [Set_ dash_class; ws0; Group 1 (plus_lazy role_class);
          Or (Cat ws1 (word_i "at")) Eol];
    (* /(?:Software|Senior|Junior|Lead|Full[- ]Stack|Front[- ]End|Back[- ]End|DevOps|Cloud)\s+(?:Engineer|Developer|Architect|Developer)[^,\n]*/i *)
    cats [alts [word_i "Software"; word_i "Senior"; word_i "Junior";
                word_i "Lead";
                cats [word_i "Full"; Set_ (fun c => chr "-" c || chr " " c);
                      word_i "Stack"];
                cats [word_i "Front"; Set_ (fun c => chr "-" c || chr " " c);
                      word_i "End"];
                cats [word_i "Back"; Set_ (fun c => chr "-" c || chr " " c);
                      word_i "End"];
                word_i "DevOps"; word_i "Cloud"]; ws1;
          alts [word_i "Engineer"; word_i "Developer"; word_i "Architect";
                word_i "Developer"];
          Star true line_class];
    (* /(?:position|role|job)\s+(?:of|as|:)\s+([^,\n]+)/i *)
    cats [alts [word_i "position"; word_i "role"; word_i "job"]; ws1;
          alts [word_i "of"; word_i "as"; word_i ":"]; ws1;
          Group 1 (plus line_class)];
    (* /applying\s+for\s+(?:the\s+)?(?:role\s+of\s+)?([^,\n.]+)/i *)
    cats [phrase ["applying"; "for"]; ws1;
          opt (Cat (word_i "the") ws1);
          opt (cats [phrase ["role"; "of"]; ws1]);
          Group 1 (plus clause_class)];
    (* /position:\s*([^,\n.]+)/i *)
    cats [word_i "position:"; ws0; Group 1 (plus clause_class)]
  ].

(** [Object.entries(statusPatterns)]: the keys are strings that are not
    array indices, so the entries come in the order the literal lists
    them. *)
Definition statusPatterns : list (jsstring * list regex) :=
  [ (lit "Rejected",
     [ (* /(?:regret|unfortunately|not\s+moving\s+forward|not\s+selected|not\s+proceed|unsuccessful)/i *)
       alts [word_i "regret"; word_i "unfortunately";
             phrase ["not"; "moving"; "forward"]; phrase ["not"; "selected"];
             phrase ["not"; "proceed"]; word_i "unsuccessful"];
       (* /thank\s+you\s+for\s+your\s+interest/i *)
       phrase ["thank"; "you"; "for"; "your"; "interest"];
       (* /other\s+candidates|better\s+suited|not\s+the\s+best\s+fit/i *)
       alts [phrase ["other"; "candidates"]; phrase ["better"; "suited"];
             phrase ["not"; "the"; "best"; "fit"]] ]);
    (lit "Interview",
     [ (* /(?:interview|next\s+steps|move\s+forward|schedule\s+a\s+call)/i *)
       alts [word_i "interview"; phrase ["next"; "steps"];
             phrase ["move"; "forward"]; phrase ["schedule"; "a"; "call"]];
       (* /technical\s+(?:round|assessment|challenge)|coding\s+challenge/i *)
       alts [cats [word_i "technical"; ws1;
                   alts [word_i "round"; word_i "assessment";
                         word_i "challenge"]];
             phrase ["coding"; "challenge"]];
       (* /available\s+for\s+(?:a\s+)?(?:chat|call|meeting)/i *)
       cats [phrase ["available"; "for"]; ws1; opt (Cat (word_i "a") ws1);
             alts [word_i "chat"; word_i "call"; word_i "meeting"]] ]);
    (lit "Offer",
     [ (* /(?:offer|congratulations|welcome\s+aboard|joining|start\s+date)/i *)
       alts [word_i "offer"; word_i "congratulations";
             phrase ["welcome"; "aboard"]; word_i "joining";
             phrase ["start"; "date"]];
       (* /pleased\s+to\s+(?:offer|inform)|formal\s+offer/i *)
       alts [cats [phrase ["pleased"; "to"]; ws1;
                   alts [word_i "offer"; word_i "inform"]];
             phrase ["formal"; "offer"]] ]);
    (lit "Application Received",
     [ (* /(?:received|confirmed|submitted|reviewing|processing)\s+(?:your\s+)?application/i *)
       cats [alts [word_i "received"; word_i "confirmed"; word_i "submitted";
                   word_i "reviewing"; word_i "processing"]; ws1;
             opt (Cat (word_i "your") ws1); word_i "application"];
       (* /thank\s+you\s+for\s+(?:applying|your\s+application|your\s+interest)/i *)
       cats [phrase ["thank"; "you"; "for"]; ws1;
             alts [word_i "applying"; phrase ["your"; "application"];
                   phrase ["your"; "interest"]]];
       (* /application\s+(?:confirmation|received|submitted)/i *)
       cats [word_i "application"; ws1;
             alts [word_i "confirmation"; word_i "received";
                   word_i "submitted"]] ])
  ].

(** The loop [for (const pattern of patterns) { const match = text.match(pattern);
    if (match?.[1]) { ...; break; } }]: the first group 1 that is truthy. *)
Fixpoint first_capture (patterns : list regex) (text : jsstring)
  : option jsstring :=
  match patterns with
  | [] => None
  | p :: ps =>
      match group 1 (exec p text) with
      | Some g => if truthy g then Some g else first_capture ps text
      | None => first_capture ps text
      end
  end.

(** The loop over [Object.entries(statusPatterns)], with its [break]. *)
Fixpoint first_status (entries : list (jsstring * list regex))
         (text : jsstring) (current : jsstring) : jsstring :=
  match entries with
  | [] => current
  | (status, patterns) :: rest =>
      if existsb (fun pattern => test pattern text) patterns then status
      else first_status rest text current
  end.

Section ExtractEmailInfo.
Variable lower_other : jsstring -> char -> jsstring -> jsstring.
Variable upper_other : jsstring -> char -> jsstring -> jsstring.
Variable decode : jsstring -> jsstring.
Variable Date_parse : jsstring -> option Z.
Variable generateContent : jsstring -> jsstring -> jsstring -> result jsstring.
Variable JSON_parse : jsstring -> result AIAnalysisResult.

(** [word.charAt(0).toUpperCase() + word.slice(1)] *)
Definition capitalize (w : jsstring) : jsstring :=
  toUpperCase upper_other (charAt0 w) ++ slice1 w.

(** Lines 83-118: the company name. *)
Definition company_of (subject body from : jsstring) : jsstring :=
  let emailDomain := or_default (group 1 (exec domain_pattern from)) [] in
  let companyDomain := hd [] (split (chr ".") emailDomain) in
  let companyName :=
    match first_capture companyPatterns (subject ++ lit " " ++ body) with
    | Some g => trim g
    | None => lit "Unknown Company"
    end in
  if eqb companyName (lit "Unknown Company") && truthy companyDomain then
    trim (join (lit " ")
            (map capitalize
               (split (fun c => chr "." c || chr "-" c)
                  (remove_first domain_noise companyDomain))))
  else companyName.

(** Lines 120-142: the job profile. *)
Definition role_of (subject body : jsstring) : jsstring :=
  match first_capture rolePatterns (subject ++ lit " " ++ body) with
  | Some g => trim g
  | None => lit "Unknown Position"
  end.

(** Lines 144-174: the application status. *)
Definition status_of (subject body : jsstring) : jsstring :=
  let combinedText := toLowerCase lower_other (subject ++ lit " " ++ body) in
  first_status statusPatterns combinedText (lit "Applied").

Definition extractEmailInfo (details : Message) : result EmailInfo :=
  let headers := headers_of details in
  let subject := or_default (header_value headers "Subject") [] in
  let from := or_default (header_value headers "From") [] in
  let date := header_value headers "Date" in
  let body := getEmailBody decode (payload details) in
  match analyzeEmailWithAI generateContent JSON_parse subject body from with
  | Some aiResult =>
      bind (date_field Date_parse date) (fun d =>
      Ok (mkEmailInfo (msg_id details)
            (ai_companyName aiResult) (ai_jobProfile aiResult)
            (ai_applicationStatus aiResult)
            d subject (display_from from)))
  | None =>
      let companyName := company_of subject body from in
      let jobProfile := role_of subject body in
      let applicationStatus := status_of subject body in
      bind (date_field Date_parse date) (fun d =>
      Ok (mkEmailInfo (msg_id details) companyName jobProfile
            applicationStatus d subject (display_from from)))
  end.
End ExtractEmailInfo.

End Heuristic.

(* ================================================================== *)
(** ** HTTP responses, session and mail provider *)

Module Http.
Import JS Common.

(** The JSON bodies the routes send: an array of records or an object
    with string fields. *)
Inductive body (R : Type) : Type :=
| Records : list R -> body R
| Object : list (string * jsstring) -> body R.
Arguments Records {R} _.
Arguments Object {R} _.

Record Response (R : Type) : Type := mkResponse {
  status : nat;
  json : body R
}.

(** [NextResponse.json(b)] and [NextResponse.json(b, { status })] *)
Definition respond {R} (b : body R) : Response R := mkResponse 200 b.
Definition respond_with {R} (b : body R) (st : nat) : Response R :=
  mkResponse st b.

(** The keys of the JSON body when it is an object. *)
Definition shape {R} (r : Response R) : option (list string) :=
  match json r with
  | Records _ => None
  | Object fields => Some (map fst fields)
  end.

(** The session of next-auth, with the token the callbacks add to it. *)
Record Session : Type := mkSession { accessToken : option jsstring }.

(** [session?.accessToken] when it is truthy. *)
Definition access_token (session : option Session) : option jsstring :=
  match session with
  | Some s =>
      match accessToken s with
      | Some t => if truthy t then Some t else None
      | None => None
      end
  | None => None
  end.

(** [await Promise.all(l)]: the results in order, or a rejection.  When
    several promises reject, the one that rejects first in time wins; the
    model takes the first in the list. *)
Fixpoint Promise_all {A} (l : list (result A)) : result (list A) :=
  match l with
  | [] => Ok []
  | p :: l' =>
      match p with
      | Throw e => Throw e
      | Ok a => bind (Promise_all l') (fun r => Ok (a :: r))
      end
  end.

(** The query both routes start from. *)
Definition job_query : jsstring :=
  lit "subject:(job OR application OR applied OR position OR opportunity OR software)".

End Http.

(* ================================================================== *)
(** ** [route.ts]: the full-sync route *)

Module Route.
Import JS Regex DateTime Common Http.

(** [interface EmailInfo extends AIAnalysisResult] *)
Record EmailInfo : Type := mkEmailInfo {
  id : jsstring;
  companyName : jsstring;
  jobProfile : jsstring;
  applicationStatus : jsstring;
  date : option jsstring;
  originalSubject : jsstring;
  from : jsstring
}.

Section Handlers.
Variable decode : jsstring -> jsstring.
Variable Date_parse : jsstring -> option Z.
Variable generateContent : jsstring -> jsstring -> jsstring -> result jsstring.
Variable JSON_parse : jsstring -> result AIAnalysisResult.
Variable session : option Session.
(** [gmail.users.messages.list] and [gmail.users.messages.get] of the
    client built on the access token. *)
Variable messages_list :
  jsstring -> jsstring -> nat -> result (option (list Message)).
Variable messages_get : jsstring -> option jsstring -> result Message.

Definition extractEmailInfo (details : Message) : result EmailInfo :=
  let headers := headers_of details in
  let subject := or_default (header_value headers "Subject") [] in
  let from := or_default (header_value headers "From") [] in
  let date := match header_value headers "Date" with
              | Some d => d
              | None => []
              end in
  let body := getEmailBody decode (payload details) in
  match analyzeEmailWithAI generateContent JSON_parse subject body from with
  | Some aiResult =>
      bind (date_field Date_parse (Some date)) (fun d =>
      Ok (mkEmailInfo (or_default (msg_id details) [])
            (ai_companyName aiResult) (ai_jobProfile aiResult)
            (ai_applicationStatus aiResult)
            d subject (display_from from)))
  | None =>
      let companyName := lit "Unknown Company" in
      let jobProfile := lit "Unknown Position" in
      let applicationStatus := lit "Applied" in
      bind (date_field Date_parse (Some date)) (fun d =>
      Ok (mkEmailInfo (or_default (msg_id details) [])
            companyName jobProfile applicationStatus
            d subject (display_from from)))
  end.

(** The body of the [try] of a handler: list with query [q] and cap
    [maxResults], then get and classify every message. *)
Definition try_block (token q : jsstring) (maxResults : nat)
  : result (Response EmailInfo) :=
  bind (messages_list token q maxResults) (fun data =>
  let messages := match data with Some l => l | None => [] end in
  match messages with
  | [] => Ok (respond (Records []))
  | _ :: _ =>
      bind (Promise_all
              (map (fun message =>
                      bind (messages_get token (msg_id message))
                           extractEmailInfo)
                   messages))
           (fun messageDetails => Ok (respond (Records messageDetails)))
  end).

Definition GET : Response EmailInfo :=
  match access_token session with
  | None => respond_with (Object [("error", lit "Not authenticated")]) 401
  | Some token =>
      match try_block token job_query 100 with
      | Ok response => response
      | Throw error =>
          respond_with
            (Object [("error", lit "Failed to fetch emails");
                     ("details", error_toString error)]) 500
      end
  end.
End Handlers.

End Route.

(* ================================================================== *)
(** ** [new/route.ts]: the incremental route *)

Module NewRoute.
Import JS Regex DateTime Common Http.

(** The module imports [google], [getServerSession], [NextResponse] and
    [authOptions] and declares [POST] only: the identifier
    [extractEmailInfo] that [POST] calls has no binding in it, so the call
    raises a ReferenceError. *)
Definition extractEmailInfo (details : Message) : result Route.EmailInfo :=
  Throw (ReferenceError (lit "extractEmailInfo is not defined")).

Section Handlers.
Variable session : option Session.
Variable messages_list :
  jsstring -> jsstring -> nat -> result (option (list Message)).
Variable messages_get : jsstring -> option jsstring -> result Message.

(** [new Date(lastFetchTime).toISOString()] for the number of the
    request, [None] when the body has no such number. *)
Definition afterDate_of (lastFetchTime : option Z) : result jsstring :=
  match match lastFetchTime with Some t => TimeClip t | None => None end with
  | Some t => Ok (toISOString t)
  | None => Throw (RangeError (lit "Invalid time value"))
  end.

(** The body of the [try] of [POST]. *)
Definition try_block (token q : jsstring) (maxResults : nat)
  : result (Response Route.EmailInfo) :=
  bind (messages_list token q maxResults) (fun data =>
  let messages := match data with Some l => l | None => [] end in
  match messages with
  | [] => Ok (respond (Records []))
  | _ :: _ =>
      bind (Promise_all
              (map (fun message =>
                      bind (messages_get token (msg_id message))
                           extractEmailInfo)
                   messages))
           (fun messageDetails => Ok (respond (Records messageDetails)))
  end).

(** The query of the incremental pass. *)
Definition new_query (afterDate : jsstring) : jsstring :=
  job_query ++ lit " after:" ++ afterDate.

(** [POST]: [request_json] is the outcome of [await request.json()]
    read at [lastFetchTime].  A [Throw] of the handler is an exception
    that leaves [POST], outside its [try]. *)
Definition POST (request_json : result (option Z))
  : result (Response Route.EmailInfo) :=
  match access_token session with
  | None =>
      Ok (respond_with (Object [("error", lit "Not authenticated")]) 401)
  | Some token =>
      bind request_json (fun lastFetchTime =>
      bind (afterDate_of lastFetchTime) (fun afterDate =>
      match try_block token (new_query afterDate) 1000 with
      | Ok response => Ok response
      | Throw _ =>
          Ok (respond_with
                (Object [("error", lit "Failed to fetch new emails")]) 500)
      end))
  end.
End Handlers.

End NewRoute.

(* ================================================================== *)
(** ** [part_000]: the dashboard component *)

Module Dashboard.
Import JS Common Http.

(** [interface JobEmail]; [date] is [null] when the route found none. *)
Record JobEmail : Type := mkJobEmail {
  id : jsstring;
  companyName : jsstring;
  jobProfile : jsstring;
  applicationStatus : jsstring;
  date : option jsstring;
  from : jsstring
}.

(** *** [Map]: a map that remembers the order in which keys were first
    inserted; setting a key that is present replaces its value in place. *)
Fixpoint Map_set {V} (k : jsstring) (v : V) (m : list (jsstring * V))
  : list (jsstring * V) :=
  match m with
  | [] => [(k, v)]
  | (k', v') :: m' =>
      if eqb k' k then (k', v) :: m' else (k', v') :: Map_set k v m'
  end.

Fixpoint Map_get {V} (k : jsstring) (m : list (jsstring * V)) : option V :=
  match m with
  | [] => None
  | (k', v') :: m' => if eqb k' k then Some v' else Map_get k m'
  end.

(** Setting the entries one after the other, from a map [m]. *)
Definition fill {V} (m : list (jsstring * V)) (entries : list (jsstring * V))
  : list (jsstring * V) :=
  fold_left (fun m e => Map_set (fst e) (snd e) m) entries m.

(** [new Map(entries)] *)
Definition Map_of {V} (entries : list (jsstring * V)) : list (jsstring * V) :=
  fill [] entries.

(** [m.keys()] *)
Definition keys {V} (m : list (jsstring * V)) : list jsstring := map fst m.

(** [Array.from(m.values())] *)
Definition Map_values {V} (m : list (jsstring * V)) : list V := map snd m.

(** [combined.map(item => [item.id, item])] *)
Definition entries_of (l : list JobEmail) : list (jsstring * JobEmail) :=
  map (fun item => (id item, item)) l.

(** The updater that [updateEmailsWithNewData] passes to [setJobEmails]. *)
Definition merge (newEmails prev : list JobEmail) : list JobEmail :=
  let combined := newEmails ++ prev in
  Map_values (Map_of (entries_of combined)).

(** *** The state of the component and the calls that change it *)

Record State : Type := mkState {
  jobEmails : list JobEmail;
  loading : bool;
  lastFetchTime : Z;
  error : option jsstring
}.

(** The effects of the two passes, in the order the code performs them.
    [ShowNotification count] is the call [showNotification(count)]; the
    function opens a desktop notification only when
    [Notification.permission] is ["granted"], and the state of the
    component does not depend on it. *)
Inductive action : Type :=
| SetJobEmails (update : list JobEmail -> list JobEmail)
| SetLastFetchTime (t : Z)
| SetLoading (b : bool)
| SetError (e : option jsstring)
| ShowNotification (count : nat)
| ConsoleError (e : Common.error).

Definition apply (st : State) (a : action) : State :=
  match a with
  | SetJobEmails update =>
      mkState (update (jobEmails st)) (loading st) (lastFetchTime st) (error st)
  | SetLastFetchTime t => mkState (jobEmails st) (loading st) t (error st)
  | SetLoading b => mkState (jobEmails st) b (lastFetchTime st) (error st)
  | SetError e => mkState (jobEmails st) (loading st) (lastFetchTime st) e
  | ShowNotification _ => st
  | ConsoleError _ => st
  end.

Definition run (st : State) (trace : list action) : State :=
  fold_left apply trace st.

(** How many times a trace sets the watermark. *)
Definition watermark_writes (trace : list action) : nat :=
  List.length (filter (fun a => match a with
                                | SetLastFetchTime _ => true
                                | _ => false
                                end) trace).

(** What [fetch] resolves to: [ok] is [response.ok], [data] the outcome of
    [response.json()]. *)
Inductive json_data : Type :=
| Emails (l : list JobEmail)
| Fields (fields : list (string * jsstring)).

Record HttpResponse : Type := mkHttp {
  ok : bool;
  data : result json_data
}.

(** [error instanceof Error ? error.message : fallback]: the exceptions of
    the engine and [new Error] are instances of [Error], the reason of a
    rejected call is taken not to be. *)
Definition message_of (e : Common.error) (fallback : jsstring) : jsstring :=
  match e with
  | RangeError m | ReferenceError m | SyntaxError m | Error_ m => m
  | Rejection _ => fallback
  end.

(** [data.error] *)
Definition error_field (p : json_data) : option jsstring :=
  match p with
  | Emails _ => None
  | Fields fields =>
      match find (fun f => String.eqb (fst f) "error") fields with
      | Some f => Some (snd f)
      | None => None
      end
  end.

(** The records of a body; a body that is no array has none. *)
Definition emails_of (p : json_data) : list JobEmail :=
  match p with
  | Emails l => l
  | Fields _ => []
  end.

(** [updateEmailsWithNewData] *)
Definition updateEmailsWithNewData (newEmails : list JobEmail) (now : Z)
  : list action :=
  [SetJobEmails (merge newEmails); SetLastFetchTime now].

(** The [catch] blocks. *)
Definition catch (e : Common.error) (fallback : jsstring) : list action :=
  [ConsoleError e; SetError (Some (message_of e fallback))].

(** [checkNewEmails]: one incremental pass.  [fetched] is what
    [fetch('/api/gmail/new', ...)] settles to and [now] what [Date.now()]
    returns when the merge is reached; [session] and [loading st] are the
    values that the closure of the pass holds. *)
Definition checkNewEmails (session : bool) (st : State)
           (fetched : result HttpResponse) (now : Z) : list action :=
  if negb session || loading st then []
  else
    let attempt :=
      bind fetched (fun response =>
      if negb (ok response)
      then Throw (Error_ (lit "Failed to fetch new emails"))
      else
        bind (data response) (fun body =>
        let newEmails := emails_of body in
        if (0 <? List.length newEmails)%nat
        then Ok (updateEmailsWithNewData newEmails now
                   ++ [ShowNotification (List.length newEmails)])
        else Ok [])) in
    match attempt with
    | Ok trace => trace
    | Throw e => catch e (lit "Failed to check new emails")
    end.

(** [fetchEmails]: one full pass. *)
Definition fetchEmails (session : bool) (st : State)
           (fetched : result HttpResponse) (now : Z) : list action :=
  if negb session then []
  else
    let attempt :=
      bind fetched (fun response =>
      bind (data response) (fun body =>
      if negb (ok response)
      then Throw (Error_ (or_default (error_field body)
                            (lit "Failed to fetch emails")))
      else Ok [SetJobEmails (fun _ => emails_of body); SetLastFetchTime now])) in
    [SetLoading true; SetError None]
      ++ match attempt with
         | Ok trace => trace
         | Throw e => catch e (lit "Failed to fetch emails")
         end
      ++ [SetLoading false].

(** *** From the route to the component *)

Definition to_JobEmail (r : Route.EmailInfo) : JobEmail :=
  mkJobEmail (Route.id r) (Route.companyName r) (Route.jobProfile r)
             (Route.applicationStatus r) (Route.date r) (Route.from r).

(** What the component receives for a response of a route; when the
    handler itself throws, the framework answers 500 with a body that is
    not JSON. *)
Definition received (r : result (Response Route.EmailInfo)) : HttpResponse :=
  match r with
  | Ok response =>
      mkHttp ((200 <=? status response)%nat && (status response <=? 299)%nat)
             (Ok match json response with
                 | Records l => Emails (map to_JobEmail l)
                 | Object fields => Fields fields
                 end)
  | Throw _ =>
      mkHttp false (Throw (SyntaxError (lit "Unexpected token in JSON")))
  end.

End Dashboard.

(* ================================================================== *)
(** ** The statements of the specification, as functions *)

Module Spec.
Import JS Common Http Dashboard.

(** The record a list holds for an id: the first one with that id. *)
Definition lookup (x : jsstring) (l : list JobEmail) : option JobEmail :=
  find (fun r => eqb (id r) x) l.

(** The record with id [x] that is applied last when the records of [l]
    are applied from left to right. *)
Definition last_applied (x : jsstring) (l : list JobEmail) : option JobEmail :=
  lookup x (rev l).

(** A map whose every key is the id of its value. *)
Definition keyed (m : list (jsstring * JobEmail)) : Prop :=
  Forall (fun e => id (snd e) = fst e) m.

(** The number of distinct ids of a list of records. *)
Definition distinct_ids (l : list JobEmail) : nat :=
  List.length (nodup jsstring_dec (map id l)).

Section Body.
Variable decode : jsstring -> jsstring.

(** The text of a text/plain part: its decoded content, empty when it
    has none. *)
Definition part_text (p : MessagePart) : jsstring :=
  match data_of p with
  | Some d => decode d
  | None => []
  end.

(** The texts of the text/plain descendants of a part at any depth, in
    child order: the reading of body extraction as a recursion. *)
Fixpoint descendant_texts (p : MessagePart) : list jsstring :=
  match p with
  | Part _ _ _ ps =>
      match ps with
      | Some l =>
          flat_map (fun c => if is_text_plain c then [part_text c]
                             else descendant_texts c) l
      | None => []
      end
  end.

Definition extractBody_recursive (payload : option MessagePart) : jsstring :=
  match payload with
  | None => []
  | Some p =>
      match (if is_text_plain p then data_of p else None) with
      | Some d => decode d
      | None => join newline (descendant_texts p)
      end
  end.

(** The texts of the children of a part that are text/plain themselves. *)
Definition child_texts (p : MessagePart) : list jsstring :=
  match parts p with
  | Some l => map part_text (filter is_text_plain l)
  | None => []
  end.
End Body.

(** The subject, the sender and the body that [extractEmailInfo] reads
    from a message. *)
Definition subject_of (details : Message) : jsstring :=
  or_default (header_value (headers_of details) "Subject") [].
Definition from_of (details : Message) : jsstring :=
  or_default (header_value (headers_of details) "From") [].
Definition body_of (decode : jsstring -> jsstring) (details : Message)
  : jsstring :=
  getEmailBody decode (payload details).

(** The Date header of a message is present, not empty, and no date. *)
Definition unparsable_date (Date_parse : jsstring -> option Z)
           (details : Message) : Prop :=
  exists d, header_value (headers_of details) "Date" = Some d
            /\ truthy d = true
            /\ Date_of_string Date_parse d = None.

(** The provider list call of an incremental pass throws, or a call made
    for one of the messages it lists does. *)
Definition provider_throws
    (messages_list : jsstring -> jsstring -> nat -> result (option (list Message)))
    (messages_get : jsstring -> option jsstring -> result Message)
    (token q : jsstring) : Prop :=
  (exists e, messages_list token q 1000 = Throw e)
  \/ (exists msgs m e,
        messages_list token q 1000 = Ok (Some msgs) /\ In m msgs
        /\ bind (messages_get token (msg_id m)) NewRoute.extractEmailInfo
           = Throw e).

(** A successful response that carries the records [l]. *)
Definition success (l : list JobEmail) : result HttpResponse :=
  Ok (mkHttp true (Ok (Emails l))).

(** The patterns that [statusPatterns] lists under a status, and whether
    one of them matches a text. *)
Definition patterns_of (status : string) : list Regex.regex :=
  match find (fun entry => eqb (fst entry) (lit status))
             Heuristic.statusPatterns with
  | Some entry => snd entry
  | None => []
  end.

Definition hit (status : string) (text : jsstring) : bool :=
  existsb (fun pattern => Regex.test pattern text) (patterns_of status).

(** The company name that the domain fallback derives from the first
    label of a domain. *)
Definition company_of_label
    (upper_other : jsstring -> char -> jsstring -> jsstring)
    (label : jsstring) : jsstring :=
  trim (join (lit " ")
          (map (Heuristic.capitalize upper_other)
             (split (fun c => Regex.chr "." c || Regex.chr "-" c)
                (Regex.remove_first Heuristic.domain_noise label)))).

(** The same derivation in the words of the specification, written
    without the patterns and the helpers of the route. *)

(** The five words of which the first occurrence is removed. *)
Definition noise_words : list string :=
  ["careers"; "jobs"; "hr"; "recruiting"; "talent"].

(** The same letter, in upper or in lower case. *)
Definition same_letter (a b : char) : bool :=
  N.eqb (lower_ascii a) (lower_ascii b).

(** What follows the word [w] at the start of [s], letters compared
    without regard to case; [None] when [s] does not start with [w]. *)
Fixpoint after_word (w : list ascii) (s : jsstring) : option jsstring :=
  match w with
  | [] => Some s
  | a :: w' =>
      match s with
      | c :: s' => if same_letter c (N_of_ascii a) then after_word w' s'
                   else None
      | [] => None
      end
  end.

(** What follows the first of the words [ws] that [s] starts with. *)
Fixpoint after_any (ws : list string) (s : jsstring) : option jsstring :=
  match ws with
  | [] => None
  | w :: ws' =>
      match after_word (list_ascii_of_string w) s with
      | Some rest => Some rest
      | None => after_any ws' s
      end
  end.

(** [s] without the leftmost occurrence of one of the words [ws]. *)
Fixpoint without_first (ws : list string) (s : jsstring) : jsstring :=
  match after_any ws s with
  | Some rest => rest
  | None =>
      match s with
      | c :: s' => c :: without_first ws s'
      | [] => []
      end
  end.

(** A piece with its first unit in upper case and the rest as it is. *)
Definition capitalize_first
    (upper_other : jsstring -> char -> jsstring -> jsstring)
    (w : jsstring) : jsstring :=
  match w with
  | [] => []
  | c :: rest =>
      (if is_ascii c then [upper_ascii c] else upper_other [] c []) ++ rest
  end.

(** Remove the first noise word, split on [.] (46) and [-] (45),
    capitalize every piece, join with spaces (32), trim. *)
Definition company_from_label
    (upper_other : jsstring -> char -> jsstring -> jsstring)
    (label : jsstring) : jsstring :=
  trim (join [32%N]
          (map (capitalize_first upper_other)
             (split (fun c => (c =? 46)%N || (c =? 45)%N)
                (without_first noise_words label)))).

(** A part without its children, and a part with the parts below its
    children removed. *)
Definition strip (c : MessagePart) : MessagePart :=
  match c with Part m h d _ => Part m h d None end.

Definition without_grandchildren (p : MessagePart) : MessagePart :=
  match p with
  | Part m h d ps => Part m h d (option_map (map strip) ps)
  end.

End Spec.

(* ================================================================== *)
(** ** A concrete environment for the examples *)

Module Sample.
Import JS Common Http.

(** The value of a base64 or base64url digit. *)
Definition sextet (c : char) : option N :=
  if is_upper_ascii c then Some (c - 65)%N
  else if is_lower_ascii c then Some (c - 71)%N
  else if is_digit c then Some (c + 4)%N
  else if N.eqb c 43 || N.eqb c 45 then Some 62%N
  else if N.eqb c 47 || N.eqb c 95 then Some 63%N
  else None.

Fixpoint sextets (s : jsstring) : list N :=
  match s with
  | [] => []
  | c :: s' => match sextet c with
               | Some v => v :: sextets s'
               | None => []
               end
  end.

Fixpoint octets (fuel : nat) (l : list N) : list N :=
  match fuel with
  | O => []
  | S fuel' =>
      match l with
      | a :: b :: c :: d :: l' =>
          [a * 4 + b / 16; (b mod 16) * 16 + c / 4; (c mod 4) * 64 + d]%N
            ++ octets fuel' l'
      | [a; b; c] => [a * 4 + b / 16; (b mod 16) * 16 + c / 4]%N
      | [a; b] => [a * 4 + b / 16]%N
      | _ => []
      end
  end.

(** A base64 decoder for payloads whose text is ASCII; an octet outside
    ASCII is shown as U+FFFD. *)
Definition decode (data : jsstring) : jsstring :=
  map (fun b => if is_ascii b then b else 65533%N)
      (octets (List.length data) (sextets data)).

(** A date parser that knows one spelling of the epoch and nothing else. *)
Definition Date_parse (s : jsstring) : option Z :=
  if eqb s (lit "Thu, 01 Jan 1970 00:00:00 GMT") then Some 0%Z else None.

(** A model service that is down, and one that answers with an object. *)
Definition generateContent_down (subject from body : jsstring)
  : result jsstring :=
  Throw (Rejection (lit "503 Service Unavailable")).

Definition JSON_parse (s : jsstring) : result AIAnalysisResult :=
  Throw (SyntaxError (lit "Unexpected end of JSON input")).

(** Case maps that leave the units outside ASCII as they are. *)
Definition case_other (before : jsstring) (c : char) (after : jsstring)
  : jsstring := [c].

Definition session : option Session :=
  Some (mkSession (Some (lit "ya29.token"))).

(** A provider whose list call is rejected. *)
Definition list_rejected (token q : jsstring) (maxResults : nat)
  : result (option (list Message)) :=
  Throw (Rejection (lit "Quota exceeded")).

(** A provider that lists one message, or none. *)
Definition list_one (token q : jsstring) (maxResults : nat)
  : result (option (list Message)) :=
  Ok (Some [mkMessage (Some (lit "m1")) None]).

Definition list_none (token q : jsstring) (maxResults : nat)
  : result (option (list Message)) :=
  Ok None.

Definition text_header (n v : string) : Header :=
  mkHeader (Some (lit n)) (Some (lit v)).

Definition message (hs : list Header) : Message :=
  mkMessage (Some (lit "m1"))
            (Some (Part (Some (lit "text/plain")) (Some hs) None None)).

Definition get_message (m : Message) (token : jsstring)
           (id : option jsstring) : result Message := Ok m.

(** A message with a text/plain body. *)
Definition message_with_body (hs : list Header) (data : string) : Message :=
  mkMessage (Some (lit "m2"))
            (Some (Part (Some (lit "text/plain")) (Some hs)
                        (Some (lit data)) None)).

(** The rejection of the status example: the body is "Unfortunately,
    thank you for your interest in the role". *)
Definition rejection : Message :=
  message_with_body
    [text_header "Subject" "Application update";
     text_header "From" "Acme <jobs@acme.com>"]
    "VW5mb3J0dW5hdGVseSwgdGhhbmsgeW91IGZvciB5b3VyIGludGVyZXN0IGluIHRoZSByb2xl".

(** A message whose Date header is no date. *)
Definition undated : Message :=
  message [text_header "Subject" "Your application";
           text_header "From" "Acme <jobs@acme.com>";
           text_header "Date" "not a date"].

(** The message of the company-domain example, and two variants of it. *)
Definition acme_bare : Message :=
  message [text_header "Subject" "Your application";
           text_header "From" "jobs@Acme-Careers.com"].

Definition acme_bracketed : Message :=
  message [text_header "Subject" "Your application!";
           text_header "From" "<jobs@Acme-Careers.com>"].

(** multipart/mixed [ multipart/alternative [ text/plain, text/html ] ]:
    a message with an attachment, as mail clients build it. *)
Definition nested : MessagePart :=
  Part (Some (lit "multipart/mixed")) None None
    (Some [Part (Some (lit "multipart/alternative")) None None
             (Some [Part (Some (lit "text/plain")) None
                         (Some (lit "SGVsbG8")) None;
                    Part (Some (lit "text/html")) None
                         (Some (lit "PGI-SGk8L2I-")) None])]).

(** multipart/alternative [ text/plain, text/html ] *)
Definition alternative : MessagePart :=
  Part (Some (lit "multipart/alternative")) None None
    (Some [Part (Some (lit "text/plain")) None (Some (lit "SGVsbG8")) None;
           Part (Some (lit "text/html")) None
                (Some (lit "PGI-SGk8L2I-")) None]).

Definition record (i status : string) : Dashboard.JobEmail :=
  Dashboard.mkJobEmail (lit i) (lit "Acme") (lit "Engineer") (lit status)
                       None (lit "Acme").

Definition state (emails : list Dashboard.JobEmail) (watermark : Z)
  : Dashboard.State :=
  Dashboard.mkState emails false watermark None.

End Sample.

(* ================================================================== *)
(** ** [part_002]: the callbacks of next-auth *)

Module Auth.
Import JS Http.

(** The account next-auth hands to [jwt] at sign-in. *)
Record Account : Type := mkAccount { access_token : option jsstring }.

(** The token of next-auth: the claims it carries, and the access token
    the callback adds. *)
Record JWT (C : Type) : Type := mkJWT {
  claims : C;
  accessToken : option jsstring
}.

(** [callbacks.jwt]: [account] is present at sign-in only. *)
Definition jwt {C} (token : JWT C) (account : option Account) : JWT C :=
  match account with
  | Some a => mkJWT (claims token) (access_token a)
  | None => token
  end.

(** [callbacks.session] *)
Definition session {C} (s : Session) (token : JWT C) : Session :=
  mkSession (accessToken token).

(** [jwt] called again [n] times without an account, as it is on every
    later request. *)
Fixpoint refreshed {C} (n : nat) (token : JWT C) : JWT C :=
  match n with
  | O => token
  | S n' => refreshed n' (jwt token None)
  end.

End Auth.

(* ================================================================== *)
(** ** [utils/gmail.ts] *)

Module GmailUtil.
Import JS Common Http.

(** [subject:"job application" OR subject:"application confirmation"] *)
Definition query : jsstring :=
  lit "subject:" ++ [34%N] ++ lit "job application" ++ [34%N]
    ++ lit " OR subject:" ++ [34%N] ++ lit "application confirmation"
    ++ [34%N].

Section GetGmailMessages.
Variable messages_list :
  jsstring -> jsstring -> nat -> result (option (list Message)).
(** [gmail.users.messages.get] called without a format. *)
Variable messages_get : jsstring -> option jsstring -> result Message.

(** [getGmailMessages]: the [catch] logs the error and throws it again. *)
Definition getGmailMessages (accessToken : jsstring) : result (list Message) :=
  bind (messages_list accessToken query 1000) (fun data =>
  let messages := match data with Some l => l | None => [] end in
  Promise_all (map (fun message => messages_get accessToken (msg_id message))
                   messages)).
End GetGmailMessages.

End GmailUtil.

(* ================================================================== *)
(** ** [part_000]: what the dashboard derives from the records *)

Module View.
Import JS Common Dashboard.

(** A value of the object built by [statusCounts]: a number, or the
    string that [+ 1] makes of a value that is no number. *)
Inductive cell : Type :=
| Count (n : nat)
| Text.

(** The properties every object inherits from [Object.prototype]. *)
Definition Object_prototype_names : list string :=
  ["constructor"; "__defineGetter__"; "__defineSetter__"; "hasOwnProperty";
   "__lookupGetter__"; "__lookupSetter__"; "isPrototypeOf";
   "propertyIsEnumerable"; "toString"; "valueOf"; "__proto__";
   "toLocaleString"].

Definition inherited (k : jsstring) : bool :=
  existsb (fun n => eqb k (lit n)) Object_prototype_names.

(** [acc[k] = (acc[k] || 0) + 1] on the own properties [acc] of the
    object.  An own number [n] becomes [n + 1]; a key the object does not
    own reads as [undefined] and becomes 1, unless the prototype answers
    for it, in which case the value read is an object or a function and
    the sum is a string; an assignment to [__proto__] of a value that is
    no object is ignored. *)
Definition count_step (acc : list (jsstring * cell)) (email : JobEmail)
  : list (jsstring * cell) :=
  let k := applicationStatus email in
  let next :=
    match Map_get k acc with
    | Some (Count n) => Count (S n)
    | Some Text => Text
    | None => if inherited k then Text else Count 1
    end in
  if eqb k (lit "__proto__") then acc else Map_set k next acc.

(** [statusCounts]: the own properties of the object that [reduce]
    returns, in the order they were created. *)
Definition statusCounts (jobEmails : list JobEmail)
  : list (jsstring * cell) :=
  fold_left count_step jobEmails [].

End View.

(* ================================================================== *)
(** ** Further notions used in the statements *)

Module Notions.
Import JS Regex Common Http Dashboard View.

(** The elements of [l] that are not in [seen], each at its first
    occurrence. *)
Fixpoint first_occurrences (seen l : list jsstring) : list jsstring :=
  match l with
  | [] => []
  | x :: l' =>
      if existsb (eqb x) seen then first_occurrences seen l'
      else x :: first_occurrences (x :: seen) l'
  end.

(** The number of records with a status. *)
Definition with_status (s : jsstring) (l : list JobEmail) : nat :=
  List.length (filter (fun e => eqb (applicationStatus e) s) l).

(** The sum of the numbers of a table of counts. *)
Fixpoint total (table : list (jsstring * cell)) : nat :=
  match table with
  | [] => 0
  | (_, Count n) :: t => n + total t
  | (_, Text) :: t => total t
  end.

(** A pattern without capture groups. *)
Fixpoint groupless (r : regex) : bool :=
  match r with
  | Cat r1 r2 | Or r1 r2 => groupless r1 && groupless r2
  | Group _ _ => false
  | Empty | Set_ _ | Star _ _ | Bol | Eol => true
  end.

(** A text made of white space only. *)
Definition blank (s : jsstring) : bool := forallb is_space s.

(** A text made of the units that a company name may hold: letters,
    digits, white space, [&] and [.]. *)
Definition named (s : jsstring) : bool := forallb Heuristic.name_class s.

(** The statuses of the enumeration. *)
Definition statuses : list jsstring :=
  [lit "Applied"; lit "Application Received"; lit "Interview";
   lit "Rejected"; lit "Offer"].

(** A response that carries no record. *)
Definition no_record {R} (r : Response R) : Prop :=
  json r = Records [] \/ exists fields, json r = Object fields.

(** The text between the first and the last unit of a match of
    [/<[^>]+>/] or [/\{[\s\S]*\}/]. *)
Definition enclosed (open close : char) (inner : jsstring) : jsstring :=
  [open] ++ inner ++ [close].

(** A call made for a listed message fails: the get, or the
    classification of what it returns. *)
Definition fails {A B} (get : A -> result B) (classify : B -> result Route.EmailInfo)
           (a : A) : Prop :=
  exists e, bind (get a) classify = Throw e.

End Notions.

(* ================================================================== *)
(** * Properties *)

(** ** The merge of [updateEmailsWithNewData] *)

Module MergeProps.
Import JS Common Dashboard Spec.

Lemma eqb_true_iff (a b : jsstring) : eqb a b = true <-> a = b.
Proof.
  unfold eqb. destruct (jsstring_dec a b); split; congruence.
Qed.

Lemma eqb_refl (a : jsstring) : eqb a a = true.
Proof. now apply eqb_true_iff. Qed.

Lemma eqb_false_iff (a b : jsstring) : eqb a b = false <-> a <> b.
Proof.
  unfold eqb. destruct (jsstring_dec a b); split; congruence.
Qed.

Section MapFacts.
Variable V : Type.
Implicit Types (m : list (jsstring * V)) (k : jsstring) (v : V).

Lemma Map_get_set_same k v m : Map_get k (Map_set k v m) = Some v.
Proof.
  induction m as [|[k' v'] m IH]; simpl.
  - now rewrite eqb_refl.
  - destruct (eqb k' k) eqn:E; simpl; rewrite E; auto.
Qed.

Lemma Map_get_set_other k k' v m :
  k' <> k -> Map_get k' (Map_set k v m) = Map_get k' m.
Proof.
  intros Hne. induction m as [|[k0 v0] m IH]; simpl.
  - assert (eqb k k' = false) as -> by (apply eqb_false_iff; congruence).
    reflexivity.
  - destruct (eqb k0 k) eqn:E; simpl.
    + apply eqb_true_iff in E. subst k0.
      assert (eqb k k' = false) as -> by (apply eqb_false_iff; congruence).
      reflexivity.
    + destruct (eqb k0 k'); auto.
Qed.

Lemma keys_set_present k v m :
  In k (keys m) -> keys (Map_set k v m) = keys m.
Proof.
  induction m as [|[k' v'] m IH]; simpl; [tauto|].
  intros [->|Hin].
  - now rewrite eqb_refl.
  - destruct (eqb k' k); simpl; [reflexivity|]. f_equal. now apply IH.
Qed.

Lemma keys_set_absent k v m :
  ~ In k (keys m) -> keys (Map_set k v m) = keys m ++ [k].
Proof.
  induction m as [|[k' v'] m IH]; simpl; [reflexivity|].
  intros Hnot.
  assert (eqb k' k = false) as -> by (apply eqb_false_iff; tauto).
  simpl. f_equal. apply IH. tauto.
Qed.

Lemma keys_set_In k v m x :
  In x (keys (Map_set k v m)) <-> x = k \/ In x (keys m).
Proof.
  destruct (in_dec jsstring_dec k (keys m)) as [Hin|Hnot].
  - rewrite keys_set_present by assumption.
    split; [tauto|]. intros [->|H]; assumption.
  - rewrite keys_set_absent by assumption.
    rewrite in_app_iff. simpl. split; intros H; intuition congruence.
Qed.

Lemma keys_set_NoDup k v m : NoDup (keys m) -> NoDup (keys (Map_set k v m)).
Proof.
  intros Hnd.
  destruct (in_dec jsstring_dec k (keys m)) as [Hin|Hnot].
  - now rewrite keys_set_present.
  - rewrite keys_set_absent by assumption.
    apply NoDup_app; [assumption | repeat constructor; simpl; tauto |].
    intros x Hx [<-|[]]. contradiction.
Qed.

Lemma fill_NoDup entries : forall m,
  NoDup (keys m) -> NoDup (keys (fill m entries)).
Proof.
  induction entries as [|e es IH]; intros m Hnd; simpl; [assumption|].
  apply IH. now apply keys_set_NoDup.
Qed.

Lemma fill_In entries : forall m x,
  In x (keys (fill m entries)) <-> In x (keys m) \/ In x (map fst entries).
Proof.
  induction entries as [|e es IH]; intros m x; simpl; [tauto|].
  rewrite IH, keys_set_In. intuition congruence.
Qed.

Lemma Map_get_app k m1 m2 :
  Map_get k (m1 ++ m2) =
  match Map_get k m1 with Some v => Some v | None => Map_get k m2 end.
Proof.
  induction m1 as [|[k' v'] m1 IH]; simpl; [reflexivity|].
  destruct (eqb k' k); auto.
Qed.

(** Filling a map: the entry applied last for a key decides its value. *)
Lemma fill_get entries : forall m k,
  Map_get k (fill m entries) =
  match Map_get k (rev entries) with
  | Some v => Some v
  | None => Map_get k m
  end.
Proof.
  induction entries as [|[k0 v0] es IH]; intros m k; simpl; [reflexivity|].
  rewrite IH, Map_get_app. destruct (Map_get k (rev es)); [reflexivity|].
  simpl. destruct (eqb k0 k) eqn:E.
  - apply eqb_true_iff in E. subst. apply Map_get_set_same.
  - apply Map_get_set_other. apply eqb_false_iff in E. congruence.
Qed.
End MapFacts.

Lemma keyed_set k v m : id v = k -> keyed m -> keyed (Map_set k v m).
Proof.
  intros Hk. induction 1 as [|[k' v'] m Hh Ht IH]; simpl.
  - repeat constructor. assumption.
  - destruct (eqb k' k) eqn:E; constructor; auto.
    simpl. apply eqb_true_iff in E. congruence.
Qed.

Lemma keyed_fill l : forall m, keyed m -> keyed (fill m (entries_of l)).
Proof.
  induction l as [|r l IH]; intros m Hm; simpl; [assumption|].
  apply IH. now apply keyed_set.
Qed.

Lemma keyed_ids m : keyed m -> map id (Map_values m) = keys m.
Proof.
  unfold Map_values, keys.
  induction 1 as [|[k v] m Hh Ht IH]; simpl; [reflexivity|].
  simpl in Hh. now rewrite Hh, IH.
Qed.

Lemma keyed_lookup m x : keyed m -> lookup x (Map_values m) = Map_get x m.
Proof.
  unfold Map_values, lookup.
  induction 1 as [|[k v] m Hh Ht IH]; simpl; [reflexivity|].
  simpl in Hh. rewrite Hh. destruct (eqb k x); auto.
Qed.

Lemma entries_lookup l x : Map_get x (entries_of l) = lookup x l.
Proof.
  induction l as [|r l IH]; simpl; [reflexivity|].
  destruct (eqb (id r) x); auto.
Qed.

Lemma merge_unfold newEmails prev :
  merge newEmails prev = Map_values (fill [] (entries_of (newEmails ++ prev))).
Proof. reflexivity. Qed.

(** The record the merge keeps for an id is the last one applied. *)
Lemma merge_lookup newEmails prev x :
  lookup x (merge newEmails prev) = last_applied x (newEmails ++ prev).
Proof.
  rewrite merge_unfold, keyed_lookup by (apply keyed_fill; constructor).
  rewrite fill_get. unfold last_applied, entries_of.
  rewrite <- map_rev. fold (entries_of (rev (newEmails ++ prev))).
  rewrite entries_lookup. simpl. now destruct (lookup x _).
Qed.

Lemma merge_ids_NoDup newEmails prev : NoDup (map id (merge newEmails prev)).
Proof.
  rewrite merge_unfold, keyed_ids by (apply keyed_fill; constructor).
  apply fill_NoDup. constructor.
Qed.

Lemma merge_ids_In newEmails prev x :
  In x (map id (merge newEmails prev)) <-> In x (map id (newEmails ++ prev)).
Proof.
  rewrite merge_unfold, keyed_ids by (apply keyed_fill; constructor).
  rewrite fill_In. unfold entries_of. rewrite map_map. simpl. tauto.
Qed.

Lemma merge_length newEmails prev :
  List.length (merge newEmails prev) = distinct_ids (newEmails ++ prev).
Proof.
  unfold distinct_ids.
  rewrite <- (length_map id (merge newEmails prev)).
  apply Nat.le_antisymm; apply NoDup_incl_length.
  - apply merge_ids_NoDup.
  - intros x Hx. apply nodup_In. now apply merge_ids_In.
  - apply NoDup_nodup.
  - intros x Hx. apply nodup_In in Hx. now apply merge_ids_In.
Qed.

Lemma lookup_app x l1 l2 :
  lookup x (l1 ++ l2) =
  match lookup x l1 with Some r => Some r | None => lookup x l2 end.
Proof.
  unfold lookup. induction l1 as [|r l1 IH]; simpl; [reflexivity|].
  destruct (eqb (id r) x); auto.
Qed.

Lemma lookup_None x l : ~ In x (map id l) -> lookup x l = None.
Proof.
  unfold lookup. induction l as [|r l IH]; simpl; [reflexivity|].
  intros Hnot. assert (eqb (id r) x = false) as ->
      by (apply eqb_false_iff; tauto).
  apply IH. tauto.
Qed.

Lemma lookup_Some_id x l r : lookup x l = Some r -> id r = x /\ In r l.
Proof.
  unfold lookup. intros H. apply find_some in H. destruct H as [Hin He].
  apply eqb_true_iff in He. auto.
Qed.

Lemma last_applied_app x l1 l2 :
  last_applied x (l1 ++ l2) =
  match last_applied x l2 with Some r => Some r | None => last_applied x l1 end.
Proof.
  unfold last_applied. now rewrite rev_app_distr, lookup_app.
Qed.

Lemma NoDup_map_eq {A B} (f : A -> B) (l : list A) a b :
  NoDup (map f l) -> In a l -> In b l -> f a = f b -> a = b.
Proof.
  induction l as [|c l IH]; simpl; [tauto|].
  intros Hnd Ha Hb Hf. inversion Hnd as [|? ? Hnot Hnd']; subst.
  destruct Ha as [->|Ha], Hb as [->|Hb]; auto.
  - exfalso. apply Hnot. rewrite Hf. now apply in_map.
  - exfalso. apply Hnot. rewrite <- Hf. now apply in_map.
Qed.

Lemma lookup_In_Some x l :
  In x (map id l) -> exists r, lookup x l = Some r.
Proof.
  unfold lookup. induction l as [|c l IH]; simpl; [tauto|].
  intros [<-|Hin].
  - rewrite eqb_refl. eauto.
  - destruct (eqb (id c) x); eauto.
Qed.

(** C1 (as the code has it).  When the stored set already holds a record
    for an id, the merge keeps that stored record, whatever the batch of
    newly classified records holds for the same id: the entries of the
    batch are applied first and the stored ones after them, so the stored
    record is the one applied last. *)
Theorem merge_keeps_stored_record :
  forall (newEmails prev : list JobEmail) (x : jsstring) (old : JobEmail),
    last_applied x prev = Some old ->
    lookup x (merge newEmails prev) = Some old.
Proof.
  intros newEmails prev x old Hold.
  now rewrite merge_lookup, last_applied_app, Hold.
Qed.

(** The override example of the specification: the record classified
    Interview is merged into a set that holds the same id as Applied, and
    the set still says Applied. *)
Lemma merge_keeps_stored_record_witness :
  lookup (lit "X")
         (merge [Sample.record "X" "Interview"] [Sample.record "X" "Applied"])
  = Some (Sample.record "X" "Applied").
Proof.
  apply (@merge_keeps_stored_record
           [Sample.record "X" "Interview"] [Sample.record "X" "Applied"]).
  vm_compute. reflexivity.
Defined.

(** C9 (as the code has it).  Dedup closure: in the merged set no id
    occurs twice, every id of the batch or of the stored set has exactly
    one record, and the size of the result is the number of distinct ids
    of the batch and the stored set.  Which record is kept depends on the
    stored set: for an id that the stored set does not hold it is the last
    record the batch has for that id; for an id that the stored set holds
    it is the stored record, and every record of the batch for that id is
    dropped, the last of its duplicates included, because the batch is
    applied first and the stored records after it. *)
Theorem batch_duplicates_lose_to_stored :
  forall (newEmails prev : list JobEmail),
    NoDup (map id (merge newEmails prev))
    /\ (forall x, In x (map id (newEmails ++ prev)) ->
          exists r, lookup x (merge newEmails prev) = Some r
                    /\ forall r', In r' (merge newEmails prev) ->
                                  id r' = x -> r' = r)
    /\ List.length (merge newEmails prev) = distinct_ids (newEmails ++ prev)
    /\ (forall x, ~ In x (map id prev) ->
          lookup x (merge newEmails prev) = last_applied x newEmails)
    /\ (forall x old latest,
          last_applied x prev = Some old ->
          last_applied x newEmails = Some latest ->
          latest <> old ->
          lookup x (merge newEmails prev) = Some old
          /\ lookup x (merge newEmails prev) <> Some latest
          /\ ~ In latest (merge newEmails prev)).
Proof.
  intros newEmails prev. split; [|split; [|split; [|split]]].
  - apply merge_ids_NoDup.
  - intros x Hx. apply merge_ids_In in Hx.
    destruct (lookup_In_Some _ _ Hx) as [r Hr]. exists r. split; [assumption|].
    intros r' Hin Hid. destruct (lookup_Some_id _ _ Hr) as [Hidr Hinr].
    apply (NoDup_map_eq id (merge newEmails prev)); auto.
    + apply merge_ids_NoDup.
    + congruence.
  - apply merge_length.
  - intros x Hnot. rewrite merge_lookup, last_applied_app.
    unfold last_applied at 1. rewrite lookup_None; [reflexivity|].
    rewrite map_rev, <- in_rev. assumption.
  - intros x old latest Hold Hlatest Hne.
    assert (lookup x (merge newEmails prev) = Some old) as Hkept
        by now rewrite merge_lookup, last_applied_app, Hold.
    split; [assumption|]. split; [congruence|].
    intros Hin.
    destruct (lookup_Some_id _ _ Hkept) as [Hido Hino].
    destruct (lookup_Some_id _ _ Hlatest) as [Hidl _].
    apply Hne.
    apply (NoDup_map_eq id (merge newEmails prev)); auto.
    + apply merge_ids_NoDup.
    + congruence.
Qed.

(** The batch holds Y twice, as Offer and then as Rejected, and the stored
    set holds Y as Applied: one record, and it still says Applied; the
    Rejected record, the last of the batch, is not in the result. *)
Lemma batch_duplicates_lose_to_stored_witness :
  lookup (lit "Y")
         (merge [Sample.record "Y" "Offer"; Sample.record "Y" "Rejected"]
                [Sample.record "Y" "Applied"])
  = Some (Sample.record "Y" "Applied")
  /\ ~ In (Sample.record "Y" "Rejected")
          (merge [Sample.record "Y" "Offer"; Sample.record "Y" "Rejected"]
                 [Sample.record "Y" "Applied"])
  /\ List.length
       (merge [Sample.record "Y" "Offer"; Sample.record "Y" "Rejected"]
              [Sample.record "Y" "Applied"]) = 1.
Proof.
  destruct (batch_duplicates_lose_to_stored
              [Sample.record "Y" "Offer"; Sample.record "Y" "Rejected"]
              [Sample.record "Y" "Applied"])
    as (_ & _ & Hlen & _ & Hstored).
  destruct (Hstored (lit "Y") (Sample.record "Y" "Applied")
                    (Sample.record "Y" "Rejected"))
    as (Hkept & _ & Hout).
  - vm_compute. reflexivity.
  - vm_compute. reflexivity.
  - vm_compute. discriminate.
  - split; [exact Hkept|]. split; [exact Hout|].
    rewrite Hlen. vm_compute. reflexivity.
Defined.

End MergeProps.

(* ================================================================== *)
(** ** The sync passes of the dashboard *)

Module SyncProps.
Import JS DateTime Common Http Dashboard Spec.

Lemma Promise_all_throws {A} (l : list (result A)) e :
  In (Throw e) l -> exists e', Promise_all l = Throw e'.
Proof.
  induction l as [|p l IH]; simpl; [tauto|].
  intros [->|Hin]; [eauto|].
  destruct p as [a|e0]; [|eauto].
  destruct (IH Hin) as [e' ->]. simpl. eauto.
Qed.

Lemma try_block_throws messages_list messages_get token q :
  provider_throws messages_list messages_get token q ->
  exists e, NewRoute.try_block messages_list messages_get token q 1000 = Throw e.
Proof.
  unfold NewRoute.try_block.
  intros [[e ->]|(msgs & m & e & -> & Hin & Hthrow)]; simpl; [eauto|].
  destruct msgs as [|m0 msgs]; [destruct Hin|].
  destruct (@Promise_all_throws Route.EmailInfo
              (map (fun message =>
                      bind (messages_get token (msg_id message))
                           NewRoute.extractEmailInfo) (m0 :: msgs)) e)
    as [e' ->]; [|simpl; eauto].
  rewrite <- Hthrow.
  apply (in_map (fun message =>
                   bind (messages_get token (msg_id message))
                        NewRoute.extractEmailInfo)).
  assumption.
Qed.

(** A pass whose response is not [ok] changes neither the records nor the
    watermark. *)
Lemma check_not_ok ui st response now :
  ok response = false ->
  let trace := checkNewEmails ui st (Ok response) now in
  lastFetchTime (run st trace) = lastFetchTime st
  /\ jobEmails (run st trace) = jobEmails st
  /\ watermark_writes trace = 0.
Proof.
  intros Hok. unfold checkNewEmails.
  destruct (negb ui || loading st); simpl; [auto|].
  rewrite Hok. simpl. auto.
Qed.

(** A pass whose [fetch] is rejected changes neither of them. *)
Lemma check_rejected ui st e now :
  let trace := checkNewEmails ui st (Throw e) now in
  lastFetchTime (run st trace) = lastFetchTime st
  /\ jobEmails (run st trace) = jobEmails st
  /\ watermark_writes trace = 0.
Proof.
  unfold checkNewEmails.
  destruct (negb ui || loading st); simpl; auto.
Qed.

(** C8.  Watermark atomicity: when the provider list call of an
    incremental pass throws, or a call made for one of the listed messages
    does, the route answers 500 and the pass of the dashboard leaves the
    watermark and the records as they were, and never writes the
    watermark. *)
Theorem incremental_failure_is_atomic :
  forall (ui : bool) (st : State) (now : Z) (session : option Session)
         (messages_list :
            jsstring -> jsstring -> nat -> result (option (list Message)))
         (messages_get : jsstring -> option jsstring -> result Message)
         (token : jsstring) (t : Z),
    access_token session = Some token ->
    TimeClip t = Some t ->
    provider_throws messages_list messages_get token
                    (NewRoute.new_query (toISOString t)) ->
    let response :=
      NewRoute.POST session messages_list messages_get (Ok (Some t)) in
    let trace := checkNewEmails ui st (Ok (received response)) now in
    response
    = Ok (respond_with
            (Object [("error", lit "Failed to fetch new emails")]) 500)
    /\ lastFetchTime (run st trace) = lastFetchTime st
    /\ jobEmails (run st trace) = jobEmails st
    /\ watermark_writes trace = 0.
Proof.
  intros ui st now session messages_list messages_get token t Htok Ht Hthrow.
  assert (NewRoute.POST session messages_list messages_get (Ok (Some t))
          = Ok (respond_with
                  (Object [("error", lit "Failed to fetch new emails")]) 500))
    as Hresp.
  { unfold NewRoute.POST. rewrite Htok. simpl.
    unfold NewRoute.afterDate_of. rewrite Ht. simpl.
    destruct (try_block_throws Hthrow) as [e ->]. reflexivity. }
  simpl. rewrite Hresp. split; [reflexivity|].
  apply check_not_ok. reflexivity.
Qed.

(** The list call is rejected for a dashboard that holds one record and
    the watermark 1000. *)
Lemma incremental_failure_is_atomic_witness :
  lastFetchTime
    (run (Sample.state [Sample.record "X" "Applied"] 1000)
         (checkNewEmails true (Sample.state [Sample.record "X" "Applied"] 1000)
            (Ok (received
                   (NewRoute.POST Sample.session Sample.list_rejected
                      (Sample.get_message Sample.undated) (Ok (Some 1000%Z)))))
            2000))
  = 1000%Z.
Proof.
  apply (@incremental_failure_is_atomic true
           (Sample.state [Sample.record "X" "Applied"] 1000) 2000
           Sample.session Sample.list_rejected
           (Sample.get_message Sample.undated) (lit "ya29.token") 1000%Z).
  - reflexivity.
  - reflexivity.
  - left. exists (Rejection (lit "Quota exceeded")). reflexivity.
Defined.

(** C7 (as amended).  The watermark is written exactly once, with the time
    of completion, by every successful full pass and by every successful
    incremental pass whose batch is not empty, whatever the dates of the
    records; a successful incremental pass whose batch is empty does not
    write it and leaves it as it was. *)
Theorem watermark_advances_with_records :
  forall (st : State) (now : Z),
    loading st = false ->
    (forall (body : json_data),
        let trace := fetchEmails true st (Ok (mkHttp true (Ok body))) now in
        watermark_writes trace = 1
        /\ lastFetchTime (run st trace) = now)
    /\ (forall (r : JobEmail) (l : list JobEmail),
          let trace := checkNewEmails true st (success (r :: l)) now in
          watermark_writes trace = 1
          /\ lastFetchTime (run st trace) = now)
    /\ (let trace := checkNewEmails true st (success []) now in
        watermark_writes trace = 0
        /\ lastFetchTime (run st trace) = lastFetchTime st).
Proof.
  intros st now Hload. repeat split.
  - unfold checkNewEmails. rewrite Hload. reflexivity.
  - unfold checkNewEmails. rewrite Hload. reflexivity.
  - unfold checkNewEmails. rewrite Hload. reflexivity.
  - unfold checkNewEmails. rewrite Hload. reflexivity.
Qed.

(** A pass that brings one record at time 2000 to a dashboard whose
    watermark is 1000. *)
Lemma watermark_advances_with_records_witness :
  lastFetchTime
    (run (Sample.state [] 1000)
         (checkNewEmails true (Sample.state [] 1000)
            (success [Sample.record "X" "Applied"]) 2000))
  = 2000%Z.
Proof.
  apply (@watermark_advances_with_records (Sample.state [] 1000) 2000).
  reflexivity.
Defined.

(** C7, refuted as stated: the provider lists no message, the route
    answers with the empty array, the pass succeeds at time 2000, and the
    watermark is still 1000, never written. *)
Lemma empty_pass_keeps_watermark :
  received (NewRoute.POST Sample.session Sample.list_none
              (Sample.get_message Sample.undated) (Ok (Some 1000%Z)))
  = mkHttp true (Ok (Emails []))
  /\ watermark_writes
       (checkNewEmails true (Sample.state [] 1000) (success []) 2000) = 0
  /\ lastFetchTime
       (run (Sample.state [] 1000)
            (checkNewEmails true (Sample.state [] 1000) (success []) 2000))
     = 1000%Z
  /\ 1000%Z <> 2000%Z.
Proof.
  repeat split. discriminate.
Qed.

End SyncProps.

(* ================================================================== *)
(** ** Body extraction *)

Module BodyProps.
Import JS Common Spec.

Section Body.
Variable decode : jsstring -> jsstring.

Lemma strip_text_plain c : is_text_plain (strip c) = is_text_plain c.
Proof. now destruct c. Qed.

Lemma strip_text c : part_text decode (strip c) = part_text decode c.
Proof. now destruct c. Qed.

Lemma child_texts_strip l :
  map (part_text decode) (filter is_text_plain (map strip l))
  = map (part_text decode) (filter is_text_plain l).
Proof.
  induction l as [|c l IH]; simpl; [reflexivity|].
  rewrite strip_text_plain. destruct (is_text_plain c); simpl.
  - now rewrite strip_text, IH.
  - apply IH.
Qed.

Lemma getEmailBody_children p :
  (if is_text_plain p then data_of p else None) = None ->
  getEmailBody decode (Some p) = join newline (child_texts decode p).
Proof.
  intros H. unfold getEmailBody, child_texts. rewrite H.
  destruct (parts p); reflexivity.
Qed.
End Body.

(** C4 (as amended).  Body extraction: an absent part gives the empty
    string; a part that is text/plain with inline content gives that
    content decoded; any other part gives the texts of its children that
    are themselves text/plain (decoded content, empty for a child without
    content), joined with newlines in child order, the empty string when
    it has no such child.  Parts below the children contribute nothing:
    removing them does not change the result. *)
Theorem getEmailBody_reads_children_only :
  forall (decode : jsstring -> jsstring),
    getEmailBody decode None = []
    /\ forall p : MessagePart,
        (forall d, is_text_plain p = true -> data_of p = Some d ->
                   getEmailBody decode (Some p) = decode d)
        /\ (is_text_plain p = false \/ data_of p = None ->
            getEmailBody decode (Some p) = join newline (child_texts decode p))
        /\ getEmailBody decode (Some (without_grandchildren p))
           = getEmailBody decode (Some p).
Proof.
  intros decode. split; [reflexivity|]. intros p. repeat split.
  - intros d Ht Hd. unfold getEmailBody. now rewrite Ht, Hd.
  - intros H. apply getEmailBody_children.
    destruct H as [->| ->]; [reflexivity | now destruct (is_text_plain p)].
  - destruct p as [m h d ps]. unfold getEmailBody. simpl.
    change (is_text_plain (Part m h d (option_map (map strip) ps)))
      with (is_text_plain (Part m h d ps)).
    change (data_of (Part m h d (option_map (map strip) ps)))
      with (data_of (Part m h d ps)).
    destruct (if is_text_plain (Part m h d ps) then data_of (Part m h d ps)
              else None); [reflexivity|].
    destruct ps as [l|]; simpl; [|reflexivity].
    f_equal. exact (child_texts_strip decode l).
Qed.

(** The multipart example of the specification: text/plain "Hello" next to
    a text/html part. *)
Lemma getEmailBody_reads_children_only_witness :
  getEmailBody Sample.decode (Some Sample.alternative) = lit "Hello".
Proof.
  destruct (getEmailBody_reads_children_only Sample.decode) as [_ H].
  destruct (H Sample.alternative) as (_ & Hchildren & _).
  rewrite Hchildren.
  - vm_compute. reflexivity.
  - left. vm_compute. reflexivity.
Defined.

(** C4, refuted as stated: in a multipart/mixed message whose text/plain
    part lies inside a multipart/alternative child, the text/plain
    descendant holds "Hello" and the extracted body is empty. *)
Lemma nested_text_is_not_extracted :
  getEmailBody Sample.decode (Some Sample.nested) = []
  /\ extractBody_recursive Sample.decode (Some Sample.nested) = lit "Hello"
  /\ descendant_texts Sample.decode Sample.nested = [lit "Hello"].
Proof.
  repeat split; vm_compute; reflexivity.
Qed.

End BodyProps.

(* ================================================================== *)
(** ** The routes *)

Module RouteProps.
Import JS DateTime Common Http Spec.

Section Classification.
Variable lower_other : jsstring -> char -> jsstring -> jsstring.
Variable upper_other : jsstring -> char -> jsstring -> jsstring.
Variable decode : jsstring -> jsstring.
Variable Date_parse : jsstring -> option Z.
Variable generateContent : jsstring -> jsstring -> jsstring -> result jsstring.
Variable JSON_parse : jsstring -> result AIAnalysisResult.

Lemma date_field_unparsable d :
  truthy d = true -> Date_of_string Date_parse d = None ->
  date_field Date_parse (Some d)
  = Throw (RangeError (lit "Invalid time value")).
Proof.
  intros Ht Hd. unfold date_field, Date_toISOString. now rewrite Ht, Hd.
Qed.

(** Without a date that fails to parse, the date field is computed. *)
Lemma date_field_ok (date : option jsstring) :
  (forall d, date = Some d -> truthy d = true ->
             Date_of_string Date_parse d <> None) ->
  exists v, date_field Date_parse date = Ok v.
Proof.
  intros H. unfold date_field, Date_toISOString.
  destruct date as [d|]; [|eauto].
  destruct (truthy d) eqn:Ht; [|eauto].
  specialize (H d eq_refl Ht).
  destruct (Date_of_string Date_parse d); [simpl; eauto | congruence].
Qed.

(** The classification of [route.ts] returns a record for every message
    whose Date header is absent, empty or a date. *)
Lemma extractEmailInfo_returns details :
  ~ unparsable_date Date_parse details ->
  exists r,
    Route.extractEmailInfo decode Date_parse generateContent JSON_parse
                           details = Ok r.
Proof.
  intros Hnot. unfold Route.extractEmailInfo.
  destruct (@date_field_ok
              (Some match header_value (headers_of details) "Date" with
                    | Some d => d
                    | None => []
                    end)) as [v Hv].
  { intros d Hd Ht Hp. apply Hnot. exists d.
    destruct (header_value (headers_of details) "Date") as [d'|].
    - inversion Hd. subst. auto.
    - inversion Hd. subst. discriminate Ht. }
  rewrite Hv.
  destruct (analyzeEmailWithAI _ _ _ _ _); simpl; eauto.
Qed.

(** So does the classification of [part_001]. *)
Lemma heuristic_returns details :
~ unparsable_date Date_parse details ->
exists r,
  Heuristic.extractEmailInfo lower_other upper_other decode Date_parse
                             generateContent JSON_parse details = Ok r.
Proof.
intros Hnot. unfold Heuristic.extractEmailInfo.
destruct (@date_field_ok (header_value (headers_of details) "Date"))
  as [v Hv].
{ intros d Hd Ht Hp. apply Hnot. exists d. auto. }
rewrite Hv.
destruct (analyzeEmailWithAI _ _ _ _ _); simpl; eauto.
Qed.

Lemma route_rejects_unparsable details :
  unparsable_date Date_parse details ->
  Route.extractEmailInfo decode Date_parse generateContent JSON_parse details
  = Throw (RangeError (lit "Invalid time value")).
Proof.
  intros (d & Hd & Ht & Hp). unfold Route.extractEmailInfo.
  rewrite Hd, (date_field_unparsable d Ht Hp).
  destruct (analyzeEmailWithAI _ _ _ _ _); reflexivity.
Qed.

Lemma heuristic_rejects_unparsable details :
  unparsable_date Date_parse details ->
  Heuristic.extractEmailInfo lower_other upper_other decode Date_parse
                             generateContent JSON_parse details
  = Throw (RangeError (lit "Invalid time value")).
Proof.
  intros (d & Hd & Ht & Hp). unfold Heuristic.extractEmailInfo.
  rewrite Hd, (date_field_unparsable d Ht Hp).
  destruct (analyzeEmailWithAI _ _ _ _ _); reflexivity.
Qed.
End Classification.

(** C2 (as the code has it).  A message whose Date header is present, not
    empty and not parsable as a date is not classified: both versions of
    [extractEmailInfo] raise the RangeError of [toISOString], on the AI
    path and on the fallback path alike, and return no record. *)
Theorem unparsable_date_throws :
  forall (lower_other upper_other : jsstring -> char -> jsstring -> jsstring)
         (decode : jsstring -> jsstring)
         (Date_parse : jsstring -> option Z)
         (generateContent : jsstring -> jsstring -> jsstring -> result jsstring)
         (JSON_parse : jsstring -> result AIAnalysisResult)
         (details : Message),
    unparsable_date Date_parse details ->
    Route.extractEmailInfo decode Date_parse generateContent JSON_parse details
    = Throw (RangeError (lit "Invalid time value"))
    /\ Heuristic.extractEmailInfo lower_other upper_other decode Date_parse
                                  generateContent JSON_parse details
       = Throw (RangeError (lit "Invalid time value")).
Proof.
  intros lower_other upper_other decode Date_parse generateContent JSON_parse
         details Hdate.
  split.
  - now apply route_rejects_unparsable.
  - now apply heuristic_rejects_unparsable.
Qed.

(** A message dated "not a date", with the model service down. *)
Lemma unparsable_date_throws_witness :
  Route.extractEmailInfo Sample.decode Sample.Date_parse
                         Sample.generateContent_down Sample.JSON_parse
                         Sample.undated
  = Throw (RangeError (lit "Invalid time value")).
Proof.
  apply (@unparsable_date_throws Sample.case_other Sample.case_other
           Sample.decode Sample.Date_parse Sample.generateContent_down
           Sample.JSON_parse Sample.undated).
  exists (lit "not a date"). repeat split; vm_compute; reflexivity.
Defined.

(** C10.  In [route.ts] the fallback is a constant: when the AI
    classifier yields no result, the record that is assembled has the
    company "Unknown Company", the position "Unknown Position" and the
    status "Applied", whatever the subject, the body and the sender; the
    only other outcome is that no record is assembled, the Date header
    being unparsable. *)
Theorem fallback_is_constant :
  forall (decode : jsstring -> jsstring)
         (Date_parse : jsstring -> option Z)
         (generateContent : jsstring -> jsstring -> jsstring -> result jsstring)
         (JSON_parse : jsstring -> result AIAnalysisResult)
         (details : Message),
    analyzeEmailWithAI generateContent JSON_parse
      (subject_of details) (body_of decode details) (from_of details) = None ->
    match Route.extractEmailInfo decode Date_parse generateContent JSON_parse
                                 details with
    | Ok r =>
        Route.companyName r = lit "Unknown Company"
        /\ Route.jobProfile r = lit "Unknown Position"
        /\ Route.applicationStatus r = lit "Applied"
        /\ ~ unparsable_date Date_parse details
    | Throw e =>
        e = RangeError (lit "Invalid time value")
        /\ unparsable_date Date_parse details
    end.
Proof.
  intros decode Date_parse generateContent JSON_parse details Hai.
  unfold subject_of, from_of, body_of in Hai.
  destruct (Route.extractEmailInfo decode Date_parse generateContent
              JSON_parse details) as [r|e] eqn:E.
  - assert (~ unparsable_date Date_parse details) as Hnot.
    { intros Hu.
      pose proof (route_rejects_unparsable decode generateContent JSON_parse
                    Hu) as H.
      congruence. }
    unfold Route.extractEmailInfo in E. rewrite Hai in E.
    destruct (date_field Date_parse _) as [v|e']; simpl in E; [|discriminate].
    inversion E. subst. simpl. auto.
  - destruct (header_value (headers_of details) "Date") as [d|] eqn:Hd.
    + unfold Route.extractEmailInfo in E. rewrite Hai, Hd in E.
      unfold date_field, Date_toISOString in E.
      destruct (truthy d) eqn:Ht; [|discriminate].
      destruct (Date_of_string Date_parse d) eqn:Hp; simpl in E;
        [discriminate|].
      inversion E. split; [reflexivity|]. exists d. auto.
    + unfold Route.extractEmailInfo in E. rewrite Hai, Hd in E.
      discriminate.
Qed.

(** The model service is down for a message from jobs@Acme-Careers.com
    with the subject "Your application". *)
Lemma fallback_is_constant_witness :
  match Route.extractEmailInfo Sample.decode Sample.Date_parse
          Sample.generateContent_down Sample.JSON_parse Sample.acme_bare with
  | Ok r =>
      Route.companyName r = lit "Unknown Company"
      /\ Route.jobProfile r = lit "Unknown Position"
      /\ Route.applicationStatus r = lit "Applied"
      /\ ~ unparsable_date Sample.Date_parse Sample.acme_bare
  | Throw e =>
      e = RangeError (lit "Invalid time value")
      /\ unparsable_date Sample.Date_parse Sample.acme_bare
  end.
Proof.
  apply (@fallback_is_constant Sample.decode Sample.Date_parse
           Sample.generateContent_down Sample.JSON_parse Sample.acme_bare).
  reflexivity.
Defined.

(** C3 (as amended).  For a request that carries a valid [lastFetchTime]:
    without a credential the incremental route answers 401 with
    [{error: 'Not authenticated'}], as the full-sync route does; when the
    provider lists no message it answers 200 with the empty array; when
    the list call throws it answers 500 with [{error: 'Failed to fetch new
    emails'}] and nothing else. *)
Theorem incremental_route_responses :
  forall (session : option Session)
         (messages_list :
            jsstring -> jsstring -> nat -> result (option (list Message)))
         (messages_get : jsstring -> option jsstring -> result Message)
         (t : Z),
    TimeClip t = Some t ->
    (access_token session = None ->
       NewRoute.POST session messages_list messages_get (Ok (Some t))
       = Ok (respond_with (Object [("error", lit "Not authenticated")]) 401)
       /\ forall decode Date_parse generateContent JSON_parse,
           Route.GET decode Date_parse generateContent JSON_parse session
                     messages_list messages_get
           = respond_with (Object [("error", lit "Not authenticated")]) 401)
    /\ (forall token, access_token session = Some token ->
          (messages_list token (NewRoute.new_query (toISOString t)) 1000
             = Ok None
           \/ messages_list token (NewRoute.new_query (toISOString t)) 1000
                = Ok (Some []) ->
           NewRoute.POST session messages_list messages_get (Ok (Some t))
           = Ok (respond (Records [])))
          /\ (forall e,
                messages_list token (NewRoute.new_query (toISOString t)) 1000
                  = Throw e ->
                NewRoute.POST session messages_list messages_get (Ok (Some t))
                = Ok (respond_with
                        (Object [("error", lit "Failed to fetch new emails")])
                        500))).
Proof.
  intros session messages_list messages_get t Ht. split.
  - intros Hnone. unfold NewRoute.POST, Route.GET. rewrite Hnone. auto.
  - intros token Htok. unfold NewRoute.POST, NewRoute.afterDate_of.
    rewrite Htok. cbn [bind]. rewrite Ht. cbn [bind].
    unfold NewRoute.try_block. split.
    + intros [-> | ->]; reflexivity.
    + intros e ->. reflexivity.
Qed.

(** No session; a provider that lists nothing; a provider whose list call
    is rejected. *)
Lemma incremental_route_responses_witness :
  NewRoute.POST None Sample.list_none (Sample.get_message Sample.undated)
                (Ok (Some 0%Z))
  = Ok (respond_with (Object [("error", lit "Not authenticated")]) 401)
  /\ NewRoute.POST Sample.session Sample.list_none
                   (Sample.get_message Sample.undated) (Ok (Some 0%Z))
     = Ok (respond (Records []))
  /\ NewRoute.POST Sample.session Sample.list_rejected
                   (Sample.get_message Sample.undated) (Ok (Some 0%Z))
     = Ok (respond_with
             (Object [("error", lit "Failed to fetch new emails")]) 500).
Proof.
  split; [|split].
  - apply (@incremental_route_responses None Sample.list_none
             (Sample.get_message Sample.undated) 0%Z); reflexivity.
  - destruct (@incremental_route_responses Sample.session Sample.list_none
                (Sample.get_message Sample.undated) 0%Z eq_refl) as [_ H].
    destruct (H (lit "ya29.token") eq_refl) as [Hempty _].
    apply Hempty. left. reflexivity.
  - destruct (@incremental_route_responses Sample.session Sample.list_rejected
                (Sample.get_message Sample.undated) 0%Z eq_refl) as [_ H].
    destruct (H (lit "ya29.token") eq_refl) as [_ Hfail].
    apply (Hfail (Rejection (lit "Quota exceeded"))). reflexivity.
Defined.

(** C3, refuted as stated: on the same rejected list call the full-sync
    route answers 500 with the keys [error] and [details], the incremental
    route answers 500 with the key [error] alone. *)
Lemma incremental_error_has_no_details :
  option_map (@shape Route.EmailInfo)
    (match NewRoute.POST Sample.session Sample.list_rejected
             (Sample.get_message Sample.undated) (Ok (Some 0%Z)) with
     | Ok r => Some r
     | Throw _ => None
     end)
  = Some (Some ["error"])
  /\ shape (Route.GET Sample.decode Sample.Date_parse
              Sample.generateContent_down Sample.JSON_parse Sample.session
              Sample.list_rejected (Sample.get_message Sample.undated))
     = Some ["error"; "details"]
  /\ status (Route.GET Sample.decode Sample.Date_parse
               Sample.generateContent_down Sample.JSON_parse Sample.session
               Sample.list_rejected (Sample.get_message Sample.undated))
     = 500.
Proof.
  repeat split.
Qed.

(** One message dated "not a date" fails the whole full sync: the route
    answers 500 with the RangeError in [details]. *)
Lemma full_sync_with_unparsable_date :
  Route.GET Sample.decode Sample.Date_parse Sample.generateContent_down
            Sample.JSON_parse Sample.session Sample.list_one
            (Sample.get_message Sample.undated)
  = respond_with
      (Object [("error", lit "Failed to fetch emails");
               ("details", lit "RangeError: Invalid time value")]) 500.
Proof. reflexivity. Qed.

(** The incremental route as shipped: as soon as the provider lists a
    message, the call of [extractEmailInfo] raises and the answer is 500. *)
Lemma incremental_route_with_messages :
  NewRoute.POST Sample.session Sample.list_one
                (Sample.get_message Sample.acme_bare) (Ok (Some 0%Z))
  = Ok (respond_with
          (Object [("error", lit "Failed to fetch new emails")]) 500).
Proof. reflexivity. Qed.

End RouteProps.

(* ================================================================== *)
(** ** The heuristics of [part_001] *)

Module HeuristicProps.
Import JS Regex Common Spec.

(** *** Facts about the matcher *)

Lemma star_greedy_stop {A} (p : char -> bool) (k : cont A)
      (run_ rest : jsstring) (c : captures) (a : A) :
  forall i,
    (forall x, In x run_ -> p x = true) ->
    match rest with y :: _ => p y = false | [] => True end ->
    k (i + List.length run_) rest c = Some a ->
    star_greedy p k i (run_ ++ rest) c = Some a.
Proof.
  induction run_ as [|x l IH]; intros i Hall Hrest Hk; simpl.
  - rewrite Nat.add_0_r in Hk. destruct rest as [|y rest']; simpl.
    + assumption.
    + now rewrite Hrest.
  - rewrite (Hall x (or_introl eq_refl)).
    simpl in Hk. rewrite Nat.add_succ_r in Hk.
    rewrite (IH (S i)); auto. intros y Hy. apply Hall. now right.
Qed.

(** A search skips the positions at which the first unit cannot start a
    match. *)
Lemma search_skip (p : char -> bool) (r : regex) (pre rest : jsstring) :
  forall i,
    (forall x, In x pre -> p x = false) ->
    search (Cat (Set_ p) r) i (pre ++ rest)
    = search (Cat (Set_ p) r) (i + List.length pre) rest.
Proof.
  induction pre as [|x l IH]; intros i Hall; simpl.
  - now rewrite Nat.add_0_r.
  - rewrite (Hall x (or_introl eq_refl)).
    rewrite IH by (intros y Hy; apply Hall; now right).
    now rewrite Nat.add_succ_r.
Qed.

(** The domain of a sender: what stands between the first [@] and the
    [>] that closes the address. *)
Lemma run_domain_pattern (dom post : jsstring) (i : nat) :
  dom <> [] -> ~ In 62%N dom ->
  run Heuristic.domain_pattern (@accept) i ([64%N] ++ dom ++ [62%N] ++ post) []
  = Some (S (S (i + List.length dom)), [(1, dom)]).
Proof.
  intros Hdom Hgt.
  destruct dom as [|d dom']; [congruence|].
  assert (forall x, In x (d :: dom') -> negb (chr ">" x) = true) as Hall.
  { intros x Hx. unfold chr. apply negb_true_iff, N.eqb_neq.
    intros ->. now apply Hgt. }
  unfold Heuristic.domain_pattern, plus. cbn [cats app run].
  change (chr "@" 64%N) with true. cbv iota.
  rewrite (Hall d (or_introl eq_refl)).
  apply star_greedy_stop.
  - intros x Hx. apply Hall. now right.
  - reflexivity.
  - change (chr ">" 62%N) with true. cbv iota. unfold accept.
    replace (S (S i) + List.length dom' - S i) with (S (List.length dom'))
      by lia.
    cbn [firstn]. rewrite firstn_app, firstn_all, Nat.sub_diag.
    cbn [firstn]. rewrite app_nil_r.
    repeat f_equal. cbn [List.length]. lia.
Qed.

Lemma domain_of_bracketed (pre dom post : jsstring) :
  ~ In 64%N pre -> dom <> [] -> ~ In 62%N dom ->
  group 1 (exec Heuristic.domain_pattern
                (pre ++ [64%N] ++ dom ++ [62%N] ++ post))
  = Some dom.
Proof.
  intros Hpre Hdom Hgt. unfold exec.
  assert (Heuristic.domain_pattern
          = Cat (Set_ (chr "@"))
                (Cat (Group 1 (plus (fun c => negb (chr ">" c))))
                     (Set_ (chr ">")))) as Hpat by reflexivity.
  rewrite Hpat, search_skip.
  2:{ intros x Hx. unfold chr. apply N.eqb_neq. intros ->. now apply Hpre. }
  rewrite <- Hpat.
  destruct ([64%N] ++ dom ++ [62%N] ++ post) as [|y rest] eqn:E;
    [discriminate|].
  cbn [search]. rewrite <- E, run_domain_pattern by assumption.
  reflexivity.
Qed.

(** A match that a text has at every start index is found behind any
    prefix. *)
Lemma search_suffix (r : regex) (s : jsstring) :
  (forall i, search r i s <> None) ->
  forall pre i, search r i (pre ++ s) <> None.
Proof.
  intros Hs. induction pre as [|x l IH]; intros i; simpl; [apply Hs|].
  destruct (run r (@accept) i (x :: l ++ s) []) as [[e c]|];
    [discriminate | apply IH].
Qed.

Lemma test_suffix (r : regex) (s pre : jsstring) :
  (forall i, search r i s <> None) -> test r (pre ++ s) = true.
Proof.
  intros Hs. unfold test, exec.
  pose proof (@search_suffix r s Hs pre 0) as H.
  destruct (search r 0 (pre ++ s)); congruence.
Qed.

Section Lowering.
Variable lower_other : jsstring -> char -> jsstring -> jsstring.

Lemma toLowerCase_from_app (a b : jsstring) : forall before,
  exists x,
    toLowerCase_from lower_other before (a ++ b)
    = x ++ toLowerCase_from lower_other (rev a ++ before) b.
Proof.
  induction a as [|c a IH]; intros before; simpl.
  - exists []. reflexivity.
  - destruct (IH (c :: before)) as [x Hx]. rewrite Hx.
    exists ((if is_ascii c then [lower_ascii c]
             else lower_other (rev before) c (a ++ b)) ++ x).
    rewrite <- !app_assoc. reflexivity.
Qed.
End Lowering.

(** The fields of the record on the fallback path. *)
Lemma fallback_fields lower_other upper_other decode Date_parse
      generateContent JSON_parse details r :
  analyzeEmailWithAI generateContent JSON_parse
    (subject_of details) (body_of decode details) (from_of details) = None ->
  Heuristic.extractEmailInfo lower_other upper_other decode Date_parse
                             generateContent JSON_parse details = Ok r ->
  Heuristic.companyName r
  = Heuristic.company_of upper_other (subject_of details)
                         (body_of decode details) (from_of details)
  /\ Heuristic.jobProfile r
     = Heuristic.role_of (subject_of details) (body_of decode details)
  /\ Heuristic.applicationStatus r
     = Heuristic.status_of lower_other (subject_of details)
                           (body_of decode details).
Proof.
  unfold subject_of, body_of, from_of. intros Hai E.
  unfold Heuristic.extractEmailInfo in E. rewrite Hai in E.
  destruct (date_field Date_parse _) as [v|e]; simpl in E; [|discriminate].
  inversion E. subst. simpl. auto.
Qed.

Lemma status_chain lower_other subject body :
  Heuristic.status_of lower_other subject body
  = let text := toLowerCase lower_other (subject ++ lit " " ++ body) in
    if hit "Rejected" text then lit "Rejected"
    else if hit "Interview" text then lit "Interview"
    else if hit "Offer" text then lit "Offer"
    else if hit "Application Received" text then lit "Application Received"
    else lit "Applied".
Proof. reflexivity. Qed.

(** The text of the status example, lower-cased behind any subject. *)
Lemma example_text lower_other subject :
  exists x,
    toLowerCase lower_other
      (subject ++ lit " "
         ++ lit "Unfortunately, thank you for your interest in the role")
    = x ++ lit "unfortunately, thank you for your interest in the role".
Proof.
  unfold toLowerCase. rewrite app_assoc.
  destruct (toLowerCase_from_app lower_other (subject ++ lit " ")
              (lit "Unfortunately, thank you for your interest in the role")
              []) as [x ->].
  exists x. f_equal.
Qed.

(** C5.  Status priority: the entries of [statusPatterns] are Rejected,
    Interview, Offer, Application Received in this order, and the status
    is the first of them one of whose patterns matches the lower-cased
    subject + " " + body, Applied when none does.  The body
    "Unfortunately, thank you for your interest in the role" matches a
    pattern of Rejected and a pattern of Application Received behind any
    subject, and its status is Rejected.  On the fallback path this status
    is the one of the record. *)
Theorem status_priority :
  forall (lower_other : jsstring -> char -> jsstring -> jsstring)
         (subject body : jsstring),
    let text := toLowerCase lower_other (subject ++ lit " " ++ body) in
    let example :=
      lit "Unfortunately, thank you for your interest in the role" in
    map fst Heuristic.statusPatterns
    = [lit "Rejected"; lit "Interview"; lit "Offer";
       lit "Application Received"]
    /\ Heuristic.status_of lower_other subject body
       = (if hit "Rejected" text then lit "Rejected"
          else if hit "Interview" text then lit "Interview"
          else if hit "Offer" text then lit "Offer"
          else if hit "Application Received" text
               then lit "Application Received"
          else lit "Applied")
    /\ (hit "Rejected"
            (toLowerCase lower_other (subject ++ lit " " ++ example)) = true
        /\ hit "Application Received"
              (toLowerCase lower_other (subject ++ lit " " ++ example)) = true
        /\ Heuristic.status_of lower_other subject example = lit "Rejected")
    /\ (forall upper_other decode Date_parse generateContent JSON_parse
               details r,
          analyzeEmailWithAI generateContent JSON_parse
            (subject_of details) (body_of decode details) (from_of details)
          = None ->
          Heuristic.extractEmailInfo lower_other upper_other decode Date_parse
            generateContent JSON_parse details = Ok r ->
          Heuristic.applicationStatus r
          = Heuristic.status_of lower_other (subject_of details)
                                (body_of decode details)).
Proof.
  intros lower_other subject body text example.
  split; [reflexivity|]. split; [apply status_chain|].
  assert (hit "Rejected"
            (toLowerCase lower_other (subject ++ lit " " ++ example)) = true)
    as Hrej.
  { destruct (example_text lower_other subject) as [x Hx].
    unfold example. rewrite Hx. unfold hit.
    change (patterns_of "Rejected")
      with (hd Empty (patterns_of "Rejected")
            :: tl (patterns_of "Rejected")).
    cbn [existsb]. rewrite test_suffix; [reflexivity|].
    intros i. vm_compute. discriminate. }
  split; [split; [assumption|split]|].
  - destruct (example_text lower_other subject) as [x Hx].
    unfold example. rewrite Hx. unfold hit.
    change (patterns_of "Application Received")
      with [nth 0 (patterns_of "Application Received") Empty;
            nth 1 (patterns_of "Application Received") Empty;
            nth 2 (patterns_of "Application Received") Empty].
    cbn [existsb].
    rewrite (@test_suffix (nth 1 (patterns_of "Application Received") Empty));
      [apply orb_true_r|].
    intros i. vm_compute. discriminate.
  - rewrite status_chain. cbv zeta. now rewrite Hrej.
  - intros upper_other decode Date_parse generateContent JSON_parse details r
           Hai E.
    apply (@fallback_fields lower_other upper_other decode Date_parse
             generateContent JSON_parse details r Hai E).
Qed.

(** The rejection example as a message, with the model service down. *)
Lemma status_priority_witness :
  exists r,
    Heuristic.extractEmailInfo Sample.case_other Sample.case_other
      Sample.decode Sample.Date_parse Sample.generateContent_down
      Sample.JSON_parse Sample.rejection = Ok r
    /\ Heuristic.applicationStatus r = lit "Rejected".
Proof.
  destruct (status_priority Sample.case_other [] []) as (_ & _ & _ & H).
  specialize (H Sample.case_other Sample.decode Sample.Date_parse
                Sample.generateContent_down Sample.JSON_parse
                Sample.rejection).
  destruct (Heuristic.extractEmailInfo Sample.case_other Sample.case_other
              Sample.decode Sample.Date_parse Sample.generateContent_down
              Sample.JSON_parse Sample.rejection) as [r|e] eqn:E.
  - exists r. split; [reflexivity|].
    rewrite (H r eq_refl eq_refl). vm_compute. reflexivity.
  - vm_compute in E. discriminate E.
Defined.

(** The first piece of a split is what stands before the first
    separator. *)
Lemma split_on_first (p : char -> bool) (a b : jsstring) (y : char) :
  forall cur,
    (forall x, In x a -> p x = false) -> p y = true ->
    split_on p cur (a ++ y :: b) = (rev cur ++ a) :: split_on p [] b.
Proof.
  induction a as [|x a IH]; intros cur Ha Hy; simpl.
  - now rewrite Hy, app_nil_r.
  - rewrite (Ha x (or_introl eq_refl)).
    rewrite IH by (try assumption; intros z Hz; apply Ha; now right).
    simpl. now rewrite <- app_assoc.
Qed.

Lemma first_label (label rest : jsstring) :
  ~ In 46%N label ->
  hd [] (split (chr ".") (label ++ [46%N] ++ rest)) = label.
Proof.
  intros Hl. unfold split.
  change (label ++ [46%N] ++ rest) with (label ++ 46%N :: rest).
  rewrite split_on_first; [reflexivity | | reflexivity].
  intros x Hx. unfold chr. apply N.eqb_neq. intros ->. now apply Hl.
Qed.

(** The fallback from the domain, once the domain and its first label are
    known. *)
Lemma company_of_fallback upper_other (subject body from dom label : jsstring) :
  Heuristic.first_capture Heuristic.companyPatterns
                          (subject ++ lit " " ++ body) = None ->
  group 1 (exec Heuristic.domain_pattern from) = Some dom ->
  dom <> [] ->
  hd [] (split (chr ".") dom) = label ->
  label <> [] ->
  Heuristic.company_of upper_other subject body from
  = company_of_label upper_other label.
Proof.
  intros Hnone Hdom Hne Hlabel Hl. unfold Heuristic.company_of.
  rewrite Hnone, Hdom.
  destruct dom as [|d dom']; [congruence|]. cbn [or_default truthy].
  rewrite Hlabel.
  destruct label as [|l label']; [congruence|]. cbn [truthy].
  reflexivity.
Qed.

(** *** The derivation from the label, pattern against wording *)

Lemma after_word_prefix (w : list ascii) : forall (s rest : jsstring),
  after_word w s = Some rest ->
  exists p, s = p ++ rest /\ List.length p = List.length w.
Proof.
  induction w as [|a w IH]; intros s rest H; simpl in H.
  - inversion H. exists []. auto.
  - destruct s as [|c s']; [discriminate|].
    destruct (same_letter c (N_of_ascii a)); [|discriminate].
    destruct (IH _ _ H) as (p & -> & Hlen). exists (c :: p). simpl. auto.
Qed.

Lemma after_any_suffix (ws : list string) (s rest : jsstring) :
  after_any ws s = Some rest -> exists p, s = p ++ rest.
Proof.
  induction ws as [|w ws IH]; simpl; [discriminate|].
  destruct (after_word (list_ascii_of_string w) s) as [r|] eqn:E; [|assumption].
  intros H. inversion H; subst.
  destruct (after_word_prefix _ _ E) as (p & Hp & _). eauto.
Qed.

(** A word under the [i] flag matches exactly where the text starts with
    the word, whatever the case of its letters. *)
Lemma run_letters {A} (w : list ascii) :
  forall (k : cont A) (i : nat) (s : jsstring) (c : captures),
    run (cats (map (fun a => Set_ (chr_i a)) w)) k i s c
    = match after_word w s with
      | Some rest => k (i + List.length w) rest c
      | None => None
      end.
Proof.
  induction w as [|a w IH]; intros k i s c.
  - simpl. now rewrite Nat.add_0_r.
  - destruct w as [|b w'].
    + simpl. destruct s as [|x s']; [reflexivity|].
      unfold chr_i, same_letter.
      destruct (N.eqb (lower_ascii x) (lower_ascii (N_of_ascii a)));
        [|reflexivity].
      replace (i + 1) with (S i) by lia. reflexivity.
    + assert (run (cats (map (fun a => Set_ (chr_i a)) (a :: b :: w'))) k i s c
              = match s with
                | x :: s' =>
                    if chr_i a x
                    then run (cats (map (fun a => Set_ (chr_i a)) (b :: w')))
                             k (S i) s' c
                    else None
                | [] => None
                end) as -> by reflexivity.
      destruct s as [|x s']; [reflexivity|].
      assert (after_word (a :: b :: w') (x :: s')
              = if chr_i a x then after_word (b :: w') s' else None) as ->
          by reflexivity.
      destruct (chr_i a x); [|reflexivity].
      rewrite IH.
      destruct (after_word (b :: w') s') as [rest|]; [|reflexivity].
      f_equal. cbn [List.length]. lia.
Qed.

(** An alternation of words matches at a position exactly when the text
    starts there with one of them, and it takes the first that does. *)
Lemma run_words (ws : list string) :
  forall (i : nat) (s : jsstring) (c : captures),
    run (alts (map word_i ws)) (@accept) i s c
    = match after_any ws s with
      | Some rest => Some (i + (List.length s - List.length rest), c)
      | None => None
      end.
Proof.
  assert (forall w i (s : jsstring) c,
             run (word_i w) (@accept) i s c
             = match after_word (list_ascii_of_string w) s with
               | Some rest => Some (i + (List.length s - List.length rest), c)
               | None => None
               end) as Hword.
  { intros w i s c. unfold word_i. rewrite run_letters.
    destruct (after_word (list_ascii_of_string w) s) as [rest|] eqn:E;
      [|reflexivity].
    destruct (after_word_prefix _ _ E) as (p & -> & Hlen).
    unfold accept. rewrite length_app. repeat f_equal. lia. }
  induction ws as [|w ws IH]; intros i s c.
  - simpl. now destruct s.
  - destruct ws as [|w2 ws'].
    + cbn [map alts after_any]. rewrite Hword.
      now destruct (after_word (list_ascii_of_string w) s).
    + assert (run (alts (map word_i (w :: w2 :: ws'))) (@accept) i s c
              = match run (word_i w) (@accept) i s c with
                | Some a => Some a
                | None => run (alts (map word_i (w2 :: ws'))) (@accept) i s c
                end) as -> by reflexivity.
      rewrite Hword, IH. cbn [after_any].
      now destruct (after_word (list_ascii_of_string w) s).
Qed.

(** Removing the first match of an alternation of words removes the
    leftmost occurrence of one of the words. *)
Lemma remove_first_words_from (ws : list string) :
  forall (s pre : jsstring),
    match search (alts (map word_i ws)) (List.length pre) s with
    | Some m => firstn (index m) (pre ++ s)
                ++ skipn (index m + List.length (matched m)) (pre ++ s)
    | None => pre ++ s
    end = pre ++ without_first ws s.
Proof.
  induction s as [|x s IH]; intros pre.
  - cbn [search without_first]. rewrite run_words.
    destruct (after_any ws []) as [rest|] eqn:E; [|reflexivity].
    assert (rest = []) as ->.
    { destruct (after_any_suffix _ _ E) as [p Hp].
      symmetry in Hp. now apply app_eq_nil in Hp. }
    cbn [index matched]. rewrite firstn_nil. cbn [List.length].
    rewrite Nat.add_0_r, app_nil_r.
    rewrite firstn_all, skipn_all. apply app_nil_r.
  - cbn [search without_first]. rewrite run_words.
    destruct (after_any ws (x :: s)) as [rest|] eqn:E.
    + destruct (after_any_suffix _ _ E) as [p Hp].
      cbn [index matched]. rewrite Hp, length_app.
      replace (List.length pre + (List.length p + List.length rest
                                  - List.length rest) - List.length pre)
        with (List.length p) by lia.
      rewrite firstn_app, firstn_all, Nat.sub_diag. cbn [firstn].
      rewrite app_nil_r.
      rewrite firstn_app, firstn_all, Nat.sub_diag. cbn [firstn].
      rewrite app_nil_r. f_equal.
      rewrite skipn_app, skipn_all2 by lia.
      replace (List.length pre + List.length p - List.length pre)
        with (List.length p) by lia.
      rewrite skipn_app, skipn_all, Nat.sub_diag. reflexivity.
    + specialize (IH (pre ++ [x])).
      rewrite length_app, Nat.add_1_r, <- app_assoc in IH.
      rewrite <- app_assoc in IH. exact IH.
Qed.

(** [/(?:careers|jobs|hr|recruiting|talent)/i] replaced by the empty
    string: the leftmost occurrence of one of the five words is gone. *)
Lemma remove_first_noise (label : jsstring) :
  remove_first Heuristic.domain_noise label = without_first noise_words label.
Proof.
  unfold remove_first, exec.
  exact (@remove_first_words_from noise_words label []).
Qed.

(** [word.charAt(0).toUpperCase() + word.slice(1)] puts the first unit in
    upper case and keeps the rest. *)
Lemma capitalize_first_unit upper_other (w : jsstring) :
  Heuristic.capitalize upper_other w = capitalize_first upper_other w.
Proof.
  destruct w as [|c w]; [reflexivity|].
  unfold Heuristic.capitalize, capitalize_first, charAt0, slice1, toUpperCase.
  simpl. now rewrite app_nil_r.
Qed.

Lemma company_of_label_worded upper_other (label : jsstring) :
  company_of_label upper_other label = company_from_label upper_other label.
Proof.
  unfold company_of_label, company_from_label.
  rewrite remove_first_noise. f_equal. f_equal.
  apply map_ext. apply capitalize_first_unit.
Qed.

(** C6 (as amended).  Company-domain fallback: when no company pattern
    captures anything in subject + " " + body and the sender holds an
    address closed by [>], with no [@] before the one of the address, the
    company name is derived from the first label of the domain (what
    stands between that [@] and the first dot): the leftmost occurrence of
    one of the words careers, jobs, hr, recruiting, talent, in any case of
    its letters, is removed, the rest is split on [.] and [-], the first
    letter of every piece is put in upper case and the rest of the piece
    kept, and the pieces are joined with spaces and trimmed
    ([company_from_label], which names neither the patterns nor the
    helpers of the route).  In particular the subject "Your application!"
    with the sender <jobs@Acme-Careers.com> gives "Acme"; a label in lower
    case is capitalized piece by piece (acme-corp gives "Acme Corp"), each
    of the five words is removed (acmejobs, hr-acme, ACME-recruiting,
    talentbridge), and only its first occurrence (jobs-careers gives
    "Careers").  On the fallback path this name is the one of the
    record. *)
Theorem company_from_bracketed_domain :
  forall (upper_other : jsstring -> char -> jsstring -> jsstring),
    (forall subject body pre label rest post : jsstring,
        Heuristic.first_capture Heuristic.companyPatterns
                                (subject ++ lit " " ++ body) = None ->
        ~ In 64%N pre ->
        label <> [] -> ~ In 46%N label ->
        ~ In 62%N (label ++ [46%N] ++ rest) ->
        Heuristic.company_of upper_other subject body
          (pre ++ [64%N] ++ (label ++ [46%N] ++ rest) ++ [62%N] ++ post)
        = company_from_label upper_other label)
    /\ Heuristic.company_of upper_other (lit "Your application!") []
                            (lit "<jobs@Acme-Careers.com>")
       = lit "Acme"
    /\ map (fun sender =>
              Heuristic.company_of upper_other (lit "Your application!") []
                                   (lit sender))
           ["<hi@acme-corp.io>"; "<x@acmejobs.com>"; "<x@hr-acme.com>";
            "<x@ACME-recruiting.com>"; "<x@talentbridge.com>";
            "<x@jobs-careers.com>"]
       = map lit ["Acme Corp"; "Acme"; "Acme"; "ACME"; "Bridge"; "Careers"]
    /\ (forall lower_other decode Date_parse generateContent JSON_parse
               details r,
          analyzeEmailWithAI generateContent JSON_parse
            (subject_of details) (body_of decode details) (from_of details)
          = None ->
          Heuristic.extractEmailInfo lower_other upper_other decode Date_parse
            generateContent JSON_parse details = Ok r ->
          Heuristic.companyName r
          = Heuristic.company_of upper_other (subject_of details)
              (body_of decode details) (from_of details)).
Proof.
  intros upper_other. split; [|split; [|split]].
  - intros subject body pre label rest post Hnone Hpre Hlabel Hdot Hgt.
    assert (label ++ [46%N] ++ rest <> []) as Hne
        by (destruct label; [congruence | discriminate]).
    rewrite <- company_of_label_worded.
    apply (@company_of_fallback upper_other subject body _
             (label ++ [46%N] ++ rest) label); try assumption.
    + now apply domain_of_bracketed.
    + now apply first_label.
  - vm_compute. reflexivity.
  - vm_compute. reflexivity.
  - intros lower_other decode Date_parse generateContent JSON_parse details r
           Hai E.
    apply (@fallback_fields lower_other upper_other decode Date_parse
             generateContent JSON_parse details r Hai E).
Qed.

(** The subject "Your application!" with two senders.  For
    <jobs@Acme-Careers.com>: "<jobs" before the [@], the label
    "Acme-Careers", the rest "com", and the name "Acme".  For
    <hr@blue-sky-jobs.co.uk>: the label "blue-sky-jobs" in lower case, the
    rest "co.uk", and the name "Blue Sky". *)
Lemma company_from_bracketed_domain_witness :
  Heuristic.company_of Sample.case_other (lit "Your application!") []
    (lit "<jobs" ++ [64%N] ++ (lit "Acme-Careers" ++ [46%N] ++ lit "com")
       ++ [62%N] ++ [])
  = lit "Acme"
  /\ Heuristic.company_of Sample.case_other (lit "Your application!") []
       (lit "<hr" ++ [64%N] ++ (lit "blue-sky-jobs" ++ [46%N] ++ lit "co.uk")
          ++ [62%N] ++ [])
     = lit "Blue Sky".
Proof.
  destruct (company_from_bracketed_domain Sample.case_other) as [H _].
  split.
  - refine (eq_trans
              (H (lit "Your application!") [] (lit "<jobs")
                 (lit "Acme-Careers") (lit "com") [] _ _ _ _ _) _).
    + vm_compute. reflexivity.
    + vm_compute. intros H'.
      repeat destruct H' as [H'|H']; discriminate || auto.
    + discriminate.
    + vm_compute. intros H'.
      repeat destruct H' as [H'|H']; discriminate || auto.
    + vm_compute. intros H'.
      repeat destruct H' as [H'|H']; discriminate || auto.
    + vm_compute. reflexivity.
  - refine (eq_trans
              (H (lit "Your application!") [] (lit "<hr")
                 (lit "blue-sky-jobs") (lit "co.uk") [] _ _ _ _ _) _).
    + vm_compute. reflexivity.
    + vm_compute. intros H'.
      repeat destruct H' as [H'|H']; discriminate || auto.
    + discriminate.
    + vm_compute. intros H'.
      repeat destruct H' as [H'|H']; discriminate || auto.
    + vm_compute. intros H'.
      repeat destruct H' as [H'|H']; discriminate || auto.
    + vm_compute. reflexivity.
Defined.

(** C6, refuted as stated: with the model service down, the subject "Your
    application" and the sender jobs@Acme-Careers.com, the company of the
    record is "Your application", the capture of the second pattern; and
    for the subject "Your application!", which no pattern captures, the
    same sender without angle brackets gives "Unknown Company". *)
Lemma bare_sender_is_not_read :
  match Heuristic.extractEmailInfo Sample.case_other Sample.case_other
          Sample.decode Sample.Date_parse Sample.generateContent_down
          Sample.JSON_parse Sample.acme_bare with
  | Ok r => Some (Heuristic.companyName r)
  | Throw _ => None
  end = Some (lit "Your application")
  /\ Heuristic.first_capture Heuristic.companyPatterns
       (lit "Your application" ++ lit " " ++ [])
     = Some (lit "Your application ")
  /\ Heuristic.first_capture Heuristic.companyPatterns
       (lit "Your application!" ++ lit " " ++ []) = None
  /\ Heuristic.company_of Sample.case_other (lit "Your application!") []
       (lit "jobs@Acme-Careers.com")
     = lit "Unknown Company"
  /\ lit "Your application" <> lit "Acme".
Proof.
  repeat split; try (vm_compute; reflexivity). discriminate.
Qed.

End HeuristicProps.

(* ================================================================== *)
(** ** More on the merge *)

Module MergeLaws.
Import JS Common Dashboard Spec Notions MergeProps.

Lemma existsb_eqb_In (x : jsstring) (seen : list jsstring) :
  existsb (eqb x) seen = true <-> In x seen.
Proof.
  rewrite existsb_exists. split.
  - intros (y & Hy & He). apply eqb_true_iff in He. now subst.
  - intros H. exists x. split; [assumption | apply eqb_refl].
Qed.

Lemma existsb_eqb_ext (x : jsstring) (s1 s2 : list jsstring) :
  (forall y, In y s1 <-> In y s2) ->
  existsb (eqb x) s1 = existsb (eqb x) s2.
Proof.
  intros H. apply eq_true_iff_eq. rewrite !existsb_eqb_In. apply H.
Qed.

Lemma first_occurrences_ext (l : list jsstring) : forall s1 s2,
  (forall y, In y s1 <-> In y s2) ->
  first_occurrences s1 l = first_occurrences s2 l.
Proof.
  induction l as [|x l IH]; intros s1 s2 H; simpl; [reflexivity|].
  rewrite (existsb_eqb_ext x s1 s2 H).
  destruct (existsb (eqb x) s2); [now apply IH|].
  f_equal. apply IH. intros y. simpl. rewrite H. tauto.
Qed.

Lemma first_occurrences_app (a b : list jsstring) : forall seen,
  first_occurrences seen (a ++ b)
  = first_occurrences seen a ++ first_occurrences (a ++ seen) b.
Proof.
  induction a as [|x a IH]; intros seen; simpl; [reflexivity|].
  destruct (existsb (eqb x) seen) eqn:E.
  - rewrite IH. f_equal. apply first_occurrences_ext.
    apply existsb_eqb_In in E. intros y. simpl. rewrite !in_app_iff.
    split; [tauto|]. intros [<-|H]; tauto.
  - simpl. f_equal. rewrite IH. f_equal. apply first_occurrences_ext.
    intros y. simpl. rewrite !in_app_iff. simpl. tauto.
Qed.

Lemma first_occurrences_In (l : list jsstring) : forall seen x,
  In x (first_occurrences seen l) <-> In x l /\ ~ In x seen.
Proof.
  induction l as [|y l IH]; intros seen x; simpl; [tauto|].
  destruct (existsb (eqb y) seen) eqn:E.
  - apply existsb_eqb_In in E. rewrite IH.
    split; [tauto|]. intros [[<-|H] Hn]; tauto.
  - assert (~ In y seen) as Hy.
    { intros H. apply existsb_eqb_In in H. congruence. }
    simpl. rewrite IH. simpl. split.
    + intros [<-|[H Hn]]; tauto.
    + intros [[<-|H] Hn]; [tauto|].
      destruct (jsstring_dec y x) as [->|Hne]; [tauto|]. right. tauto.
Qed.

Lemma first_occurrences_NoDup (l : list jsstring) : forall seen,
  NoDup (first_occurrences seen l).
Proof.
  induction l as [|y l IH]; intros seen; simpl; [constructor|].
  destruct (existsb (eqb y) seen); [apply IH|].
  constructor; [|apply IH]. rewrite first_occurrences_In. simpl. tauto.
Qed.

Lemma first_occurrences_seen (l seen : list jsstring) :
  (forall x, In x l -> In x seen) -> first_occurrences seen l = [].
Proof.
  induction l as [|y l IH]; intros H; simpl; [reflexivity|].
  assert (existsb (eqb y) seen = true) as ->
      by (apply existsb_eqb_In, H; now left).
  apply IH. intros x Hx. apply H. now right.
Qed.

Lemma first_occurrences_fresh (l : list jsstring) : forall seen,
  NoDup l -> (forall x, In x l -> ~ In x seen) ->
  first_occurrences seen l = l.
Proof.
  induction l as [|y l IH]; intros seen Hnd H; simpl; [reflexivity|].
  inversion Hnd as [|? ? Hy Hnd']; subst.
  assert (existsb (eqb y) seen = false) as ->.
  { destruct (existsb (eqb y) seen) eqn:E; [|reflexivity].
    apply existsb_eqb_In in E. exfalso. apply (H y); [now left | assumption]. }
  f_equal. apply IH; [assumption|].
  intros x Hx [<-|Hs]; [contradiction|]. apply (H x); [now right | assumption].
Qed.

(** The keys of a filled map: those it had, then the new ones in the
    order of their first occurrence. *)
Lemma fill_keys {V} (entries : list (jsstring * V)) : forall m,
  keys (fill m entries)
  = keys m ++ first_occurrences (keys m) (map fst entries).
Proof.
  induction entries as [|[k v] es IH]; intros m; simpl.
  - now rewrite app_nil_r.
  - change (fold_left (fun m e => Map_set (fst e) (snd e) m) es (Map_set k v m))
      with (fill (Map_set k v m) es).
    rewrite IH.
    destruct (in_dec jsstring_dec k (keys m)) as [Hin|Hnot].
    + rewrite keys_set_present by assumption.
      apply existsb_eqb_In in Hin. now rewrite Hin.
    + rewrite keys_set_absent by assumption.
      assert (existsb (eqb k) (keys m) = false) as ->.
      { destruct (existsb (eqb k) (keys m)) eqn:E; [|reflexivity].
        apply existsb_eqb_In in E. contradiction. }
      rewrite <- app_assoc. simpl. do 2 f_equal.
      apply first_occurrences_ext. intros y. rewrite in_app_iff. simpl. tauto.
Qed.

Lemma entries_keys (l : list JobEmail) : map fst (entries_of l) = map id l.
Proof. unfold entries_of. rewrite map_map. reflexivity. Qed.

Lemma entries_values (l : list JobEmail) : Map_values (entries_of l) = l.
Proof.
  unfold Map_values, entries_of. rewrite map_map. simpl. apply map_id.
Qed.

Lemma merge_ids (newEmails prev : list JobEmail) :
  map id (merge newEmails prev)
  = first_occurrences [] (map id (newEmails ++ prev)).
Proof.
  rewrite merge_unfold, keyed_ids by (apply keyed_fill; constructor).
  now rewrite fill_keys, entries_keys.
Qed.

Lemma Map_set_absent {V} (k : jsstring) (v : V) (m : list (jsstring * V)) :
  ~ In k (keys m) -> Map_set k v m = m ++ [(k, v)].
Proof.
  induction m as [|[k' v'] m IH]; simpl; [reflexivity|].
  intros Hnot.
  assert (eqb k' k = false) as -> by (apply eqb_false_iff; tauto).
  f_equal. apply IH. tauto.
Qed.

Lemma fill_fresh {V} (entries : list (jsstring * V)) : forall m,
  NoDup (keys m ++ map fst entries) -> fill m entries = m ++ entries.
Proof.
  induction entries as [|[k v] es IH]; intros m Hnd; simpl.
  - now rewrite app_nil_r.
  - change (fold_left (fun m e => Map_set (fst e) (snd e) m) es (Map_set k v m))
      with (fill (Map_set k v m) es).
    simpl in Hnd.
    assert (~ In k (keys m)) as Hk.
    { apply NoDup_remove_2 in Hnd. rewrite in_app_iff in Hnd. tauto. }
    rewrite Map_set_absent by assumption.
    rewrite IH.
    + now rewrite <- app_assoc.
    + unfold keys. rewrite map_app. simpl. rewrite <- app_assoc. exact Hnd.
Qed.

(** X1.  The merged list holds the ids in the order of their first
    occurrence in the batch followed by the stored set: the ids of the
    batch first, then the stored ids that the batch does not name.  When
    no id occurs twice in the batch and the stored set together, the
    merge is the batch followed by the stored set. *)
Theorem merge_order :
  forall (newEmails prev : list JobEmail),
    map id (merge newEmails prev)
    = first_occurrences [] (map id newEmails)
        ++ first_occurrences (map id newEmails) (map id prev)
    /\ (NoDup (map id (newEmails ++ prev)) ->
        merge newEmails prev = newEmails ++ prev).
Proof.
  intros newEmails prev. split.
  - rewrite merge_ids, map_app, first_occurrences_app, app_nil_r.
    reflexivity.
  - intros Hnd. rewrite merge_unfold, fill_fresh.
    + apply entries_values.
    + simpl. now rewrite entries_keys.
Qed.

(** Two new records are put before a stored one. *)
Lemma merge_order_witness :
  merge [Sample.record "X" "Interview"; Sample.record "Y" "Offer"]
        [Sample.record "Z" "Applied"]
  = [Sample.record "X" "Interview"; Sample.record "Y" "Offer";
     Sample.record "Z" "Applied"].
Proof.
  apply (@merge_order
           [Sample.record "X" "Interview"; Sample.record "Y" "Offer"]
           [Sample.record "Z" "Applied"]).
  vm_compute. repeat constructor; simpl; intuition discriminate.
Defined.

Lemma lookup_NoDup_In (l : list JobEmail) (r : JobEmail) :
  NoDup (map id l) -> In r l -> lookup (id r) l = Some r.
Proof.
  unfold lookup. induction l as [|a l IH]; simpl; [tauto|].
  intros Hnd Hin. inversion Hnd as [|? ? Ha Hnd']; subst.
  destruct Hin as [->|Hin].
  - now rewrite eqb_refl.
  - assert (eqb (id a) (id r) = false) as ->.
    { apply eqb_false_iff. intros He. apply Ha. rewrite He. now apply in_map. }
    now apply IH.
Qed.

Lemma lookup_None_inv (x : jsstring) (l : list JobEmail) :
  lookup x l = None -> ~ In x (map id l).
Proof.
  intros Hn Hin. destruct (lookup_In_Some _ _ Hin) as [r Hr]. congruence.
Qed.

Lemma NoDup_ids_rev (l : list JobEmail) :
  NoDup (map id l) -> NoDup (map id (rev l)).
Proof.
  intros H. rewrite map_rev. now apply NoDup_rev.
Qed.

(** In a list without repeated ids the last record of an id is the
    first. *)
Lemma last_applied_NoDup (x : jsstring) (l : list JobEmail) :
  NoDup (map id l) -> last_applied x l = lookup x l.
Proof.
  intros Hnd. unfold last_applied.
  destruct (lookup x l) as [r|] eqn:E.
  - destruct (lookup_Some_id _ _ E) as [<- Hin].
    apply lookup_NoDup_In; [now apply NoDup_ids_rev | now apply in_rev in Hin].
  - apply lookup_None. rewrite map_rev, <- in_rev.
    now apply lookup_None_inv.
Qed.

Lemma NoDup_ids_records (l : list JobEmail) : NoDup (map id l) -> NoDup l.
Proof. apply NoDup_map_inv. Qed.

(** The records of the merge, when the stored set has no repeated id. *)
Lemma merge_In (newEmails prev : list JobEmail) (r : JobEmail) :
  NoDup (map id prev) ->
  In r (merge newEmails prev)
  <-> In r prev
      \/ (~ In (id r) (map id prev) /\ last_applied (id r) newEmails = Some r).
Proof.
  intros Hnd. split.
  - intros Hin.
    pose proof (lookup_NoDup_In _ _ (merge_ids_NoDup newEmails prev) Hin) as Hl.
    rewrite merge_lookup, last_applied_app in Hl.
    rewrite (@last_applied_NoDup (id r) prev Hnd) in Hl.
    destruct (lookup (id r) prev) as [r'|] eqn:E.
    + inversion Hl. subst. left. now destruct (lookup_Some_id _ _ E).
    + right. split; [now apply lookup_None_inv | assumption].
  - intros H.
    assert (lookup (id r) (merge newEmails prev) = Some r) as Hl.
    { rewrite merge_lookup, last_applied_app,
        (@last_applied_NoDup (id r) prev Hnd).
      destruct H as [Hin|[Hnot Hlast]].
      - now rewrite (lookup_NoDup_In _ _ Hnd Hin).
      - now rewrite (lookup_None _ _ Hnot). }
    now destruct (lookup_Some_id _ _ Hl).
Qed.

(** X2.  Over a stored set without repeated ids the merge keeps every
    stored record as it is and adds, for each id of the batch that the
    set does not hold, the last record the batch has for it, and nothing
    else. *)
Theorem merge_adds_fresh_ids_only :
  forall (newEmails prev : list JobEmail),
    NoDup (map id prev) ->
    (forall r, In r prev -> In r (merge newEmails prev))
    /\ (forall r, In r (merge newEmails prev) ->
          In r prev
          \/ (~ In (id r) (map id prev)
              /\ last_applied (id r) newEmails = Some r))
    /\ (forall r, ~ In (id r) (map id prev) ->
          last_applied (id r) newEmails = Some r ->
          In r (merge newEmails prev)).
Proof.
  intros newEmails prev Hnd. repeat split.
  - intros r Hin. apply merge_In; auto.
  - intros r Hin. now apply merge_In in Hin.
  - intros r Hnot Hlast. apply merge_In; auto.
Qed.

(** A batch brings a new status for X and a record Y; the set holds X:
    X stays as stored. *)
Lemma merge_adds_fresh_ids_only_witness :
  In (Sample.record "X" "Applied")
     (merge [Sample.record "X" "Interview"; Sample.record "Y" "Offer"]
            [Sample.record "X" "Applied"]).
Proof.
  destruct (@merge_adds_fresh_ids_only
              [Sample.record "X" "Interview"; Sample.record "Y" "Offer"]
              [Sample.record "X" "Applied"]) as [Hkept _].
  - vm_compute. repeat constructor; simpl; intuition discriminate.
  - apply Hkept. simpl. auto.
Defined.

(** Lists of records with the same ids in the same order, none repeated,
    and the same record for every id, are equal. *)
Lemma records_ext (l1 : list JobEmail) : forall l2,
  map id l1 = map id l2 -> NoDup (map id l1) ->
  (forall x, lookup x l1 = lookup x l2) -> l1 = l2.
Proof.
  induction l1 as [|a l1 IH]; intros [|b l2] Hids Hnd Hl;
    try discriminate; [reflexivity|].
  simpl in Hids. inversion Hids as [[Hab Ht]].
  inversion Hnd as [|? ? Ha Hnd']; subst.
  assert (a = b) as ->.
  { specialize (Hl (id a)). unfold lookup in Hl. simpl in Hl.
    rewrite eqb_refl, <- Hab, eqb_refl in Hl. congruence. }
  f_equal. apply IH; auto.
  intros x. specialize (Hl x). unfold lookup in *. simpl in Hl.
  destruct (eqb (id b) x) eqn:E; [|assumption].
  apply eqb_true_iff in E. subst x.
  fold (lookup (id b) l1). fold (lookup (id b) l2).
  rewrite !lookup_None; auto. now rewrite <- Ht.
Qed.

Lemma merge_absorbs (newEmails stored : list JobEmail) :
  NoDup (map id stored) ->
  (forall x, In x (map id newEmails) -> In x (map id stored)) ->
  forall x, lookup x (merge newEmails stored) = lookup x stored.
Proof.
  intros Hnd Hsub x.
  rewrite merge_lookup, last_applied_app,
    (@last_applied_NoDup x stored Hnd).
  destruct (lookup x stored) eqn:E; [reflexivity|].
  unfold last_applied. apply lookup_None.
  rewrite map_rev, <- in_rev. intros Hin.
  apply (lookup_None_inv _ _ E). now apply Hsub.
Qed.

(** X3.  Merging the same batch a second time changes nothing. *)
Theorem merge_idempotent :
  forall (newEmails prev : list JobEmail),
    merge newEmails (merge newEmails prev) = merge newEmails prev.
Proof.
  intros newEmails prev.
  assert (forall x, In x (map id newEmails) ->
                    In x (map id (merge newEmails prev))) as Hsub.
  { intros x Hx. apply merge_ids_In. rewrite map_app, in_app_iff. now left. }
  apply records_ext.
  - assert (map id (merge newEmails prev)
            = first_occurrences [] (map id newEmails)
                ++ first_occurrences (map id newEmails ++ []) (map id prev))
      as HM by (now rewrite merge_ids, map_app, first_occurrences_app).
    rewrite (merge_ids newEmails (merge newEmails prev)).
    rewrite map_app, first_occurrences_app, HM. f_equal.
    rewrite first_occurrences_app, first_occurrences_seen.
    2:{ intros x Hx. apply first_occurrences_In in Hx.
        rewrite in_app_iff. tauto. }
    simpl. apply first_occurrences_fresh.
    + apply first_occurrences_NoDup.
    + intros x Hx Hin. apply first_occurrences_In in Hx.
      rewrite in_app_iff in Hin. destruct Hin as [Hin|Hin]; [|tauto].
      apply first_occurrences_In in Hin. rewrite in_app_iff in Hx. tauto.
  - apply merge_ids_NoDup.
  - apply merge_absorbs; [apply merge_ids_NoDup | assumption].
Qed.

(** X4.  An update with a batch that names stored ids only adds and
    changes no record: over a stored set without repeated ids, the records
    after [updateEmailsWithNewData] are those before it in another order,
    every id keeps the record that was stored for it, and the watermark is
    set to the time of the update all the same. *)
Theorem known_batch_reorders_only :
  forall (st : State) (now : Z) (newEmails : list JobEmail),
    NoDup (map id (jobEmails st)) ->
    (forall x, In x (map id newEmails) -> In x (map id (jobEmails st))) ->
    let after := run st (updateEmailsWithNewData newEmails now) in
    Permutation (jobEmails after) (jobEmails st)
    /\ (forall x, lookup x (jobEmails after) = lookup x (jobEmails st))
    /\ lastFetchTime after = now.
Proof.
  intros st now newEmails Hnd Hsub after.
  assert (jobEmails after = merge newEmails (jobEmails st)) as ->
      by reflexivity.
  split; [|split; [|reflexivity]].
  - apply NoDup_Permutation.
    + apply NoDup_ids_records, merge_ids_NoDup.
    + now apply NoDup_ids_records.
    + intros x. rewrite (@merge_In newEmails (jobEmails st) x Hnd).
      split; [|tauto].
      intros [H|[Hnot Hlast]]; [assumption|]. exfalso. apply Hnot, Hsub.
      destruct (lookup_Some_id _ _ Hlast) as [_ Hin].
      apply in_rev in Hin. now apply in_map.
  - now apply merge_absorbs.
Qed.

(** The message that the dashboard holds as Applied comes again,
    classified Interview: the set still holds it as Applied, and the
    watermark moves from 1000 to 2000. *)
Lemma known_batch_reorders_only_witness :
  jobEmails
    (run (Sample.state [Sample.record "X" "Applied"] 1000)
         (updateEmailsWithNewData [Sample.record "X" "Interview"] 2000))
  = [Sample.record "X" "Applied"]
  /\ lastFetchTime
       (run (Sample.state [Sample.record "X" "Applied"] 1000)
            (updateEmailsWithNewData [Sample.record "X" "Interview"] 2000))
     = 2000%Z.
Proof.
  destruct (@known_batch_reorders_only
              (Sample.state [Sample.record "X" "Applied"] 1000) 2000%Z
              [Sample.record "X" "Interview"]) as (Hperm & _ & Htime).
  - vm_compute. repeat constructor; simpl; intuition discriminate.
  - vm_compute. tauto.
  - split; [|exact Htime].
    apply Permutation_length_1_inv, Permutation_sym. exact Hperm.
Defined.

End MergeLaws.

(* ================================================================== *)
(** ** The counts of the dashboard *)

Module ViewLaws.
Import JS Common Dashboard View Notions MergeProps.

Lemma statusCounts_snoc (l : list JobEmail) (e : JobEmail) :
  statusCounts (l ++ [e]) = count_step (statusCounts l) e.
Proof. unfold statusCounts. now rewrite fold_left_app. Qed.

Lemma with_status_snoc (s : jsstring) (l : list JobEmail) (e : JobEmail) :
  with_status s (l ++ [e])
  = with_status s l + (if eqb (applicationStatus e) s then 1 else 0).
Proof.
  unfold with_status. rewrite filter_app, length_app. simpl.
  destruct (eqb (applicationStatus e) s); reflexivity.
Qed.

Lemma inherited_proto : inherited (lit "__proto__") = true.
Proof. reflexivity. Qed.

Lemma not_inherited_not_proto (k : jsstring) :
  inherited k = false -> eqb k (lit "__proto__") = false.
Proof.
  intros H. apply eqb_false_iff. intros ->. rewrite inherited_proto in H.
  discriminate.
Qed.

Lemma total_set_new (k : jsstring) (n : nat) (acc : list (jsstring * cell)) :
  Map_get k acc = None ->
  total (Map_set k (Count n) acc) = n + total acc.
Proof.
  induction acc as [|[k' c] acc IH]; simpl; [lia|].
  destruct (eqb k' k); [discriminate|]. intros H. simpl.
  rewrite (IH H). destruct c; lia.
Qed.

Lemma total_set_bump (k : jsstring) (n : nat) (acc : list (jsstring * cell)) :
  Map_get k acc = Some (Count n) ->
  total (Map_set k (Count (S n)) acc) = S (total acc).
Proof.
  induction acc as [|[k' c] acc IH]; simpl; [discriminate|].
  destruct (eqb k' k).
  - intros H. inversion H. subst. simpl. lia.
  - intros H. simpl. rewrite (IH H). destruct c; lia.
Qed.

Lemma counts_get (l : list JobEmail) :
  (forall e, In e l -> inherited (applicationStatus e) = false) ->
  forall s,
    Map_get s (statusCounts l)
    = if Nat.eqb (with_status s l) 0 then None
      else Some (Count (with_status s l)).
Proof.
  induction l as [|e l IH] using rev_ind; intros Hl s; [reflexivity|].
  assert (forall e', In e' l -> inherited (applicationStatus e') = false)
    as Hl' by (intros e' He'; apply Hl, in_or_app; now left).
  specialize (IH Hl').
  assert (inherited (applicationStatus e) = false) as He
      by (apply Hl, in_or_app; right; now left).
  rewrite statusCounts_snoc, with_status_snoc. unfold count_step.
  rewrite (not_inherited_not_proto _ He), He.
  assert (match Map_get (applicationStatus e) (statusCounts l) with
          | Some (Count n) => Count (S n)
          | Some Text => Text
          | None => Count 1
          end = Count (S (with_status (applicationStatus e) l))) as ->.
  { rewrite IH.
    destruct (with_status (applicationStatus e) l); reflexivity. }
  destruct (eqb (applicationStatus e) s) eqn:E.
  - apply eqb_true_iff in E. subst s. rewrite Map_get_set_same.
    rewrite Nat.add_1_r. reflexivity.
  - rewrite Map_get_set_other, Nat.add_0_r; [apply IH|].
    apply eqb_false_iff in E. congruence.
Qed.

(** X5.  When no record has a status named like a property of
    [Object.prototype], [statusCounts] holds for every status the number
    of records with that status, and no entry for a status without
    records; the numbers add up to the number of records. *)
Theorem statusCounts_counts :
  forall (jobEmails : list JobEmail),
    (forall e, In e jobEmails -> inherited (applicationStatus e) = false) ->
    (forall s,
        Map_get s (statusCounts jobEmails)
        = if Nat.eqb (with_status s jobEmails) 0 then None
          else Some (Count (with_status s jobEmails)))
    /\ total (statusCounts jobEmails) = List.length jobEmails.
Proof.
  intros jobEmails Hl. split; [now apply counts_get|].
  induction jobEmails as [|e l IH] using rev_ind; [reflexivity|].
  assert (forall e', In e' l -> inherited (applicationStatus e') = false)
    as Hl' by (intros e' He'; apply Hl, in_or_app; now left).
  assert (inherited (applicationStatus e) = false) as He
      by (apply Hl, in_or_app; right; now left).
  rewrite statusCounts_snoc, length_app. simpl. unfold count_step.
  rewrite (not_inherited_not_proto _ He), He.
  pose proof (counts_get l Hl' (applicationStatus e)) as Hget.
  destruct (Nat.eqb (with_status (applicationStatus e) l) 0).
  - rewrite Hget, total_set_new, (IH Hl') by assumption. lia.
  - rewrite Hget, total_set_bump, (IH Hl') by assumption. lia.
Qed.

(** Two applications sent, one interview. *)
Lemma statusCounts_counts_witness :
  Map_get (lit "Applied")
          (statusCounts [Sample.record "X" "Applied";
                         Sample.record "Y" "Interview";
                         Sample.record "Z" "Applied"])
  = Some (Count 2).
Proof.
  destruct (@statusCounts_counts
              [Sample.record "X" "Applied"; Sample.record "Y" "Interview";
               Sample.record "Z" "Applied"]) as [H _].
  - intros e [<-|[<-|[<-|[]]]]; reflexivity.
  - rewrite H. reflexivity.
Defined.

(** X6.  A status named like a property of [Object.prototype] (such as
    "constructor" or "toString") never gets a number in [statusCounts],
    however many records carry it: its entry is missing or holds a
    string. *)
Theorem statusCounts_inherited_names :
  forall (jobEmails : list JobEmail) (s : jsstring),
    inherited s = true ->
    Map_get s (statusCounts jobEmails) = None
    \/ Map_get s (statusCounts jobEmails) = Some Text.
Proof.
  intros jobEmails s Hs.
  induction jobEmails as [|e l IH] using rev_ind; [now left|].
  rewrite statusCounts_snoc. unfold count_step.
  destruct (eqb (applicationStatus e) (lit "__proto__")); [assumption|].
  destruct (eqb (applicationStatus e) s) eqn:E.
  - apply eqb_true_iff in E. rewrite E, Map_get_set_same, Hs.
    right. destruct IH as [-> | ->]; reflexivity.
  - rewrite Map_get_set_other; [assumption|].
    apply eqb_false_iff in E. congruence.
Qed.

(** Two records whose status is "constructor". *)
Lemma statusCounts_inherited_names_witness :
  Map_get (lit "constructor")
          (statusCounts [Sample.record "X" "constructor";
                         Sample.record "Y" "constructor"])
  = Some Text.
Proof.
  destruct (@statusCounts_inherited_names
              [Sample.record "X" "constructor"; Sample.record "Y" "constructor"]
              (lit "constructor") eq_refl) as [H|H].
  - vm_compute in H. discriminate H.
  - exact H.
Defined.

End ViewLaws.

(* ================================================================== *)
(** ** More on the routes *)

Module RouteLaws.
Import JS DateTime Common Http Spec Notions.

Lemma Promise_all_Ok {A} (l : list (result A)) : forall r,
  Promise_all l = Ok r <-> l = map Ok r.
Proof.
  induction l as [|p l IH]; intros r; simpl.
  - split.
    + intros H. inversion H. reflexivity.
    + destruct r; [reflexivity | discriminate].
  - destruct p as [a|e].
    + destruct (Promise_all l) as [r'|e'] eqn:E; simpl.
      * split.
        -- intros H. inversion H. subst. simpl. f_equal. now apply IH.
        -- destruct r as [|a' r]; [discriminate|]. simpl. intros H.
           inversion H. subst. f_equal. f_equal.
           assert (Ok r' = Ok r) as Hr by (apply IH; reflexivity).
           now inversion Hr.
      * split; [discriminate|].
        destruct r as [|a' r]; [discriminate|]. simpl. intros H.
        inversion H. subst.
        assert (@Throw (list A) e' = Ok r) as Hr by (apply IH; reflexivity).
        discriminate Hr.
    + split; [discriminate|]. destruct r; discriminate.
Qed.

Lemma Promise_all_Throw {A} (l : list (result A)) (e : error) :
  Promise_all l = Throw e -> In (Throw e) l.
Proof.
  induction l as [|p l IH]; simpl; [discriminate|].
  destruct p as [a|e0].
  - destruct (Promise_all l) as [r'|e'] eqn:E; simpl; [discriminate|].
    intros H. inversion H. subst. right. now apply IH.
  - intros H. inversion H. now left.
Qed.

Section FullSync.
Variable decode : jsstring -> jsstring.
Variable Date_parse : jsstring -> option Z.
Variable generateContent : jsstring -> jsstring -> jsstring -> result jsstring.
Variable JSON_parse : jsstring -> result AIAnalysisResult.
Variable session : option Session.
Variable messages_list :
  jsstring -> jsstring -> nat -> result (option (list Message)).
Variable messages_get : jsstring -> option jsstring -> result Message.

Lemma GET_with_messages token data :
  access_token session = Some token ->
  messages_list token job_query 100 = Ok data ->
  Route.GET decode Date_parse generateContent JSON_parse session
            messages_list messages_get
  = match Promise_all
            (map (fun message =>
                    bind (messages_get token (msg_id message))
                         (Route.extractEmailInfo decode Date_parse
                            generateContent JSON_parse))
                 match data with Some l => l | None => [] end) with
    | Ok records => respond (Records records)
    | Throw e =>
        respond_with (Object [("error", lit "Failed to fetch emails");
                              ("details", error_toString e)]) 500
    end.
Proof.
  intros Htok Hlist. unfold Route.GET, Route.try_block.
  rewrite Htok, Hlist. cbn [bind].
  destruct (match data with Some l => l | None => [] end) as [|m ms];
    [reflexivity|].
  destruct (Promise_all _); reflexivity.
Qed.
End FullSync.

(** X7.  The full sync is all or nothing.  With a credential and a list
    call that succeeds, the route answers with the array of records
    exactly when the get and the classification of every listed message
    succeed, and the array then holds their records, one per message, in
    the order of the listing; as soon as one of them fails the answer is
    500 and carries no record. *)
Theorem full_sync_all_or_nothing :
  forall (decode : jsstring -> jsstring)
         (Date_parse : jsstring -> option Z)
         (generateContent : jsstring -> jsstring -> jsstring -> result jsstring)
         (JSON_parse : jsstring -> result AIAnalysisResult)
         (session : option Session)
         (messages_list :
            jsstring -> jsstring -> nat -> result (option (list Message)))
         (messages_get : jsstring -> option jsstring -> result Message)
         (token : jsstring) (data : option (list Message)),
    access_token session = Some token ->
    messages_list token job_query 100 = Ok data ->
    let messages := match data with Some l => l | None => [] end in
    let classify := fun message =>
      bind (messages_get token (msg_id message))
           (Route.extractEmailInfo decode Date_parse generateContent
                                   JSON_parse) in
    let response :=
      Route.GET decode Date_parse generateContent JSON_parse session
                messages_list messages_get in
    (forall records,
        response = respond (Records records)
        <-> map classify messages = map Ok records)
    /\ (forall m, In m messages -> fails (messages_get token)
                    (Route.extractEmailInfo decode Date_parse generateContent
                                            JSON_parse) (msg_id m) ->
        status response = 500 /\ no_record response).
Proof.
  intros decode Date_parse generateContent JSON_parse session messages_list
         messages_get token data Htok Hlist messages classify response.
  unfold response.
  rewrite (GET_with_messages decode Date_parse generateContent JSON_parse
             session messages_list messages_get Htok Hlist).
  fold messages. fold classify. split.
  - intros records.
    destruct (Promise_all (map classify messages)) as [r|e] eqn:E.
    + apply Promise_all_Ok in E. rewrite E. split.
      * intros H. inversion H. reflexivity.
      * intros H. f_equal. f_equal.
        clear -H. revert records H.
        induction r as [|a r IH]; intros [|b records] H;
          try discriminate; [reflexivity|].
        simpl in H. inversion H. f_equal. now apply IH.
    + split; [discriminate|]. intros H.
      apply Promise_all_Ok in H. congruence.
  - intros m Hin [e He].
    destruct (Promise_all (map classify messages)) as [r|e'] eqn:E.
    + apply Promise_all_Ok in E.
      assert (In (classify m) (map classify messages)) as Hm
          by now apply in_map.
      rewrite E in Hm. apply in_map_iff in Hm. destruct Hm as (x & Hx & _).
      unfold classify in Hx. rewrite He in Hx. discriminate.
    + split; [reflexivity|]. right. eexists. reflexivity.
Qed.

(** One listed message, undated but for a header that is no date. *)
Lemma full_sync_all_or_nothing_witness :
  status (Route.GET Sample.decode Sample.Date_parse
            Sample.generateContent_down Sample.JSON_parse Sample.session
            Sample.list_one (Sample.get_message Sample.undated)) = 500.
Proof.
  destruct (@full_sync_all_or_nothing Sample.decode Sample.Date_parse
              Sample.generateContent_down Sample.JSON_parse Sample.session
              Sample.list_one (Sample.get_message Sample.undated)
              (lit "ya29.token") (Some [mkMessage (Some (lit "m1")) None])
              eq_refl eq_refl) as [_ H].
  apply (H (mkMessage (Some (lit "m1")) None)).
  - now left.
  - eexists. vm_compute. reflexivity.
Defined.

Section Incremental.
Variable session : option Session.
Variable messages_list :
  jsstring -> jsstring -> nat -> result (option (list Message)).
Variable messages_get : jsstring -> option jsstring -> result Message.

Lemma new_route_call_throws token (m : Message) :
  exists e,
    bind (messages_get token (msg_id m)) NewRoute.extractEmailInfo = Throw e.
Proof.
  destruct (messages_get token (msg_id m)); eexists; reflexivity.
Qed.

Lemma new_route_try_block token q :
  match NewRoute.try_block messages_list messages_get token q 1000 with
  | Ok r => r = respond (Records [])
  | Throw _ => True
  end.
Proof.
  unfold NewRoute.try_block.
  destruct (messages_list token q 1000) as [data|e]; simpl; [|exact I].
  destruct (match data with Some l => l | None => [] end) as [|m ms];
    [reflexivity|].
  simpl. destruct (new_route_call_throws token m) as [e ->]. exact I.
Qed.

Lemma POST_no_record request r :
  NewRoute.POST session messages_list messages_get request = Ok r ->
  no_record r.
Proof.
  unfold NewRoute.POST.
  destruct (access_token session) as [token|].
  - destruct request as [lastFetchTime|e]; simpl; [|discriminate].
    destruct (NewRoute.afterDate_of lastFetchTime) as [afterDate|e]; simpl;
      [|discriminate].
    pose proof (new_route_try_block token (NewRoute.new_query afterDate)) as H.
    destruct (NewRoute.try_block _ _ _ _ _) as [r'|e].
    + intros E. inversion E. subst. left. reflexivity.
    + intros E. inversion E. right. eexists. reflexivity.
  - intros E. inversion E. right. eexists. reflexivity.
Qed.
End Incremental.

(** X8.  The incremental route as shipped never delivers a record:
    whatever the session, the provider and the request, a response of
    [POST] is an error object or the empty array.  The call of
    [extractEmailInfo], which the module does not define, fails for every
    listed message. *)
Theorem incremental_route_delivers_no_record :
  forall (session : option Session)
         (messages_list :
            jsstring -> jsstring -> nat -> result (option (list Message)))
         (messages_get : jsstring -> option jsstring -> result Message)
         (request : result (option Z)) (r : Response Route.EmailInfo),
    NewRoute.POST session messages_list messages_get request = Ok r ->
    no_record r
    /\ (status r = 200 -> json r = Records [])
    /\ (status r = 200 \/ status r = 401 \/ status r = 500).
Proof.
  intros session messages_list messages_get request r E.
  split; [now apply (POST_no_record _ _ _ _ E)|].
  unfold NewRoute.POST in E.
  destruct (access_token session) as [token|].
  - destruct request as [lastFetchTime|e]; simpl in E; [|discriminate].
    destruct (NewRoute.afterDate_of lastFetchTime) as [afterDate|e];
      simpl in E; [|discriminate].
    pose proof (new_route_try_block messages_list messages_get token
                  (NewRoute.new_query afterDate)) as H.
    destruct (NewRoute.try_block _ _ _ _ _) as [r'|e];
      inversion E; subst; simpl; auto.
    split; [discriminate | auto].
  - inversion E. simpl. split; [discriminate | auto].
Qed.

(** The provider lists one message, which the get returns. *)
Lemma incremental_route_delivers_no_record_witness :
  no_record (respond_with
               (@Object Route.EmailInfo
                  [("error", lit "Failed to fetch new emails")]) 500).
Proof.
  apply (@incremental_route_delivers_no_record Sample.session Sample.list_one
           (Sample.get_message Sample.acme_bare) (Ok (Some 0%Z))).
  reflexivity.
Defined.

(** A response without records leaves the dashboard as it is. *)
Lemma pass_without_records ui st now (r : result (Response Route.EmailInfo)) :
  match r with Ok r' => no_record r' | Throw _ => True end ->
  let trace := Dashboard.checkNewEmails ui st (Ok (Dashboard.received r)) now in
  Dashboard.lastFetchTime (Dashboard.run st trace) = Dashboard.lastFetchTime st
  /\ Dashboard.jobEmails (Dashboard.run st trace) = Dashboard.jobEmails st
  /\ Dashboard.watermark_writes trace = 0.
Proof.
  intros Hr.
  destruct (Dashboard.ok (Dashboard.received r)) eqn:Hok;
    [|now apply SyncProps.check_not_ok].
  unfold Dashboard.checkNewEmails.
  destruct (negb ui || Dashboard.loading st); [simpl; auto|].
  cbn [bind]. rewrite Hok. cbn [negb].
  destruct r as [r'|e]; [|discriminate Hok].
  destruct Hr as [Hr|[fields Hr]]; simpl; rewrite Hr; simpl; auto.
Qed.

(** X9.  With the incremental route as shipped, a polling pass of the
    dashboard never changes the records nor the watermark and never
    writes the watermark, whatever the provider returns. *)
Theorem polling_never_updates :
  forall (ui : bool) (st : Dashboard.State) (now : Z)
         (session : option Session)
         (messages_list :
            jsstring -> jsstring -> nat -> result (option (list Message)))
         (messages_get : jsstring -> option jsstring -> result Message)
         (request : result (option Z)),
    let trace :=
      Dashboard.checkNewEmails ui st
        (Ok (Dashboard.received
               (NewRoute.POST session messages_list messages_get request)))
        now in
    Dashboard.lastFetchTime (Dashboard.run st trace)
    = Dashboard.lastFetchTime st
    /\ Dashboard.jobEmails (Dashboard.run st trace) = Dashboard.jobEmails st
    /\ Dashboard.watermark_writes trace = 0.
Proof.
  intros ui st now session messages_list messages_get request.
  apply pass_without_records.
  destruct (NewRoute.POST session messages_list messages_get request)
    as [r|e] eqn:E; [|exact I].
  now apply (POST_no_record _ _ _ _ E).
Qed.

(** X10.  With a credential, what goes wrong before the [try] of the
    incremental route leaves the handler as an exception instead of a JSON
    answer, and the provider is not asked: a request whose body cannot be
    read, a body without [lastFetchTime], and a [lastFetchTime] beyond
    8.64e15 ms in absolute value. *)
Theorem incremental_route_bad_request :
  forall (session : option Session)
         (messages_list :
            jsstring -> jsstring -> nat -> result (option (list Message)))
         (messages_get : jsstring -> option jsstring -> result Message)
         (token : jsstring),
    access_token session = Some token ->
    (forall e, NewRoute.POST session messages_list messages_get (Throw e)
               = Throw e)
    /\ NewRoute.POST session messages_list messages_get (Ok None)
       = Throw (RangeError (lit "Invalid time value"))
    /\ (forall t, (8640000000000000 < Z.abs t)%Z ->
          NewRoute.POST session messages_list messages_get (Ok (Some t))
          = Throw (RangeError (lit "Invalid time value"))).
Proof.
  intros session messages_list messages_get token Htok.
  unfold NewRoute.POST. rewrite Htok. repeat split.
  intros t Ht. cbn [bind]. unfold NewRoute.afterDate_of, TimeClip.
  destruct (Z.leb_spec (Z.abs t) 8640000000000000); [lia | reflexivity].
Qed.

(** A watermark of 9e15 ms. *)
Lemma incremental_route_bad_request_witness :
  NewRoute.POST Sample.session Sample.list_one
                (Sample.get_message Sample.acme_bare)
                (Ok (Some 9000000000000000%Z))
  = Throw (RangeError (lit "Invalid time value")).
Proof.
  destruct (@incremental_route_bad_request Sample.session Sample.list_one
              (Sample.get_message Sample.acme_bare) (lit "ya29.token")
              eq_refl) as (_ & _ & H).
  apply H. reflexivity.
Defined.

(** X11.  [getGmailMessages] returns the messages that the gets return,
    one per listed message and in the order of the listing, exactly when
    the list call and every get succeed; otherwise it throws, and the
    error is the one of the list call or of one of the gets. *)
Theorem getGmailMessages_all_or_nothing :
  forall (messages_list :
            jsstring -> jsstring -> nat -> result (option (list Message)))
         (messages_get : jsstring -> option jsstring -> result Message)
         (accessToken : jsstring),
    (forall details,
        GmailUtil.getGmailMessages messages_list messages_get accessToken
        = Ok details
        <-> exists data,
            messages_list accessToken GmailUtil.query 1000 = Ok data
            /\ map (fun message => messages_get accessToken (msg_id message))
                   match data with Some l => l | None => [] end
               = map Ok details)
    /\ (forall e,
          GmailUtil.getGmailMessages messages_list messages_get accessToken
          = Throw e ->
          messages_list accessToken GmailUtil.query 1000 = Throw e
          \/ exists data m,
              messages_list accessToken GmailUtil.query 1000 = Ok data
              /\ In m match data with Some l => l | None => [] end
              /\ messages_get accessToken (msg_id m) = Throw e).
Proof.
  intros messages_list messages_get accessToken.
  unfold GmailUtil.getGmailMessages. split.
  - intros details.
    destruct (messages_list accessToken GmailUtil.query 1000) as [data|e];
      simpl.
    + rewrite Promise_all_Ok. split.
      * intros H. exists data. auto.
      * intros (data' & Hd & H). inversion Hd. now subst.
    + split; [discriminate|]. intros (data' & Hd & _). discriminate.
  - intros e.
    destruct (messages_list accessToken GmailUtil.query 1000) as [data|e'];
      simpl.
    + intros H. apply Promise_all_Throw in H. right.
      apply in_map_iff in H. destruct H as (m & Hm & Hin).
      exists data, m. auto.
    + intros H. inversion H. now left.
Qed.

End RouteLaws.

(* ================================================================== *)
(** ** More on the classification *)

Module ClassifyLaws.
Import JS Regex DateTime Common Http Spec Notions.

(** *** Facts about the matcher *)

(** A greedy repetition fails when its continuation fails wherever the
    repetition may stop. *)
Lemma star_greedy_none {A} (p : char -> bool) (k : cont A) (c : captures)
      (b : jsstring) : forall j,
  (forall b1 b2, b = b1 ++ b2 -> k (j + List.length b1) b2 c = None) ->
  star_greedy p k j b c = None.
Proof.
  induction b as [|x b IH]; intros j H; simpl.
  - specialize (H [] [] eq_refl). simpl in H. now rewrite Nat.add_0_r in H.
  - assert (k j (x :: b) c = None) as Hk.
    { specialize (H [] (x :: b) eq_refl). simpl in H.
      now rewrite Nat.add_0_r in H. }
    destruct (p x); [|assumption].
    rewrite IH; [assumption|].
    intros b1 b2 E. specialize (H (x :: b1) b2). simpl in H.
    rewrite Nat.add_succ_r in H. apply H. now rewrite E.
Qed.

(** A greedy repetition gives way to the last place at which its
    continuation succeeds. *)
Lemma star_greedy_last {A} (p : char -> bool) (k : cont A) (c : captures)
      (a b : jsstring) (r : A) : forall i,
  (forall x, In x a -> p x = true) ->
  (forall b1 b2, b = b1 ++ b2 -> b1 <> [] ->
                 k (i + List.length a + List.length b1) b2 c = None) ->
  k (i + List.length a) b c = Some r ->
  star_greedy p k i (a ++ b) c = Some r.
Proof.
  induction a as [|x a IH]; intros i Ha Hb Hk; simpl.
  - simpl in Hk, Hb. rewrite Nat.add_0_r in Hk.
    destruct b as [|y b]; simpl; [assumption|].
    destruct (p y); [|assumption].
    rewrite star_greedy_none; [assumption|].
    intros b1 b2 E. specialize (Hb (y :: b1) b2). simpl in Hb.
    rewrite Nat.add_0_r, Nat.add_succ_r in Hb. apply Hb; [|discriminate].
    now rewrite E.
  - rewrite (Ha x (or_introl eq_refl)).
    rewrite (IH (S i)); [reflexivity | | |].
    + intros y Hy. apply Ha. now right.
    + intros b1 b2 E Hne. specialize (Hb b1 b2 E Hne). simpl in Hb.
      rewrite Nat.add_succ_r in Hb. exact Hb.
    + simpl in Hk. rewrite Nat.add_succ_r in Hk. exact Hk.
Qed.

(** A search for a pattern that starts with a unit of a class finds
    nothing in a text without such a unit. *)
Lemma search_no_start (p : char -> bool) (r : regex) (s : jsstring) :
  forall i, (forall x, In x s -> p x = false) ->
            search (Cat (Set_ p) r) i s = None.
Proof.
  induction s as [|x s IH]; intros i H; simpl; [reflexivity|].
  rewrite (H x (or_introl eq_refl)). apply IH.
  intros y Hy. apply H. now right.
Qed.

Lemma firstn_enclosed (open close : char) (inner rest : jsstring) :
  firstn (S (S (List.length inner))) ([open] ++ inner ++ [close] ++ rest)
  = enclosed open close inner.
Proof.
  unfold enclosed. simpl. f_equal.
  induction inner as [|x inner IH]; simpl; [reflexivity|]. now f_equal.
Qed.

(** The object of the model's answer runs from the first [{] to the last
    [}]. *)
Lemma exec_json_object (pre mid post : jsstring) :
  ~ In 123%N pre -> ~ In 125%N post ->
  exec json_object (pre ++ [123%N] ++ mid ++ [125%N] ++ post)
  = Some (MatchResult (List.length pre) (enclosed 123%N 125%N mid) []).
Proof.
  intros Hpre Hpost. unfold exec.
  assert (json_object
          = Cat (Set_ (chr "{"))
                (Cat (Star true (fun _ => true)) (Set_ (chr "}"))))
    as Hpat by reflexivity.
  rewrite Hpat, HeuristicProps.search_skip.
  2:{ intros x Hx. unfold chr. apply N.eqb_neq. intros ->. now apply Hpre. }
  cbn [app search run plus Nat.add].
  change (chr "{" 123%N) with true. cbv iota.
  rewrite (@star_greedy_last _ (fun _ => true) (run (Set_ (chr "}")) (@accept))
             [] mid (125%N :: post)
             (S (S (List.length pre) + List.length mid), [])).
  - replace (S (S (List.length pre) + List.length mid) - List.length pre)
      with (S (S (List.length mid))) by lia.
    now rewrite <- (firstn_enclosed 123%N 125%N mid post).
  - reflexivity.
  - intros b1 b2 E Hne. destruct b1 as [|y b1]; [congruence|].
    inversion E. subst. destruct b2 as [|z b2]; [reflexivity|].
    cbn [run].
    assert (chr "}" z = false) as ->; [|reflexivity].
    unfold chr. apply N.eqb_neq. intros ->. apply Hpost.
    apply in_or_app. right. now left.
  - cbn [run]. change (chr "}" 125%N) with true. cbv iota. reflexivity.
Qed.

(** X12.  The JSON that [analyzeEmailWithAI] parses is the text of the
    model's answer from its first [{] to its last [}], whatever stands
    between them: when the answer has a [{] and a [}] after it, the result
    is what [JSON.parse] makes of that span, [null] if it throws; an
    answer without [{] gives [null]. *)
Theorem ai_json_is_first_to_last_brace :
  forall (generateContent : jsstring -> jsstring -> jsstring -> result jsstring)
         (JSON_parse : jsstring -> result AIAnalysisResult)
         (subject body from : jsstring),
    (forall pre mid post,
        generateContent subject from (substring0 1000 body)
        = Ok (pre ++ [123%N] ++ mid ++ [125%N] ++ post) ->
        ~ In 123%N pre -> ~ In 125%N post ->
        analyzeEmailWithAI generateContent JSON_parse subject body from
        = match JSON_parse (enclosed 123%N 125%N mid) with
          | Ok parsed => Some parsed
          | Throw _ => None
          end)
    /\ (forall text,
          generateContent subject from (substring0 1000 body) = Ok text ->
          ~ In 123%N text ->
          analyzeEmailWithAI generateContent JSON_parse subject body from
          = None).
Proof.
  intros generateContent JSON_parse subject body from. split.
  - intros pre mid post Hgen Hpre Hpost. unfold analyzeEmailWithAI.
    rewrite Hgen, exec_json_object by assumption. reflexivity.
  - intros text Hgen Hno. unfold analyzeEmailWithAI. rewrite Hgen.
    unfold exec.
    assert (json_object
            = Cat (Set_ (chr "{"))
                  (Cat (Star true (fun _ => true)) (Set_ (chr "}"))))
      as -> by reflexivity.
    rewrite search_no_start; [reflexivity|].
    intros x Hx. unfold chr. apply N.eqb_neq. intros ->. now apply Hno.
Qed.

(** A model that answers with prose around two objects. *)
Lemma ai_json_is_first_to_last_brace_witness :
  analyzeEmailWithAI
    (fun _ _ _ => Ok (lit "Sure: " ++ [123%N] ++ lit "a} and {b" ++ [125%N]
                        ++ lit " done"))
    Sample.JSON_parse [] [] []
  = None.
Proof.
  destruct (@ai_json_is_first_to_last_brace
              (fun _ _ _ => Ok (lit "Sure: " ++ [123%N] ++ lit "a} and {b"
                                  ++ [125%N] ++ lit " done"))
              Sample.JSON_parse [] [] []) as [H _].
  rewrite (H (lit "Sure: ") (lit "a} and {b") (lit " done")).
  - reflexivity.
  - reflexivity.
  - vm_compute. intuition discriminate.
  - vm_compute. intuition discriminate.
Defined.

Lemma date_field_same (Date_parse : jsstring -> option Z)
      (date : option jsstring) {A B}
      (f : option jsstring -> A) (g : option jsstring -> B) :
  match bind (date_field Date_parse date) (fun d => Ok (f d)),
        bind (date_field Date_parse date) (fun d => Ok (g d)) with
  | Ok a, Ok b => exists d, a = f d /\ b = g d
  | Throw e1, Throw e2 => e1 = e2
  | _, _ => False
  end.
Proof.
  destruct (date_field Date_parse date) as [d|e]; simpl; eauto.
Qed.

(** X14.  The AI service has no say in whether a message is classified
    nor in the fields read from the headers: with any two services, both
    classifications of a message throw the same error, or both return a
    record, with the same date, subject and sender (and, in [part_001],
    the same id). *)
Theorem header_fields_ignore_the_ai :
  forall (lower_other upper_other : jsstring -> char -> jsstring -> jsstring)
         (decode : jsstring -> jsstring)
         (Date_parse : jsstring -> option Z)
         (generate1 generate2 :
            jsstring -> jsstring -> jsstring -> result jsstring)
         (parse1 parse2 : jsstring -> result AIAnalysisResult)
         (details : Message),
    match Heuristic.extractEmailInfo lower_other upper_other decode
            Date_parse generate1 parse1 details,
          Heuristic.extractEmailInfo lower_other upper_other decode
            Date_parse generate2 parse2 details with
    | Ok r1, Ok r2 =>
        Heuristic.id r1 = Heuristic.id r2
        /\ Heuristic.date r1 = Heuristic.date r2
        /\ Heuristic.originalSubject r1 = Heuristic.originalSubject r2
        /\ Heuristic.from r1 = Heuristic.from r2
    | Throw e1, Throw e2 => e1 = e2
    | _, _ => False
    end
    /\ match Route.extractEmailInfo decode Date_parse generate1 parse1 details,
             Route.extractEmailInfo decode Date_parse generate2 parse2 details
       with
       | Ok r1, Ok r2 =>
           Route.date r1 = Route.date r2
           /\ Route.originalSubject r1 = Route.originalSubject r2
           /\ Route.from r1 = Route.from r2
       | Throw e1, Throw e2 => e1 = e2
       | _, _ => False
       end.
Proof.
  intros lower_other upper_other decode Date_parse generate1 generate2
         parse1 parse2 details.
  unfold Heuristic.extractEmailInfo, Route.extractEmailInfo. split.
  - destruct (date_field Date_parse _) as [d|e];
      destruct (analyzeEmailWithAI generate1 parse1 _ _ _);
      destruct (analyzeEmailWithAI generate2 parse2 _ _ _);
      simpl; auto.
  - destruct (date_field Date_parse _) as [d|e];
      destruct (analyzeEmailWithAI generate1 parse1 _ _ _);
      destruct (analyzeEmailWithAI generate2 parse2 _ _ _);
      simpl; auto.
Qed.

(** X15.  In [part_001] the three classification fields of a record are
    those of the AI result, taken as they are, when there is one; without
    an AI result the status is one of Applied, Application Received,
    Interview, Rejected and Offer. *)
Theorem status_is_checked_on_fallback_only :
  forall (lower_other upper_other : jsstring -> char -> jsstring -> jsstring)
         (decode : jsstring -> jsstring)
         (Date_parse : jsstring -> option Z)
         (generateContent : jsstring -> jsstring -> jsstring -> result jsstring)
         (JSON_parse : jsstring -> result AIAnalysisResult)
         (details : Message) (r : Heuristic.EmailInfo),
    Heuristic.extractEmailInfo lower_other upper_other decode Date_parse
                               generateContent JSON_parse details = Ok r ->
    match analyzeEmailWithAI generateContent JSON_parse (subject_of details)
            (body_of decode details) (from_of details) with
    | Some aiResult =>
        Heuristic.companyName r = ai_companyName aiResult
        /\ Heuristic.jobProfile r = ai_jobProfile aiResult
        /\ Heuristic.applicationStatus r = ai_applicationStatus aiResult
    | None => In (Heuristic.applicationStatus r) statuses
    end.
Proof.
  intros lower_other upper_other decode Date_parse generateContent JSON_parse
         details r E.
  unfold Heuristic.extractEmailInfo in E.
  unfold subject_of, body_of, from_of.
  destruct (analyzeEmailWithAI _ _ _ _ _) as [aiResult|].
  - destruct (date_field Date_parse _); simpl in E; [|discriminate].
    inversion E. subst. simpl. auto.
  - destruct (date_field Date_parse _); simpl in E; [|discriminate].
    inversion E. subst. cbn [Heuristic.applicationStatus].
    rewrite HeuristicProps.status_chain. cbv zeta. unfold statuses.
    repeat match goal with
           | |- context [if ?b then _ else _] => destruct b
           end; simpl; auto 10.
Qed.

(** The rejection example, with the model service down. *)
Lemma status_is_checked_on_fallback_only_witness :
  exists r,
    Heuristic.extractEmailInfo Sample.case_other Sample.case_other
      Sample.decode Sample.Date_parse Sample.generateContent_down
      Sample.JSON_parse Sample.rejection = Ok r
    /\ In (Heuristic.applicationStatus r) statuses.
Proof.
  destruct (Heuristic.extractEmailInfo Sample.case_other Sample.case_other
              Sample.decode Sample.Date_parse Sample.generateContent_down
              Sample.JSON_parse Sample.rejection) as [r|e] eqn:E.
  - exists r. split; [reflexivity|].
    exact (@status_is_checked_on_fallback_only Sample.case_other
             Sample.case_other Sample.decode Sample.Date_parse
             Sample.generateContent_down Sample.JSON_parse Sample.rejection
             r E).
  - vm_compute in E. discriminate E.
Defined.

Lemma run_angle_address (addr rest : jsstring) (i : nat) :
  addr <> [] -> ~ In 62%N addr ->
  run angle_address (@accept) i ([60%N] ++ addr ++ [62%N] ++ rest) []
  = Some (S (S (i + List.length addr)), []).
Proof.
  intros Hne Hgt. destruct addr as [|d addr']; [congruence|].
  assert (forall x, In x (d :: addr') -> negb (chr ">" x) = true) as Hall.
  { intros x Hx. unfold chr. apply negb_true_iff, N.eqb_neq.
    intros ->. now apply Hgt. }
  unfold angle_address, plus. cbn [cats app run].
  change (chr "<" 60%N) with true. cbv iota.
  rewrite (Hall d (or_introl eq_refl)).
  apply HeuristicProps.star_greedy_stop.
  - intros x Hx. apply Hall. now right.
  - reflexivity.
  - cbn [run]. change (chr ">" 62%N) with true. cbv iota. unfold accept.
    repeat f_equal. cbn [List.length]. lia.
Qed.

Lemma skipn_enclosed (open close : char) (inner rest : jsstring) :
  skipn (List.length (enclosed open close inner))
        ([open] ++ inner ++ [close] ++ rest) = rest.
Proof.
  unfold enclosed. simpl.
  induction inner as [|x inner IH]; simpl; [reflexivity | exact IH].
Qed.

Lemma exec_angle_address (name addr rest : jsstring) :
  ~ In 60%N name -> addr <> [] -> ~ In 62%N addr ->
  exec angle_address (name ++ [60%N] ++ addr ++ [62%N] ++ rest)
  = Some (MatchResult (List.length name) (enclosed 60%N 62%N addr) []).
Proof.
  intros Hname Hne Hgt. unfold exec.
  assert (angle_address
          = Cat (Set_ (chr "<"))
                (Cat (plus (fun c => negb (chr ">" c))) (Set_ (chr ">"))))
    as Hpat by reflexivity.
  rewrite Hpat, HeuristicProps.search_skip.
  2:{ intros x Hx. unfold chr. apply N.eqb_neq. intros ->. now apply Hname. }
  rewrite <- Hpat.
  destruct ([60%N] ++ addr ++ [62%N] ++ rest) as [|y t] eqn:E;
    [discriminate|].
  cbn [search]. rewrite <- E, run_angle_address by assumption.
  cbn [Nat.add].
  replace (S (S (List.length name + List.length addr)) - List.length name)
    with (S (S (List.length addr))) by lia.
  now rewrite firstn_enclosed.
Qed.

(** X16.  The sender shown in a record: when the From header holds an
    address in angle brackets, the first such group is cut out and the
    rest is trimmed, whatever follows it; a header without [<] is only
    trimmed. *)
Theorem display_from_cuts_first_address :
  (forall name addr rest : jsstring,
      ~ In 60%N name -> addr <> [] -> ~ In 62%N addr ->
      display_from (name ++ [60%N] ++ addr ++ [62%N] ++ rest)
      = trim (name ++ rest))
  /\ (forall from : jsstring, ~ In 60%N from -> display_from from = trim from).
Proof.
  split.
  - intros name addr rest Hname Hne Hgt. unfold display_from, remove_first.
    rewrite exec_angle_address by assumption. cbn [index matched].
    f_equal. rewrite firstn_app, Nat.sub_diag, firstn_all. cbn [firstn].
    rewrite app_nil_r. f_equal.
    rewrite skipn_app, skipn_all2 by lia.
    replace (List.length name + List.length (enclosed 60%N 62%N addr)
             - List.length name)
      with (List.length (enclosed 60%N 62%N addr)) by lia.
    cbn [app]. apply (skipn_enclosed 60%N 62%N addr rest).
  - intros from Hno. unfold display_from, remove_first, exec.
    assert (angle_address
            = Cat (Set_ (chr "<"))
                  (Cat (plus (fun c => negb (chr ">" c))) (Set_ (chr ">"))))
      as -> by reflexivity.
    rewrite search_no_start; [reflexivity|].
    intros x Hx. unfold chr. apply N.eqb_neq. intros ->. now apply Hno.
Qed.

(** The sender "Acme Talent <jobs@acme.com>". *)
Lemma display_from_cuts_first_address_witness :
  display_from (lit "Acme Talent " ++ [60%N] ++ lit "jobs@acme.com"
                  ++ [62%N] ++ [])
  = lit "Acme Talent".
Proof.
  destruct display_from_cuts_first_address as [H _].
  refine (eq_trans (H (lit "Acme Talent ") (lit "jobs@acme.com") [] _ _ _) _).
  - vm_compute. intuition discriminate.
  - discriminate.
  - vm_compute. intuition discriminate.
  - vm_compute. reflexivity.
Defined.

(** *** Patterns without a capture group *)

Lemma star_greedy_passes {A} (p : char -> bool) (k : cont A) (c : captures)
      (a : A) (s : jsstring) : forall i,
  star_greedy p k i s c = Some a -> exists i' s', k i' s' c = Some a.
Proof.
  induction s as [|x s IH]; intros i; simpl; [eauto|].
  destruct (p x); [|eauto].
  destruct (star_greedy p k (S i) s c) eqn:E.
  - intros H. inversion H. subst. eapply IH. eassumption.
  - eauto.
Qed.

Lemma star_lazy_passes {A} (p : char -> bool) (k : cont A) (c : captures)
      (a : A) (s : jsstring) : forall i,
  star_lazy p k i s c = Some a -> exists i' s', k i' s' c = Some a.
Proof.
  induction s as [|x s IH]; intros i; simpl.
  - destruct (k i [] c) eqn:E; [|discriminate].
    intros H. inversion H. subst. eauto.
  - destruct (k i (x :: s) c) eqn:E.
    + intros H. inversion H. subst. eauto.
    + destruct (p x); [apply IH | discriminate].
Qed.

(** A pattern without a group hands to its continuation the captures it
    was given. *)
Lemma run_groupless {A} (r : regex) :
  groupless r = true ->
  forall (k : cont A) i s c a,
    run r k i s c = Some a -> exists i' s', k i' s' c = Some a.
Proof.
  induction r as [|p|r1 IH1 r2 IH2|r1 IH1 r2 IH2|g p|n r IH| |];
    simpl; intros Hg k i s c a H.
  - eauto.
  - destruct s as [|x s]; [discriminate|].
    destruct (p x); [eauto | discriminate].
  - apply andb_true_iff in Hg. destruct Hg as [Hg1 Hg2].
    destruct (IH1 Hg1 _ _ _ _ _ H) as (i1 & s1 & H1).
    now apply (IH2 Hg2 _ _ _ _ _ H1).
  - apply andb_true_iff in Hg. destruct Hg as [Hg1 Hg2].
    destruct (run r1 k i s c) eqn:E.
    + inversion H. subst. now apply (IH1 Hg1 _ _ _ _ _ E).
    + now apply (IH2 Hg2 _ _ _ _ _ H).
  - destruct g; [eapply star_greedy_passes | eapply star_lazy_passes];
      eassumption.
  - discriminate.
  - destruct (Nat.eqb i 0); [eauto | discriminate].
  - destruct s; [eauto | discriminate].
Qed.

Lemma search_groupless (r : regex) (s : jsstring) :
  groupless r = true ->
  forall i m, search r i s = Some m -> groups m = [].
Proof.
  intros Hg. induction s as [|x s IH]; intros i m; simpl.
  - destruct (run r (@accept) i [] []) as [[e c]|] eqn:E; [|discriminate].
    intros H. inversion H. subst. simpl.
    destruct (run_groupless r Hg _ _ _ _ E) as (i' & s' & Ha).
    now inversion Ha.
  - destruct (run r (@accept) i (x :: s) []) as [[e c]|] eqn:E.
    + intros H. inversion H. subst. simpl.
      destruct (run_groupless r Hg _ _ _ _ E) as (i' & s' & Ha).
      now inversion Ha.
    + apply IH.
Qed.

Lemma group_groupless (r : regex) (n : nat) (text : jsstring) :
  groupless r = true -> group n (exec r text) = None.
Proof.
  intros Hg. unfold group, exec.
  destruct (search r 0 text) as [m|] eqn:E; [|reflexivity].
  now rewrite (search_groupless r text Hg 0 E).
Qed.

Lemma first_capture_skip (a b : list regex) (p : regex) (text : jsstring) :
  group 1 (exec p text) = None ->
  Heuristic.first_capture (a ++ p :: b) text
  = Heuristic.first_capture (a ++ b) text.
Proof.
  intros Hp. induction a as [|q a IH]; simpl.
  - now rewrite Hp.
  - rewrite IH. reflexivity.
Qed.

(** X17.  The third of the role patterns, the one for engineering titles
    (Software, Senior, Junior, Lead, ... Engineer, Developer, Architect),
    has no capture group and so never gives a job profile: for every
    subject and body, the job profile is the one found by the five other
    patterns. *)
Theorem title_pattern_never_captures :
  forall (subject body : jsstring),
    group 1 (exec (nth 2 Heuristic.rolePatterns Empty)
                  (subject ++ lit " " ++ body)) = None
    /\ Heuristic.role_of subject body
       = match Heuristic.first_capture
                 (firstn 2 Heuristic.rolePatterns
                    ++ skipn 3 Heuristic.rolePatterns)
                 (subject ++ lit " " ++ body) with
         | Some g => trim g
         | None => lit "Unknown Position"
         end.
Proof.
  intros subject body.
  assert (group 1 (exec (nth 2 Heuristic.rolePatterns Empty)
                        (subject ++ lit " " ++ body)) = None) as H
      by (apply group_groupless; reflexivity).
  split; [assumption|]. unfold Heuristic.role_of.
  change Heuristic.rolePatterns
    with (firstn 2 Heuristic.rolePatterns
            ++ nth 2 Heuristic.rolePatterns Empty
            :: skipn 3 Heuristic.rolePatterns) at 1.
  now rewrite (first_capture_skip _ _ _ _ H).
Qed.

(** *** A message without subject and text *)

Lemma lower_ascii_inv (x c : char) :
  lower_ascii x = c -> x = c \/ is_upper_ascii x = true.
Proof.
  unfold lower_ascii. destruct (is_upper_ascii x); auto.
Qed.

Lemma upper_is_no_space (x : char) :
  is_upper_ascii x = true -> is_space x = false.
Proof.
  unfold is_upper_ascii, is_space, in_range. intros H.
  apply andb_true_iff in H. destruct H as [H1 H2].
  apply N.leb_le in H1. apply N.leb_le in H2.
  repeat match goal with
         | |- context [N.eqb x ?c] =>
             destruct (N.eqb_spec x c); [lia|]
         | |- context [N.leb x ?c] =>
             destruct (N.leb_spec x c)
         | |- context [N.leb ?c x] =>
             destruct (N.leb_spec c x)
         end; try lia; reflexivity.
Qed.

Lemma chr_i_space (a : ascii) (x : char) :
  is_space (lower_ascii (N_of_ascii a)) = false ->
  is_space x = true -> chr_i a x = false.
Proof.
  intros H1 Hx. unfold chr_i.
  destruct (N.eqb_spec (lower_ascii x) (lower_ascii (N_of_ascii a)))
    as [E|E]; [|reflexivity].
  apply lower_ascii_inv in E. destruct E as [E|E].
  - rewrite E in Hx. congruence.
  - apply upper_is_no_space in E. congruence.
Qed.

Lemma space_is_name (x : char) : is_space x = true -> Heuristic.name_class x = true.
Proof.
  intros H. unfold Heuristic.name_class. rewrite H.
  now rewrite !orb_true_r.
Qed.

Lemma space_is_no_dash (x : char) :
  is_space x = true -> Heuristic.dash_class x = false.
Proof.
  intros H. unfold Heuristic.dash_class, chr.
  repeat match goal with
         | |- context [N.eqb x ?c] =>
             destruct (N.eqb_spec x c);
             [subst x; vm_compute in H; discriminate H|]
         end.
  reflexivity.
Qed.

Lemma blank_app (a b : jsstring) :
  blank (a ++ b) = blank a && blank b.
Proof. apply forallb_app. Qed.

Lemma blank_In (s : jsstring) :
  blank s = true -> forall x, In x s -> is_space x = true.
Proof. unfold blank. rewrite forallb_forall. auto. Qed.

Lemma trimStart_blank (s : jsstring) : blank s = true -> trimStart s = [].
Proof.
  induction s as [|x s IH]; simpl; [reflexivity|].
  intros H. apply andb_true_iff in H. destruct H as [-> H]. now apply IH.
Qed.

Lemma trim_blank (s : jsstring) : blank s = true -> trim s = [].
Proof.
  intros H. unfold trim, trimEnd. now rewrite (trimStart_blank s H).
Qed.

(** A lazy repetition runs to the end of the text when its continuation
    fails before. *)
Lemma star_lazy_end {A} (p : char -> bool) (k : cont A) (c : captures)
      (s : jsstring) : forall i,
  (forall x, In x s -> p x = true) ->
  (forall s1 s2, s = s1 ++ s2 -> s2 <> [] ->
                 k (i + List.length s1) s2 c = None) ->
  star_lazy p k i s c = k (i + List.length s) [] c.
Proof.
  induction s as [|x s IH]; intros i Hp Hk; simpl.
  - rewrite Nat.add_0_r. now destruct (k i [] c).
  - assert (k i (x :: s) c = None) as ->.
    { specialize (Hk [] (x :: s) eq_refl). simpl in Hk.
      rewrite Nat.add_0_r in Hk. apply Hk. discriminate. }
    rewrite (Hp x (or_introl eq_refl)), Nat.add_succ_r.
    apply (IH (S i)).
    + intros y Hy. apply Hp. now right.
    + intros s1 s2 E Hne. specialize (Hk (x :: s1) s2). simpl in Hk.
      rewrite Nat.add_succ_r in Hk. apply Hk; [now rewrite E | assumption].
Qed.

(** The first company pattern starts with [at], [@] or [from]: it finds
    nothing in white space. *)
Lemma first_pattern_blank (s : jsstring) :
  blank s = true ->
  forall i, search (nth 0 Heuristic.companyPatterns Empty) i s = None.
Proof.
  induction s as [|x s IH]; intros H i; [reflexivity|].
  apply andb_true_iff in H. destruct H as [Hx Hs].
  cbn [search]. rewrite (IH Hs).
  assert (run (nth 0 Heuristic.companyPatterns Empty) (@accept) i (x :: s) []
          = None) as ->; [|reflexivity].
  cbn [nth Heuristic.companyPatterns cats alts word_i map list_ascii_of_string
       run].
  rewrite (chr_i_space "a" x), (chr_i_space "@" x), (chr_i_space "f" x);
    auto.
Qed.

(** After its capture the second pattern wants a separator or the end of
    the text: in white space, only the end will do. *)
Lemma separator_blank (s : jsstring) (j : nat) (c : captures) :
  blank s = true ->
  run (Or (Cat ws0 (Set_ Heuristic.dash_class)) Eol) (@accept) j s c
  = match s with [] => Some (j, c) | _ :: _ => None end.
Proof.
  intros H. unfold ws0. cbn [run]. rewrite star_greedy_none.
  - destruct s; reflexivity.
  - intros b1 b2 E. destruct b2 as [|z b2]; [reflexivity|].
    rewrite space_is_no_dash; [reflexivity|].
    apply (blank_In s H). rewrite E. apply in_or_app. right. now left.
Qed.

(** The second company pattern captures a text of white space whole. *)
Lemma second_pattern_blank (x : char) (s : jsstring) :
  blank (x :: s) = true ->
  group 1 (exec (nth 1 Heuristic.companyPatterns Empty) (x :: s))
  = Some (x :: s).
Proof.
  intros H. pose proof (blank_In (x :: s) H) as Hin.
  unfold exec. cbn [search].
  assert (run (nth 1 Heuristic.companyPatterns Empty) (@accept) 0 (x :: s) []
          = Some (S (List.length s), [(1, x :: s)])) as ->; [|reflexivity].
  assert (run (nth 1 Heuristic.companyPatterns Empty) (@accept) 0 (x :: s) []
          = if Heuristic.name_class x
            then star_lazy Heuristic.name_class
                   (fun i' s' c' =>
                      run (Or (Cat ws0 (Set_ Heuristic.dash_class)) Eol)
                          (@accept) i' s'
                          ((1, firstn (i' - 0) (x :: s)) :: c'))
                   1 s []
            else None) as -> by reflexivity.
  rewrite (space_is_name x (Hin x (or_introl eq_refl))).
  rewrite star_lazy_end.
  - rewrite separator_blank by reflexivity.
    rewrite Nat.sub_0_r. cbn [Nat.add firstn]. now rewrite firstn_all.
  - intros y Hy. apply space_is_name, Hin. now right.
  - intros s1 s2 E Hne.
    rewrite separator_blank.
    + destruct s2; [congruence | reflexivity].
    + apply andb_true_iff in H. destruct H as [_ Hs]. rewrite E in Hs.
      rewrite blank_app in Hs. apply andb_true_iff in Hs. tauto.
Qed.

Lemma company_of_blank upper_other (subject body from : jsstring) :
  blank subject = true -> blank body = true ->
  Heuristic.company_of upper_other subject body from = [].
Proof.
  intros Hs Hb.
  assert (blank (subject ++ lit " " ++ body) = true) as Ht.
  { rewrite !blank_app, Hs, Hb. reflexivity. }
  destruct (subject ++ lit " " ++ body) as [|x t] eqn:E.
  { destruct subject; discriminate E. }
  unfold Heuristic.company_of. rewrite E.
  assert (Heuristic.first_capture Heuristic.companyPatterns (x :: t)
          = Some (x :: t)) as ->.
  { change Heuristic.companyPatterns
      with (nth 0 Heuristic.companyPatterns Empty
            :: nth 1 Heuristic.companyPatterns Empty
            :: skipn 2 Heuristic.companyPatterns).
    cbn [Heuristic.first_capture].
    unfold exec at 1. rewrite (first_pattern_blank _ Ht). cbn [group].
    now rewrite (second_pattern_blank x t Ht). }
  rewrite (trim_blank _ Ht). reflexivity.
Qed.

(** X18.  In [part_001], a message whose subject and body are empty or
    white space gets the empty company name on the fallback path, whoever
    the sender is: the second company pattern captures the white space,
    and neither the domain fallback nor "Unknown Company" is used. *)
Theorem blank_message_has_empty_company :
  forall (upper_other : jsstring -> char -> jsstring -> jsstring),
    (forall subject body from : jsstring,
        blank subject = true -> blank body = true ->
        Heuristic.company_of upper_other subject body from = [])
    /\ (forall lower_other decode Date_parse generateContent JSON_parse
               details r,
          analyzeEmailWithAI generateContent JSON_parse
            (subject_of details) (body_of decode details) (from_of details)
          = None ->
          Heuristic.extractEmailInfo lower_other upper_other decode Date_parse
            generateContent JSON_parse details = Ok r ->
          blank (subject_of details) = true ->
          blank (body_of decode details) = true ->
          Heuristic.companyName r = []).
Proof.
  intros upper_other. split.
  - intros subject body from. apply company_of_blank.
  - intros lower_other decode Date_parse generateContent JSON_parse details r
           Hai E Hs Hb.
    destruct (@HeuristicProps.fallback_fields lower_other upper_other decode
                Date_parse generateContent JSON_parse details r Hai E)
      as [-> _].
    now apply company_of_blank.
Qed.

(** A message from Acme without subject, body or date. *)
Lemma blank_message_has_empty_company_witness :
  Heuristic.company_of Sample.case_other [] []
                       (lit "Acme <jobs@Acme-Careers.com>") = [].
Proof.
  apply (@blank_message_has_empty_company Sample.case_other); reflexivity.
Defined.

End ClassifyLaws.

(* ================================================================== *)
(** ** The full pass, the body and the session *)

Module SyncLaws.
Import JS DateTime Common Http Spec Notions Dashboard.

Section FullPass.
Variable decode : jsstring -> jsstring.
Variable Date_parse : jsstring -> option Z.
Variable generateContent : jsstring -> jsstring -> jsstring -> result jsstring.
Variable JSON_parse : jsstring -> result AIAnalysisResult.
Variable session : option Session.
Variable messages_list :
  jsstring -> jsstring -> nat -> result (option (list Message)).
Variable messages_get : jsstring -> option jsstring -> result Message.

Lemma try_block_status token q maxResults r :
  Route.try_block decode Date_parse generateContent JSON_parse messages_list
                  messages_get token q maxResults = Ok r ->
  status r = 200.
Proof.
  unfold Route.try_block.
  destruct (messages_list token q maxResults) as [data|e]; simpl;
    [|discriminate].
  destruct (match data with Some l => l | None => [] end) as [|m ms].
  - intros H. inversion H. reflexivity.
  - destruct (Promise_all _); simpl; [|discriminate].
    intros H. inversion H. reflexivity.
Qed.

(** What the full-sync route answers when it does not answer 200. *)
Lemma GET_failure :
  status (Route.GET decode Date_parse generateContent JSON_parse session
                    messages_list messages_get) <> 200 ->
  exists st message rest,
    Route.GET decode Date_parse generateContent JSON_parse session
              messages_list messages_get
    = respond_with (Object (("error", message) :: rest)) st
    /\ (st = 401 \/ st = 500)
    /\ (message = lit "Not authenticated"
        \/ message = lit "Failed to fetch emails").
Proof.
  unfold Route.GET. destruct (access_token session) as [token|].
  - destruct (Route.try_block _ _ _ _ _ _ _ _ _) as [r|e] eqn:E.
    + intros H. exfalso. apply H. now apply (try_block_status _ _ _ E).
    + intros _. do 3 eexists. split; [reflexivity|]. auto.
  - intros _. do 3 eexists. split; [reflexivity|]. auto.
Qed.
End FullPass.

(** X19.  When the full-sync route does not answer 200 (no credential, or
    a failure of the provider or of a classification), the full pass of
    the dashboard keeps the records and the watermark it had, ends with
    [loading] false, and shows the [error] text of the route, "Not
    authenticated" or "Failed to fetch emails". *)
Theorem full_sync_failure_keeps_state :
  forall (decode : jsstring -> jsstring)
         (Date_parse : jsstring -> option Z)
         (generateContent : jsstring -> jsstring -> jsstring -> result jsstring)
         (JSON_parse : jsstring -> result AIAnalysisResult)
         (session : option Session)
         (messages_list :
            jsstring -> jsstring -> nat -> result (option (list Message)))
         (messages_get : jsstring -> option jsstring -> result Message)
         (st : State) (now : Z),
    let response :=
      Route.GET decode Date_parse generateContent JSON_parse session
                messages_list messages_get in
    status response <> 200 ->
    let trace := fetchEmails true st (Ok (received (Ok response))) now in
    jobEmails (run st trace) = jobEmails st
    /\ lastFetchTime (run st trace) = lastFetchTime st
    /\ watermark_writes trace = 0
    /\ loading (run st trace) = false
    /\ (error (run st trace) = Some (lit "Not authenticated")
        \/ error (run st trace) = Some (lit "Failed to fetch emails")).
Proof.
  intros decode Date_parse generateContent JSON_parse session messages_list
         messages_get st now response Hst.
  destruct (GET_failure decode Date_parse generateContent JSON_parse session
              messages_list messages_get Hst)
    as (code & message & rest & Hr & Hcode & Hmsg).
  unfold response. rewrite Hr.
  assert (ok (received (Ok (respond_with
                              (@Object Route.EmailInfo
                                 (("error", message) :: rest)) code)))
          = false) as Hok.
  { destruct Hcode as [-> | ->]; reflexivity. }
  unfold fetchEmails. cbn [negb bind]. rewrite Hok. cbn [negb].
  cbn [received data json respond_with bind error_field find fst snd
       String.eqb Ascii.eqb Bool.eqb].
  destruct Hmsg as [-> | ->]; cbn; auto 10.
Qed.

(** The list call of the provider is rejected. *)
Lemma full_sync_failure_keeps_state_witness :
  jobEmails
    (run (Sample.state [Sample.record "X" "Applied"] 1000)
         (fetchEmails true (Sample.state [Sample.record "X" "Applied"] 1000)
            (Ok (received
                   (Ok (Route.GET Sample.decode Sample.Date_parse
                          Sample.generateContent_down Sample.JSON_parse
                          Sample.session Sample.list_rejected
                          (Sample.get_message Sample.undated)))))
            2000))
  = [Sample.record "X" "Applied"].
Proof.
  apply (@full_sync_failure_keeps_state Sample.decode Sample.Date_parse
           Sample.generateContent_down Sample.JSON_parse Sample.session
           Sample.list_rejected (Sample.get_message Sample.undated)
           (Sample.state [Sample.record "X" "Applied"] 1000) 2000).
  vm_compute. discriminate.
Defined.

Lemma filter_none {A} (f : A -> bool) (l : list A) :
  (forall x, In x l -> f x = false) -> filter f l = [].
Proof.
  induction l as [|x l IH]; intros H; simpl; [reflexivity|].
  rewrite (H x (or_introl eq_refl)). apply IH.
  intros y Hy. apply H. now right.
Qed.

(** X20.  A message without text/plain content of its own and without a
    text/plain part among its direct children has the empty body,
    whatever its parts hold: an HTML-only message, or one whose text lies
    deeper, reaches the classifiers without a body. *)
Theorem body_without_plain_text_is_empty :
  forall (decode : jsstring -> jsstring) (p : MessagePart),
    is_text_plain p = false \/ data_of p = None ->
    (forall ps c, parts p = Some ps -> In c ps -> is_text_plain c = false) ->
    getEmailBody decode (Some p) = [].
Proof.
  intros decode p Hroot Hchildren. unfold getEmailBody.
  assert ((if is_text_plain p then data_of p else None) = None) as ->.
  { destruct Hroot as [-> | ->]; [reflexivity|].
    now destruct (is_text_plain p). }
  destruct (parts p) as [ps|] eqn:E; [|reflexivity].
  rewrite filter_none; [reflexivity|].
  intros c Hc. now apply (Hchildren ps c).
Qed.

(** The message whose text lies inside a multipart/alternative child. *)
Lemma body_without_plain_text_is_empty_witness :
  getEmailBody Sample.decode (Some Sample.nested) = [].
Proof.
  apply (@body_without_plain_text_is_empty Sample.decode Sample.nested).
  - left. reflexivity.
  - intros ps c E Hc. inversion E. subst ps.
    destruct Hc as [<-|[]]. reflexivity.
Defined.

Lemma refreshed_keeps {C} (n : nat) : forall token : Auth.JWT C,
  Auth.refreshed n token = token.
Proof.
  induction n as [|n IH]; intros token; simpl; [reflexivity | apply IH].
Qed.

(** X21.  The access token of the session is the one of the account at
    sign-in, however many times [jwt] runs afterwards without an account,
    and the claims of the token are kept; the full-sync route answers 401
    to such a session exactly when the account brought no access token or
    an empty one. *)
Theorem session_carries_sign_in_token :
  forall (C : Type) (token : Auth.JWT C) (account : Auth.Account) (n : nat)
         (s : Session)
         (decode : jsstring -> jsstring)
         (Date_parse : jsstring -> option Z)
         (generateContent : jsstring -> jsstring -> jsstring -> result jsstring)
         (JSON_parse : jsstring -> result AIAnalysisResult)
         (messages_list :
            jsstring -> jsstring -> nat -> result (option (list Message)))
         (messages_get : jsstring -> option jsstring -> result Message),
    let token' := Auth.refreshed n (Auth.jwt token (Some account)) in
    let session := Auth.session s token' in
    Auth.claims token' = Auth.claims token
    /\ accessToken session = Auth.access_token account
    /\ (status (Route.GET decode Date_parse generateContent JSON_parse
                          (Some session) messages_list messages_get) = 401
        <-> or_default (Auth.access_token account) [] = []).
Proof.
  intros C token account n s decode Date_parse generateContent JSON_parse
         messages_list messages_get token' session.
  unfold session, token'. rewrite refreshed_keeps.
  split; [reflexivity|]. split; [reflexivity|].
  unfold Route.GET, access_token. cbn [accessToken Auth.session Auth.jwt
                                       Auth.accessToken].
  destruct (Auth.access_token account) as [[|c t]|]; cbn [truthy or_default].
  - split; reflexivity.
  - destruct (Route.try_block _ _ _ _ _ _ _ _ _) as [r|e] eqn:E.
    + rewrite (try_block_status _ _ _ _ _ _ _ _ _ E).
      split; discriminate.
    + split; discriminate.
  - split; reflexivity.
Qed.

(** An account that brings an empty access token. *)
Lemma session_carries_sign_in_token_witness :
  status (Route.GET Sample.decode Sample.Date_parse
            Sample.generateContent_down Sample.JSON_parse
            (Some (Auth.session (mkSession None)
                     (Auth.refreshed 3
                        (Auth.jwt (Auth.mkJWT tt None)
                                  (Some (Auth.mkAccount (Some [])))))))
            Sample.list_one (Sample.get_message Sample.acme_bare)) = 401.
Proof.
  apply (@session_carries_sign_in_token unit (Auth.mkJWT tt None)
           (Auth.mkAccount (Some [])) 3 (mkSession None) Sample.decode
           Sample.Date_parse Sample.generateContent_down Sample.JSON_parse
           Sample.list_one (Sample.get_message Sample.acme_bare)).
  reflexivity.
Defined.

(** One listed message, which the get returns. *)
Lemma getGmailMessages_all_or_nothing_witness :
  GmailUtil.getGmailMessages Sample.list_one
    (Sample.get_message Sample.acme_bare) (lit "ya29.token")
  = Ok [Sample.acme_bare].
Proof.
  destruct (@RouteLaws.getGmailMessages_all_or_nothing Sample.list_one
              (Sample.get_message Sample.acme_bare) (lit "ya29.token"))
    as [H _].
  apply H. eexists. split; reflexivity.
Defined.

Section FullPassSuccess.
Variable decode : jsstring -> jsstring.
Variable Date_parse : jsstring -> option Z.
Variable generateContent : jsstring -> jsstring -> jsstring -> result jsstring.
Variable JSON_parse : jsstring -> result AIAnalysisResult.
Variable session : option Session.
Variable messages_list :
  jsstring -> jsstring -> nat -> result (option (list Message)).
Variable messages_get : jsstring -> option jsstring -> result Message.

Lemma try_block_records token q maxResults r :
  Route.try_block decode Date_parse generateContent JSON_parse messages_list
                  messages_get token q maxResults = Ok r ->
  exists records, r = respond (Records records).
Proof.
  unfold Route.try_block.
  destruct (messages_list token q maxResults) as [data|e]; simpl;
    [|discriminate].
  destruct (match data with Some l => l | None => [] end) as [|m ms].
  - intros H. inversion H. eauto.
  - destruct (Promise_all _); simpl; [|discriminate].
    intros H. inversion H. eauto.
Qed.

Lemma GET_success :
  status (Route.GET decode Date_parse generateContent JSON_parse session
                    messages_list messages_get) = 200 ->
  exists records,
    Route.GET decode Date_parse generateContent JSON_parse session
              messages_list messages_get
    = respond (Records records).
Proof.
  unfold Route.GET. destruct (access_token session) as [token|].
  - destruct (Route.try_block _ _ _ _ _ _ _ _ _) as [r|e] eqn:E.
    + intros _. now apply (try_block_records _ _ _ E).
    + discriminate.
  - discriminate.
Qed.
End FullPassSuccess.

(** X22.  When the full-sync route answers 200, the full pass of the
    dashboard replaces the records it had by those of the answer, in the
    order of the answer and without removing duplicates, sets the
    watermark once to the time of completion, clears the error and ends
    with [loading] false. *)
Theorem full_sync_success_replaces_records :
  forall (decode : jsstring -> jsstring)
         (Date_parse : jsstring -> option Z)
         (generateContent : jsstring -> jsstring -> jsstring -> result jsstring)
         (JSON_parse : jsstring -> result AIAnalysisResult)
         (session : option Session)
         (messages_list :
            jsstring -> jsstring -> nat -> result (option (list Message)))
         (messages_get : jsstring -> option jsstring -> result Message)
         (st : State) (now : Z),
    let response :=
      Route.GET decode Date_parse generateContent JSON_parse session
                messages_list messages_get in
    status response = 200 ->
    let trace := fetchEmails true st (Ok (received (Ok response))) now in
    exists records,
      response = respond (Records records)
      /\ jobEmails (run st trace) = map to_JobEmail records
      /\ lastFetchTime (run st trace) = now
      /\ watermark_writes trace = 1
      /\ loading (run st trace) = false
      /\ error (run st trace) = None.
Proof.
  intros decode Date_parse generateContent JSON_parse session messages_list
         messages_get st now response Hst.
  destruct (GET_success decode Date_parse generateContent JSON_parse session
              messages_list messages_get Hst) as [records Hr].
  exists records. unfold response. rewrite Hr. repeat split.
Qed.

(** The provider lists nothing: the stored record goes. *)
Lemma full_sync_success_replaces_records_witness :
  exists records,
    Route.GET Sample.decode Sample.Date_parse Sample.generateContent_down
              Sample.JSON_parse Sample.session Sample.list_none
              (Sample.get_message Sample.undated)
    = respond (Records records)
    /\ jobEmails
         (run (Sample.state [Sample.record "X" "Applied"] 1000)
              (fetchEmails true
                 (Sample.state [Sample.record "X" "Applied"] 1000)
                 (Ok (received
                        (Ok (Route.GET Sample.decode Sample.Date_parse
                               Sample.generateContent_down Sample.JSON_parse
                               Sample.session Sample.list_none
                               (Sample.get_message Sample.undated)))))
                 2000))
       = map to_JobEmail records.
Proof.
  destruct (@full_sync_success_replaces_records Sample.decode
              Sample.Date_parse Sample.generateContent_down Sample.JSON_parse
              Sample.session Sample.list_none
              (Sample.get_message Sample.undated)
              (Sample.state [Sample.record "X" "Applied"] 1000) 2000 eq_refl)
    as (records & H1 & H2 & _).
  exists records. split; assumption.
Defined.

End SyncLaws.

(* ================================================================== *)
(** ** When the domain fallback is reached *)

Module FallbackLaws.
Import JS Regex Common Spec Notions.

Lemma name_is_no_dash (x : char) :
  Heuristic.name_class x = true -> Heuristic.dash_class x = false.
Proof.
  intros H. unfold Heuristic.dash_class, chr.
  repeat match goal with
         | |- context [N.eqb x ?c] =>
             destruct (N.eqb_spec x c);
             [subst x; vm_compute in H; discriminate H|]
         end.
  reflexivity.
Qed.

Lemma named_app (a b : jsstring) : named (a ++ b) = named a && named b.
Proof. apply forallb_app. Qed.

Lemma named_In (s : jsstring) :
  named s = true -> forall x, In x s -> Heuristic.name_class x = true.
Proof. unfold named. rewrite forallb_forall. auto. Qed.

(** In a text of name units no separator follows: after its capture the
    second pattern can only stop at the end. *)
Lemma separator_named (s : jsstring) (j : nat) (c : captures) :
  named s = true ->
  run (Or (Cat ws0 (Set_ Heuristic.dash_class)) Eol) (@accept) j s c
  = match s with [] => Some (j, c) | _ :: _ => None end.
Proof.
  intros H. unfold ws0. cbn [run]. rewrite ClassifyLaws.star_greedy_none.
  - destruct s; reflexivity.
  - intros b1 b2 E. destruct b2 as [|z b2]; [reflexivity|].
    rewrite name_is_no_dash; [reflexivity|].
    apply (named_In s H). rewrite E. apply in_or_app. right. now left.
Qed.

(** The second company pattern captures a text of name units whole. *)
Lemma second_pattern_named (x : char) (s : jsstring) :
  named (x :: s) = true ->
  group 1 (exec (nth 1 Heuristic.companyPatterns Empty) (x :: s))
  = Some (x :: s).
Proof.
  intros H. pose proof (named_In (x :: s) H) as Hin.
  unfold exec. cbn [search].
  assert (run (nth 1 Heuristic.companyPatterns Empty) (@accept) 0 (x :: s) []
          = Some (S (List.length s), [(1, x :: s)])) as ->; [|reflexivity].
  assert (run (nth 1 Heuristic.companyPatterns Empty) (@accept) 0 (x :: s) []
          = if Heuristic.name_class x
            then star_lazy Heuristic.name_class
                   (fun i' s' c' =>
                      run (Or (Cat ws0 (Set_ Heuristic.dash_class)) Eol)
                          (@accept) i' s'
                          ((1, firstn (i' - 0) (x :: s)) :: c'))
                   1 s []
            else None) as -> by reflexivity.
  rewrite (Hin x (or_introl eq_refl)).
  rewrite ClassifyLaws.star_lazy_end.
  - rewrite separator_named by reflexivity.
    rewrite Nat.sub_0_r. cbn [Nat.add firstn]. now rewrite firstn_all.
  - intros y Hy. apply Hin. now right.
  - intros s1 s2 E Hne.
    rewrite separator_named.
    + destruct s2; [congruence | reflexivity].
    + apply andb_true_iff in H. destruct H as [_ Hs]. rewrite E in Hs.
      rewrite named_app in Hs. apply andb_true_iff in Hs. tauto.
Qed.

Lemma first_capture_named (text : jsstring) :
  named text = true -> text <> [] ->
  exists g, Heuristic.first_capture Heuristic.companyPatterns text = Some g.
Proof.
  intros H Hne. destruct text as [|x t]; [congruence|].
  change Heuristic.companyPatterns
    with (nth 0 Heuristic.companyPatterns Empty
          :: nth 1 Heuristic.companyPatterns Empty
          :: skipn 2 Heuristic.companyPatterns).
  cbn [Heuristic.first_capture].
  rewrite (second_pattern_named x t H). cbn [truthy].
  destruct (group 1 (exec (nth 0 Heuristic.companyPatterns Empty) (x :: t)))
    as [g|]; [|eauto].
  destruct (truthy g); eauto.
Qed.

(** X23.  In [part_001], when the subject and the body hold nothing but
    letters, digits, white space, [&] and [.], a company pattern always
    captures something (the second pattern takes the whole text if the
    first finds nothing), so the company name is that capture trimmed and
    the sender's domain is never consulted, unless the capture happens to
    read "Unknown Company". *)
Theorem plain_text_never_reaches_domain_fallback :
  forall (upper_other : jsstring -> char -> jsstring -> jsstring)
         (subject body : jsstring),
    named subject = true -> named body = true ->
    exists g,
      Heuristic.first_capture Heuristic.companyPatterns
                              (subject ++ lit " " ++ body) = Some g
      /\ (trim g <> lit "Unknown Company" ->
          forall from,
            Heuristic.company_of upper_other subject body from = trim g).
Proof.
  intros upper_other subject body Hs Hb.
  destruct (@first_capture_named (subject ++ lit " " ++ body)) as [g Hg].
  - rewrite !named_app, Hs, Hb. reflexivity.
  - destruct subject; discriminate.
  - exists g. split; [assumption|].
    intros Hne from. unfold Heuristic.company_of. rewrite Hg.
    assert (eqb (trim g) (lit "Unknown Company") = false) as ->
        by now apply MergeProps.eqb_false_iff.
    reflexivity.
Qed.

(** The subject "Your application" with the sender
    <jobs@Acme-Careers.com>. *)
Lemma plain_text_never_reaches_domain_fallback_witness :
  Heuristic.company_of Sample.case_other (lit "Your application") []
                       (lit "<jobs@Acme-Careers.com>")
  = lit "Your application".
Proof.
  destruct (@plain_text_never_reaches_domain_fallback Sample.case_other
              (lit "Your application") [] eq_refl eq_refl) as (g & Hg & H).
  vm_compute in Hg. inversion Hg. subst g.
  refine (eq_trans (H _ (lit "<jobs@Acme-Careers.com>")) _).
  - vm_compute. discriminate.
  - vm_compute. reflexivity.
Defined.

End FallbackLaws.
